(** * Virtual-File-System: the indexed namespace engine

    A shallow embedding of the Python sources

    - [fs/index/btree.py]   (class [BTree], class [_Node]),
    - [fs/index/rbtree.py]  (class [RBTree], a thin wrapper of [bintrees.RBTree]),
    - [fs/node.py]          (classes [Meta], [Inode], [Directory], [File]),
    - [fs/inode_table.py]   (class [InodeTable]),
    - [fs/vfs.py]           (class [VFS])

    together with the properties of the specification that concern them.

    Conventions of the embedding.  Python [int] is [Z]; a Python [str] that
    is a name or a path is a [string] compared bytewise ([String.ltb],
    [String.eqb]); a [str] that is encoded is the list of its code points;
    [bytes] and [bytearray] are [list byte]; a Python list is a [list],
    indexed with stdpp's [!!]; the dictionary of the inode table is a
    [gmap Z Inode].
    A method that mutates [self] becomes a function that returns the new
    state next to its outcome, so that what a raising call has already
    mutated stays visible.
    The inode table is embedded twice: holding the inodes themselves
    ([inode_table], which the namespace uses, where every inode handed to
    [allocate] is a new object), and holding references into a store of
    objects ([inode_refs]), where one object allocated twice is one
    object; the two are shown to agree when the objects are distinct.
    The clock is a parameter [now] of each command, read as one value by
    every [Meta()] of that command, where Python reads it once per
    field; the statements on what path resolution and an absent name
    make [mkdir], [touch] and [write] create give the size and the
    permissions of the new inodes and leave their timestamps open. *)

From Stdlib Require Import ZArith List String Ascii Bool Lia.
From Stdlib.Strings Require Import Byte.
From stdpp Require Import gmap strings list.

Set Warnings "-register-all".
Local Open Scope Z_scope.

(** ** Exceptions and outcomes *)

(** The argument carried by a [KeyError]: the key that was looked up, a
    [str] (directory index) or an [int] (inode table). *)
Inductive pykey : Type :=
| KStr (s : string)
| KInt (z : Z).

(** Modelled from the spec: the module [fs/exceptions.py] is imported by
    [fs/vfs.py] but is not part of the sources; its four classes
    [FSException], [FileExists], [FileNotFound] and [NotDirectory] are the
    first four error kinds of the error taxonomy.  The remaining
    constructors are Python's built-in exceptions that the modelled code
    can raise. *)
Inductive exn : Type :=
| FSException (msg : string)
| FileExists (name : string)
| FileNotFound (name : string)
| NotDirectory (ctx : string)
| KeyError (k : pykey)
| IndexError
| ValueError
| AttributeError (attr : string)
| UnicodeEncodeError
| FuelExhausted.

Inductive res (A : Type) : Type :=
| Ok (a : A)
| Raise (e : exn).
Arguments Ok {A} a.
Arguments Raise {A} e.

Definition res_bind {A B} (c : res A) (k : A -> res B) : res B :=
  match c with
  | Ok a => k a
  | Raise e => Raise e
  end.

Declare Scope res_scope.
Delimit Scope res_scope with res.
Notation "x <- c ;; k" := (res_bind c (fun x => k))
  (at level 100, c at next level, right associativity) : res_scope.

(** The five error kinds of the specification's taxonomy. *)
Inductive error_kind : Type :=
| InvalidPath
| AlreadyExists
| NotFound
| NotADirectory
| InvalidIdentity.

(** Which kind of the taxonomy an exception is, if any.  [InvalidIdentity]
    is the [KeyError] that [InodeTable.get] raises on an [int] that was
    never allocated. *)
Definition kind_of (e : exn) : option error_kind :=
  match e with
  | FSException _ => Some InvalidPath
  | FileExists _ => Some AlreadyExists
  | FileNotFound _ => Some NotFound
  | NotDirectory _ => Some NotADirectory
  | KeyError (KInt _) => Some InvalidIdentity
  | _ => None
  end.

(** ** Python list and string primitives *)

Module py.

(** [key < other] and [key == other] on [str]. *)
Definition str_lt (a b : string) : bool := String.ltb a b.
Definition str_eq (a b : string) : bool := String.eqb a b.

(** [l[i]] for an index that the code has computed as a non-negative
    number. *)
Definition getitem {A} (l : list A) (i : nat) : res A :=
  match l !! i with
  | Some x => Ok x
  | None => Raise IndexError
  end.

(** [l[i]] for an arbitrary [int]: a negative index counts from the end. *)
Definition getitem_int {A} (l : list A) (i : Z) : res A :=
  if i <? 0 then
    if i + Z.of_nat (length l) <? 0 then Raise IndexError
    else getitem l (Z.to_nat (i + Z.of_nat (length l)))
  else getitem l (Z.to_nat i).

(** The bound of a slice, clipped as Python does. *)
Definition clip (len : nat) (a : Z) : nat :=
  if a <? 0 then Z.to_nat (Z.max (a + Z.of_nat len) 0)
  else Nat.min (Z.to_nat a) len.

(** [l[a:]] and [l[:b]]. *)
Definition slice_from {A} (l : list A) (a : Z) : list A :=
  drop (clip (length l) a) l.
Definition slice_to {A} (l : list A) (b : Z) : list A :=
  take (clip (length l) b) l.

(** [l.insert(i, x)] for [0 <= i]: past the end it appends. *)
Definition insert {A} (i : nat) (x : A) (l : list A) : list A :=
  take i l ++ x :: drop i l.

(** [l.index(x)]: the first position of [x]. *)
Fixpoint index (x : string) (l : list string) : option nat :=
  match l with
  | [] => None
  | y :: l' => if str_eq y x then Some O else option_map S (index x l')
  end.

(** [bisect.bisect_left(a, x)]: the library's binary search
    [[
      lo, hi = 0, len(a)
      while lo < hi:
          mid = (lo + hi) // 2
          if a[mid] < x: lo = mid + 1
          else: hi = mid
      return lo
    ]]
    The interval shrinks at every turn, so [len(a)] turns are enough. *)
Fixpoint bisect_loop (fuel : nat) (a : list string) (x : string)
    (lo hi : nat) : nat :=
  match fuel with
  | O => lo
  | S fuel' =>
      if (lo <? hi)%nat then
        let mid := ((lo + hi) / 2)%nat in
        match a !! mid with
        | Some y =>
            if str_lt y x then bisect_loop fuel' a x (S mid) hi
            else bisect_loop fuel' a x lo mid
        | None => lo
        end
      else lo
  end.

Definition bisect_left (a : list string) (x : string) : nat :=
  bisect_loop (length a) a x 0%nat (length a).

(** A [str] that is to be encoded: its code points, each below
    [0x110000].  A [string] of the development stands for the [str] whose
    code points are its characters. *)
Definition pystr : Type := list N.

Definition text (s : string) : pystr :=
  map N_of_ascii (list_ascii_of_string s).

Definition byte_of (n : N) : byte :=
  match Byte.of_N n with
  | Some b => b
  | None => x00
  end.

(** The code points U+D800 .. U+DFFF, which UTF-8 does not encode. *)
Definition is_surrogate (c : N) : bool :=
  ((55296 <=? c) && (c <=? 57343))%N.

(** The UTF-8 bytes of one code point that is no surrogate. *)
Definition utf8 (c : N) : list byte :=
  (if c <? 128 then [byte_of c]
   else if c <? 2048 then
     [byte_of (192 + c / 64); byte_of (128 + c mod 64)]
   else if c <? 65536 then
     [byte_of (224 + c / 4096); byte_of (128 + (c / 64) mod 64);
      byte_of (128 + c mod 64)]
   else
     [byte_of (240 + c / 262144); byte_of (128 + (c / 4096) mod 64);
      byte_of (128 + (c / 64) mod 64); byte_of (128 + c mod 64)])%N.

(** [s.encode()]: UTF-8, strict; a surrogate raises
    [UnicodeEncodeError]. *)
Fixpoint encode (s : pystr) : res (list byte) :=
  match s with
  | [] => Ok []
  | c :: s' =>
      if is_surrogate c then Raise UnicodeEncodeError
      else match encode s' with
           | Ok rest => Ok (utf8 c ++ rest)
           | Raise e => Raise e
           end
  end.

End py.

Coercion py.text : string >-> py.pystr.

(** ** fs/index/btree.py *)

Module btree.

(** [class _Node], with its four slots. *)
Inductive _Node : Type :=
  mkNode (leaf : bool) (keys : list string) (vals : list Z)
         (kids : list _Node).

Definition leaf (n : _Node) : bool := let 'mkNode l _ _ _ := n in l.
Definition keys (n : _Node) : list string := let 'mkNode _ k _ _ := n in k.
Definition vals (n : _Node) : list Z := let 'mkNode _ _ v _ := n in v.
Definition kids (n : _Node) : list _Node := let 'mkNode _ _ _ c := n in c.

(** [_Node(leaf)]. *)
Definition new_Node (lf : bool) : _Node := mkNode lf [] [] [].

Definition set_keys (n : _Node) (k : list string) : _Node :=
  mkNode (leaf n) k (vals n) (kids n).
Definition set_vals (n : _Node) (v : list Z) : _Node :=
  mkNode (leaf n) (keys n) v (kids n).
Definition set_kids (n : _Node) (c : list _Node) : _Node :=
  mkNode (leaf n) (keys n) (vals n) c.

(** [class BTree]: the fields set by [__init__]. *)
Record BTree : Type := mkBTree {
  _root : _Node;
  _order : Z;
  _min : Z
}.

(** [BTree.__init__(self, order)]. *)
Definition init (order : Z) : BTree :=
  {| _root := new_Node true; _order := order; _min := order / 2 |}.

(** The default order of [__init__]. *)
Definition default_order : Z := 64.

Definition set_root (t : BTree) (r : _Node) : BTree :=
  {| _root := r; _order := _order t; _min := _min t |}.

(** A reference to a node of the tree is the list of child positions
    that leads to it from the root. *)
Definition ref : Type := list nat.

Fixpoint set_at (root : _Node) (p : ref) (new : _Node) : _Node :=
  match p with
  | [] => new
  | i :: p' =>
      match kids root !! i with
      | Some k => set_kids root (<[i := set_at k p' new]> (kids root))
      | None => root
      end
  end.

(** [_search(self, node, key)]: the node found (its reference and its
    contents) with the position of the key in it, or [None]. *)
Fixpoint _search (node : _Node) (key : string)
    : res (option (ref * _Node * nat)) :=
  match node with
  | mkNode lf ks vs kds =>
      let i := py.bisect_left ks key in
      let hit := match ks !! i with
                 | Some k => py.str_eq k key
                 | None => false
                 end in
      if lf then
        if hit then Ok (Some ([], node, i)) else Ok None
      else
        let i := if hit then S i else i in
        (fix descend (l : list _Node) (n : nat) {struct l} :=
           match l, n with
           | [], _ => Raise IndexError
           | kid :: _, O =>
               match _search kid key with
               | Ok (Some (p, found, idx)) => Ok (Some (i :: p, found, idx))
               | other => other
               end
           | _ :: l', S n' => descend l' n'
           end) kds i
  end.

(** [_split_child(self, parent, i)].  Nothing has been mutated yet when
    [parent.kids[i]] or [y.keys[mid]] raises. *)
Definition _split_child (order : Z) (parent : _Node) (i : nat)
    : res _Node :=
  (y <- py.getitem (kids parent) i ;;
   let mid := order / 2 in
   pivot <- py.getitem_int (keys y) mid ;;
   let parent_keys := py.insert i pivot (keys parent) in
   let z_keys := py.slice_from (keys y) (mid + 1) in
   let y_keys := py.slice_to (keys y) (mid + 1) in
   let z := if leaf y
            then mkNode (leaf y) z_keys (py.slice_from (vals y) (mid + 1)) []
            else mkNode (leaf y) z_keys [] (py.slice_from (kids y) (mid + 1)) in
   let y' := if leaf y
             then mkNode (leaf y) y_keys (py.slice_to (vals y) (mid + 1)) (kids y)
             else mkNode (leaf y) y_keys (vals y) (py.slice_to (kids y) (mid + 1)) in
   let parent_kids := py.insert (S i) z (<[i := y']> (kids parent)) in
   Ok (mkNode (leaf parent) parent_keys (vals parent) parent_kids))%res.

(** The loop [while i >= 0 and key < node.keys[i]: i -= 1] followed by
    [i += 1], with [n] standing for [i + 1]. *)
Fixpoint scan_down (key : string) (ks : list string) (n : nat) : nat :=
  match n with
  | O => O
  | S i =>
      match ks !! i with
      | Some k => if py.str_lt key k then scan_down key ks i else n
      | None => n
      end
  end.

(** The height of a node bounds the depth of the recursion below. *)
Fixpoint height (n : _Node) : nat :=
  match n with
  | mkNode _ _ _ kds =>
      S ((fix hmax (l : list _Node) : nat :=
            match l with
            | [] => O
            | k :: l' => Nat.max (height k) (hmax l')
            end) kds)
  end.

(** [_insert_non_full(self, node, key, val)]: the node as the call
    leaves it, and whether the call returned or raised. *)
Fixpoint _insert_non_full (fuel : nat) (order : Z) (node : _Node)
    (key : string) (val : Z) : _Node * res unit :=
  match fuel with
  | O => (node, Raise FuelExhausted)
  | S fuel' =>
      if leaf node then
        let keys' := py.insert (py.bisect_left (keys node) key) key (keys node) in
        let node1 := set_keys node keys' in
        match py.index key keys' with
        | Some j => (set_vals node1 (py.insert j val (vals node)), Ok tt)
        | None => (node1, Raise ValueError)
        end
      else
        let i := scan_down key (keys node) (length (keys node)) in
        match kids node !! i with
        | None => (node, Raise IndexError)
        | Some kid =>
            if Z.of_nat (length (keys kid)) =? order - 1 then
              match _split_child order node i with
              | Raise e => (node, Raise e)
              | Ok node1 =>
                  match keys node1 !! i with
                  | None => (node1, Raise IndexError)
                  | Some k =>
                      let i := if py.str_lt k key then S i else i in
                      match kids node1 !! i with
                      | None => (node1, Raise IndexError)
                      | Some kid1 =>
                          let '(kid2, r) :=
                            _insert_non_full fuel' order kid1 key val in
                          (set_kids node1 (<[i := kid2]> (kids node1)), r)
                      end
                  end
              end
            else
              let '(kid2, r) := _insert_non_full fuel' order kid key val in
              (set_kids node (<[i := kid2]> (kids node)), r)
        end
  end.

(** [insert(self, key, val)]. *)
Definition insert (t : BTree) (key : string) (val : Z) : BTree * res unit :=
  let r := _root t in
  let split :=
    if Z.of_nat (length (keys r)) =? _order t - 1 then
      _split_child (_order t) (mkNode false [] [] [r]) 0
    else Ok r in
  match split with
  | Raise e => (t, Raise e)
  | Ok root1 =>
      let '(root2, r) :=
        _insert_non_full (S (height root1)) (_order t) root1 key val in
      (set_root t root2, r)
  end.

(** [get(self, key)]. *)
Definition get (t : BTree) (key : string) : res Z :=
  match _search (_root t) key with
  | Raise e => Raise e
  | Ok None => Raise (KeyError (KStr key))
  | Ok (Some (_, node, idx)) => py.getitem (vals node) idx
  end.

(** [delete(self, key)]: [del node.keys[idx]] then [del node.vals[idx]]
    on the node that [_search] found. *)
Definition delete (t : BTree) (key : string) : BTree * res unit :=
  match _search (_root t) key with
  | Raise e => (t, Raise e)
  | Ok None => (t, Raise (KeyError (KStr key)))
  | Ok (Some (p, node, idx)) =>
      let node1 := set_keys node (base.delete idx (keys node)) in
      if (idx <? length (vals node))%nat then
        let node2 := set_vals node1 (base.delete idx (vals node)) in
        (set_root t (set_at (_root t) p node2), Ok tt)
      else (set_root t (set_at (_root t) p node1), Raise IndexError)
  end.

(** [_iter_node(self, node)]: the keys in the order the generator yields
    them. *)
Fixpoint _iter_node (node : _Node) : list string :=
  match node with
  | mkNode lf ks vs kds =>
      if lf then ks
      else
        (fix each (l : list _Node) (i : nat) {struct l} : list string :=
           match l with
           | [] => []
           | kid :: l' =>
               _iter_node kid
               ++ match ks !! i with Some k => [k] | None => [] end
               ++ each l' (S i)
           end) kds O
  end.

(** [iter(self)]. *)
Definition iter (t : BTree) : list string := _iter_node (_root t).

(** Inserting a sequence of pairs, stopping at the first call that
    raises. *)
Fixpoint insert_all (t : BTree) (kvs : list (string * Z)) : BTree * res unit :=
  match kvs with
  | [] => (t, Ok tt)
  | (k, v) :: rest =>
      match insert t k v with
      | (t1, Ok _) => insert_all t1 rest
      | (t1, Raise e) => (t1, Raise e)
      end
  end.

End btree.

(** Names such as "f07": a letter and two decimal digits, so that the
    order of the names is the order of the numbers. *)
Definition digit (d : nat) : ascii := ascii_of_nat (48 + d).
Definition name2 (n : nat) : string :=
  String "f" (String (digit (n / 10)) (String (digit (n mod 10)) EmptyString)).
Definition numbered (n : nat) : list (string * Z) :=
  map (fun i => (name2 i, Z.of_nat i)) (seq 0 n).


(** ** fs/index/rbtree.py *)

Module rbtree.

(** [class RBTree(bintrees.RBTree)] adds nothing to the red-black tree of
    the external package [bintrees], which is a mapping kept in key
    order.  It is represented by its sequence of items in increasing key
    order; the four operations below are the ones [fs/node.py] uses:
    [t[k] = v], [t[k]], [del t[k]] and [t.keys()]. *)
Definition RBTree : Type := list (string * Z).

(** [RBTree()]. *)
Definition init : RBTree := [].

(** [t[k] = v]: binds [k], replacing the value of a key already there. *)
Fixpoint setitem (k : string) (v : Z) (t : RBTree) : RBTree :=
  match t with
  | [] => [(k, v)]
  | (k', v') :: t' =>
      if py.str_lt k k' then (k, v) :: t
      else if py.str_eq k k' then (k, v) :: t'
      else (k', v') :: setitem k v t'
  end.

(** [t[k]]: raises [KeyError(k)] when [k] is absent. *)
Fixpoint getitem (k : string) (t : RBTree) : res Z :=
  match t with
  | [] => Raise (KeyError (KStr k))
  | (k', v') :: t' => if py.str_eq k k' then Ok v' else getitem k t'
  end.

(** The items left by [del t[k]]. *)
Fixpoint remove (k : string) (t : RBTree) : RBTree :=
  match t with
  | [] => []
  | (k', v') :: t' => if py.str_eq k k' then t' else (k', v') :: remove k t'
  end.

(** [del t[k]]: raises [KeyError(k)] when [k] is absent. *)
Definition delitem (k : string) (t : RBTree) : RBTree * res unit :=
  match getitem k t with
  | Ok _ => (remove k t, Ok tt)
  | Raise e => (t, Raise e)
  end.

(** [t.keys()]: the keys in increasing order. *)
Definition keys (t : RBTree) : list string := map fst t.

End rbtree.

(** ** fs/node.py *)

Module node.

(** [class Meta].  A timestamp is the reading of the clock, an integer. *)
Record Meta : Type := mkMeta {
  created : Z;
  modified : Z;
  size : Z;
  perms : string
}.

(** [Meta()]: both default factories read the clock, [now]. *)
Definition new_Meta (now : Z) : Meta :=
  {| created := now; modified := now; size := 0; perms := "rw" |}.

Definition set_size (m : Meta) (n : Z) : Meta :=
  {| created := created m; modified := modified m; size := n;
     perms := perms m |}.

(** [class Inode] with its two subclasses.  The constructor tells the
    class ([isinstance]); the field [is_dir] is set by the subclass's
    [__init__] and never assigned again. *)
Inductive Inode : Type :=
| Directory (id : Z) (meta : Meta) (children : rbtree.RBTree)
| File (id : Z) (meta : Meta) (content : list byte).

Definition id (n : Inode) : Z :=
  match n with Directory i _ _ | File i _ _ => i end.
Definition meta (n : Inode) : Meta :=
  match n with Directory _ m _ | File _ m _ => m end.
Definition is_dir (n : Inode) : bool :=
  match n with Directory _ _ _ => true | File _ _ _ => false end.

(** [inode.id = i]. *)
Definition set_id (i : Z) (n : Inode) : Inode :=
  match n with
  | Directory _ m c => Directory i m c
  | File _ m c => File i m c
  end.

(** [Directory(id_)]. *)
Definition new_Directory (now : Z) (id_ : Z) : Inode :=
  Directory id_ (new_Meta now) rbtree.init.

(** [File(id_, content)]. *)
Definition new_File (now : Z) (id_ : Z) (content : list byte) : Inode :=
  File id_ (set_size (new_Meta now) (Z.of_nat (length content))) content.

(** The methods of [Directory].  A [File] has none of them: calling one
    on a [File] raises [AttributeError]. *)
Definition add_child (n : Inode) (name : string) (inode_id : Z)
    : Inode * res unit :=
  match n with
  | Directory i m c => (Directory i m (rbtree.setitem name inode_id c), Ok tt)
  | File _ _ _ => (n, Raise (AttributeError "add_child"))
  end.

Definition get_child (n : Inode) (name : string) : res Z :=
  match n with
  | Directory _ _ c => rbtree.getitem name c
  | File _ _ _ => Raise (AttributeError "get_child")
  end.

Definition del_child (n : Inode) (name : string) : Inode * res unit :=
  match n with
  | Directory i m c =>
      let '(c', r) := rbtree.delitem name c in (Directory i m c', r)
  | File _ _ _ => (n, Raise (AttributeError "del_child"))
  end.

Definition iter_names (n : Inode) : res (list string) :=
  match n with
  | Directory _ _ c => Ok (rbtree.keys c)
  | File _ _ _ => Raise (AttributeError "iter_names")
  end.

End node.

(** ** fs/inode_table.py *)

Module inode_table.
Import node.

Record InodeTable : Type := mkInodeTable {
  _next_id : Z;
  _table : gmap Z Inode
}.

(** [InodeTable()]. *)
Definition init : InodeTable := {| _next_id := 0; _table := ∅ |}.

(** [allocate(self, inode)]: the table afterwards and the identity
    returned. *)
Definition allocate (t : InodeTable) (inode : Inode) : InodeTable * Z :=
  let inode1 := set_id (_next_id t) inode in
  ({| _next_id := _next_id t + 1;
      _table := <[_next_id t := inode1]> (_table t) |},
   id inode1).

(** [get(self, inode_id)]: a dictionary lookup, [KeyError] when absent. *)
Definition get (t : InodeTable) (inode_id : Z) : res Inode :=
  match _table t !! inode_id with
  | Some n => Ok n
  | None => Raise (KeyError (KInt inode_id))
  end.

(** The table after the object stored under [inode_id] was mutated into
    [n]; the keys and the counter are as they were. *)
Definition mutate (t : InodeTable) (inode_id : Z) (n : Inode) : InodeTable :=
  {| _next_id := _next_id t; _table := <[inode_id := n]> (_table t) |}.

End inode_table.

(** ** fs/vfs.py *)

Module vfs.
Import node inode_table.

(** *** pathlib.PurePosixPath *)

(** [s.split("/")]. *)
Fixpoint split_slash (s : string) : list string :=
  match s with
  | EmptyString => [EmptyString]
  | String c s' =>
      if Ascii.eqb c "/" then EmptyString :: split_slash s'
      else match split_slash s' with
           | [] => [String c EmptyString]
           | h :: t => String c h :: t
           end
  end.

(** [PurePosixPath(path).is_absolute()]: the path starts with a slash. *)
Definition is_absolute (path : string) : bool :=
  match path with
  | String c _ => Ascii.eqb c "/"
  | EmptyString => false
  end.

(** A component that [PurePosixPath] keeps: not empty and not ["."]. *)
Definition kept (c : string) : bool :=
  negb (String.eqb c "") && negb (String.eqb c ".").

(** [PurePosixPath(path).parts[1:]] of an absolute path: the components
    after the root. *)
Definition parts_after_root (path : string) : list string :=
  List.filter kept (split_slash path).

(** [parts[:-1]] and [parts[-1] if parts else ""]. *)
Definition but_last (parts : list string) : list string := removelast parts.
Definition final (parts : list string) : string := List.last parts EmptyString.

(** *** class VFS *)

Record VFS : Type := mkVFS {
  table : InodeTable;
  root_id : Z
}.

Definition set_table (s : VFS) (t : InodeTable) : VFS :=
  {| table := t; root_id := root_id s |}.

(** [self.table.allocate(inode)]. *)
Definition alloc (s : VFS) (inode : Inode) : VFS * Z :=
  let '(t, i) := allocate (table s) inode in (set_table s t, i).

(** The object stored under [i] mutated into [n]. *)
Definition store (s : VFS) (i : Z) (n : Inode) : VFS :=
  set_table s (mutate (table s) i n).

(** [VFS()], at clock reading [now]. *)
Definition init (now : Z) : VFS :=
  let '(t, i) := allocate inode_table.init (new_Directory now (-1)) in
  {| table := t; root_id := i |}.

(** The payload of [write]: [bytes] or [str]. *)
Inductive payload : Type :=
| Bytes (b : list byte)
| Str (s : py.pystr).

(** [data.encode()] when [data] is a [str]. *)
Definition to_bytes (data : payload) : res (list byte) :=
  match data with
  | Bytes b => Ok b
  | Str s => py.encode s
  end.

(** The loop of [_split_path] over [parts[:-1]], from [cur_id]. *)
Fixpoint walk (now : Z) (segs : list string) (cur_id : Z) (s : VFS)
    : VFS * res Z :=
  match segs with
  | [] => (s, Ok cur_id)
  | seg :: rest =>
      match get (table s) cur_id with
      | Raise e => (s, Raise e)
      | Ok cur_dir =>
          if negb (is_dir cur_dir) then (s, Raise (NotDirectory seg))
          else
            match get_child cur_dir seg with
            | Ok child => walk now rest child s
            | Raise (KeyError _) =>
                let '(s1, new_id) := alloc s (new_Directory now (-1)) in
                let '(cur_dir1, r) := add_child cur_dir seg new_id in
                let s2 := store s1 cur_id cur_dir1 in
                match r with
                | Ok _ => walk now rest new_id s2
                | Raise e => (s2, Raise e)
                end
            | Raise e => (s, Raise e)
            end
      end
  end.

(** [_split_path(self, path)]. *)
Definition _split_path (now : Z) (path : string) (s : VFS)
    : VFS * res (Z * string) :=
  if negb (is_absolute path) then
    (s, Raise (FSException "path must start with '/'"))
  else
    let parts := parts_after_root path in
    match walk now (but_last parts) (root_id s) s with
    | (s1, Ok cur_id) => (s1, Ok (cur_id, final parts))
    | (s1, Raise e) => (s1, Raise e)
    end.

(** [_assert_dir(self, inode_id, ctx)]. *)
Definition _assert_dir (s : VFS) (inode_id : Z) (ctx : string) : res Inode :=
  match get (table s) inode_id with
  | Raise e => Raise e
  | Ok n => if negb (is_dir n) then Raise (NotDirectory ctx) else Ok n
  end.

(** The common opening of [mkdir], [touch], [write], [read] and [rm]:
    [_split_path] then [_assert_dir] on the parent. *)
Definition resolve_parent (now : Z) (path : string) (s : VFS)
    : VFS * res (Z * string * Inode) :=
  match _split_path now path s with
  | (s1, Raise e) => (s1, Raise e)
  | (s1, Ok (parent_id, name)) =>
      match _assert_dir s1 parent_id path with
      | Raise e => (s1, Raise e)
      | Ok parent => (s1, Ok (parent_id, name, parent))
      end
  end.

(** The [except KeyError] branch shared by [mkdir], [touch] and [write]:
    allocate [inode] and bind [name] to it in the parent. *)
Definition create (s : VFS) (parent_id : Z) (parent : Inode) (name : string)
    (inode : Inode) : VFS * res unit :=
  let '(s1, new_id) := alloc s inode in
  let '(parent1, r) := add_child parent name new_id in
  (store s1 parent_id parent1, r).

(** [mkdir(self, path)]. *)
Definition mkdir (now : Z) (path : string) (s : VFS) : VFS * res unit :=
  match resolve_parent now path s with
  | (s1, Raise e) => (s1, Raise e)
  | (s1, Ok (parent_id, name, parent)) =>
      match get_child parent name with
      | Ok _ => (s1, Raise (FileExists name))
      | Raise (KeyError _) =>
          create s1 parent_id parent name (new_Directory now (-1))
      | Raise e => (s1, Raise e)
      end
  end.

(** [touch(self, path)]. *)
Definition touch (now : Z) (path : string) (s : VFS) : VFS * res unit :=
  match resolve_parent now path s with
  | (s1, Raise e) => (s1, Raise e)
  | (s1, Ok (parent_id, name, parent)) =>
      match get_child parent name with
      | Ok _ => (s1, Raise (FileExists name))
      | Raise (KeyError _) =>
          create s1 parent_id parent name (new_File now (-1) [])
      | Raise e => (s1, Raise e)
      end
  end.

(** [write(self, path, data)] from its second statement on, [data]
    being [bytes] by then.  Both [parent.get_child(name)] and
    [self.table.get(inode_id)] are inside the [try]: a [KeyError] of
    either leads to the [except] branch. *)
Definition write_bytes (now : Z) (path : string) (data : list byte) (s : VFS)
    : VFS * res unit :=
  match resolve_parent now path s with
  | (s1, Raise e) => (s1, Raise e)
  | (s1, Ok (parent_id, name, parent)) =>
      let fresh := create s1 parent_id parent name (new_File now (-1) data) in
      match get_child parent name with
      | Raise (KeyError _) => fresh
      | Raise e => (s1, Raise e)
      | Ok inode_id =>
          match get (table s1) inode_id with
          | Raise (KeyError _) => fresh
          | Raise e => (s1, Raise e)
          | Ok (Directory _ _ _) => (s1, Raise (NotDirectory name))
          | Ok (File i m _) =>
              (store s1 inode_id
                 (File i (set_size m (Z.of_nat (length data))) data),
               Ok tt)
          end
      end
  end.

(** [write(self, path, data)]: a [str] is encoded first, before the path
    is looked at. *)
Definition write (now : Z) (path : string) (data : payload) (s : VFS)
    : VFS * res unit :=
  match to_bytes data with
  | Raise e => (s, Raise e)
  | Ok b => write_bytes now path b s
  end.

(** [read(self, path)]. *)
Definition read (now : Z) (path : string) (s : VFS) : VFS * res (list byte) :=
  match resolve_parent now path s with
  | (s1, Raise e) => (s1, Raise e)
  | (s1, Ok (parent_id, name, parent)) =>
      match get_child parent name with
      | Raise (KeyError _) => (s1, Raise (FileNotFound name))
      | Raise e => (s1, Raise e)
      | Ok inode_id =>
          match get (table s1) inode_id with
          | Raise e => (s1, Raise e)
          | Ok (Directory _ _ _) => (s1, Raise (NotDirectory name))
          | Ok (File _ _ content) => (s1, Ok content)
          end
      end
  end.

(** [ls(self, path)]. *)
Definition ls (now : Z) (path : string) (s : VFS)
    : VFS * res (list string) :=
  if String.eqb path "/" then
    (s, (dir_node <- _assert_dir s (root_id s) "/" ;; iter_names dir_node)%res)
  else
    match _split_path now path s with
    | (s1, Raise e) => (s1, Raise e)
    | (s1, Ok (parent_id, name)) =>
        (s1,
         (parent <- get (table s1) parent_id ;;
          child <- get_child parent name ;;
          dir_node <- _assert_dir s1 child path ;;
          iter_names dir_node)%res)
    end.

(** [rm(self, path)]. *)
Definition rm (now : Z) (path : string) (s : VFS) : VFS * res unit :=
  match resolve_parent now path s with
  | (s1, Raise e) => (s1, Raise e)
  | (s1, Ok (parent_id, name, parent)) =>
      match get_child parent name with
      | Raise (KeyError _) => (s1, Raise (FileNotFound name))
      | Raise e => (s1, Raise e)
      | Ok _ =>
          let '(parent1, r) := del_child parent name in
          (store s1 parent_id parent1, r)
      end
  end.

(** The six public operations as commands, and a session of them. *)
Inductive op : Type :=
| Mkdir (path : string)
| Touch (path : string)
| Write (path : string) (data : payload)
| Read (path : string)
| Ls (path : string)
| Rm (path : string).

(** What a command gave back. *)
Inductive value : Type :=
| VNone
| VBytes (b : list byte)
| VNames (l : list string).

Definition lift {A} (f : A -> value) (x : VFS * res A) : VFS * res value :=
  match x with
  | (s, Ok a) => (s, Ok (f a))
  | (s, Raise e) => (s, Raise e)
  end.

(** One command, run at clock reading [now]. *)
Definition run (now : Z) (o : op) (s : VFS) : VFS * res value :=
  match o with
  | Mkdir p => lift (fun _ => VNone) (mkdir now p s)
  | Touch p => lift (fun _ => VNone) (touch now p s)
  | Write p d => lift (fun _ => VNone) (write now p d s)
  | Read p => lift VBytes (read now p s)
  | Ls p => lift VNames (ls now p s)
  | Rm p => lift (fun _ => VNone) (rm now p s)
  end.

(** A session: commands with their clock readings, run one after the
    other whatever each one gives back. *)
Fixpoint run_all (l : list (Z * op)) (s : VFS) : VFS :=
  match l with
  | [] => s
  | (now, o) :: rest => run_all rest (fst (run now o s))
  end.

End vfs.


(** * Notions used to state the properties *)

(** ** The ordered index and the directory, operation by operation *)

Module index_ops.
Import node.

(** An operation on a child-name index, and what its caller observes:
    the value returned, the names yielded, or the exception raised. *)
Inductive iop : Type :=
| Add (name : string) (inode_id : Z)
| Get (name : string)
| Del (name : string)
| Names.

Inductive obs : Type :=
| ONone
| OVal (z : Z)
| ONames (l : list string)
| ORaise (e : exn).

Definition obs_unit (r : res unit) : obs :=
  match r with Ok _ => ONone | Raise e => ORaise e end.
Definition obs_val (r : res Z) : obs :=
  match r with Ok z => OVal z | Raise e => ORaise e end.
Definition obs_names (r : res (list string)) : obs :=
  match r with Ok l => ONames l | Raise e => ORaise e end.

(** The operation done by the methods of [Directory]. *)
Definition dir_step (d : Inode) (o : iop) : Inode * obs :=
  match o with
  | Add name i => let '(d', r) := add_child d name i in (d', obs_unit r)
  | Get name => (d, obs_val (get_child d name))
  | Del name => let '(d', r) := del_child d name in (d', obs_unit r)
  | Names => (d, obs_names (iter_names d))
  end.

Fixpoint dir_run (d : Inode) (l : list iop) : list obs :=
  match l with
  | [] => []
  | o :: rest => let '(d', x) := dir_step d o in x :: dir_run d' rest
  end.

(** The same operation done by the methods of [BTree]. *)
Definition bt_step (t : btree.BTree) (o : iop) : btree.BTree * obs :=
  match o with
  | Add name i => let '(t', r) := btree.insert t name i in (t', obs_unit r)
  | Get name => (t, obs_val (btree.get t name))
  | Del name => let '(t', r) := btree.delete t name in (t', obs_unit r)
  | Names => (t, ONames (btree.iter t))
  end.

Fixpoint bt_run (t : btree.BTree) (l : list iop) : list obs :=
  match l with
  | [] => []
  | o :: rest => let '(t', x) := bt_step t o in x :: bt_run t' rest
  end.

(** The number of names a directory holds. *)
Definition dir_size (d : Inode) : nat :=
  match d with
  | Directory _ _ c => length c
  | File _ _ _ => O
  end.

(** A sequence of operations that adds only names that are not bound at
    that moment, and never adds to an index that holds [order - 1] names,
    which is what makes the B-tree split. *)
Fixpoint split_free (order : Z) (d : Inode) (l : list iop) : Prop :=
  match l with
  | [] => True
  | o :: rest =>
      match o with
      | Add name _ =>
          (forall i, get_child d name <> Ok i)
          /\ Z.of_nat (dir_size d) <> order - 1
      | _ => True
      end
      /\ split_free order (fst (dir_step d o)) rest
  end.

(** The keys of a sequence are strictly increasing. *)
Fixpoint sorted (a : list string) : Prop :=
  match a with
  | [] => True
  | y :: a' => Forall (fun z => py.str_lt y z = true) a' /\ sorted a'
  end.

(** How many keys at the head of a sequence are below [x]. *)
Fixpoint rank (x : string) (a : list string) : nat :=
  match a with
  | [] => O
  | y :: a' => if py.str_lt y x then S (rank x a') else O
  end.

(** A directory and a B-tree that is a single leaf hold the same items
    in the same order. *)
Definition same_items (d : Inode) (t : btree.BTree) : Prop :=
  exists j m c,
    d = Directory j m c
    /\ sorted (map fst c)
    /\ btree._root t = btree.mkNode true (map fst c) (map snd c) [].

(** One name bound twice, then a listing. *)
Definition bound_twice : list iop := [Add "a" 1; Add "a" 2; Names].

(** Sixty-four fresh names, then a lookup of the thirty-third and a
    listing. *)
Definition sixty_four : list iop :=
  map (fun kv => Add (fst kv) (snd kv)) (numbered 64)
  ++ [Get (name2 32); Names].

End index_ops.

Module btree_facts.
Import btree.

(** The greatest height among the children of a node. *)
Definition kids_height (l : list _Node) : nat :=
  foldr (fun k h => Nat.max (height k) h) O l.

(** The default tree after the names f00 .. f62, and after f63 as well. *)
Definition full_leaf : BTree :=
  fst (insert_all (init default_order) (numbered 63)).
Definition after_split : BTree :=
  fst (insert_all (init default_order) (numbered 64)).

End btree_facts.

(** ** Invariants of the namespace *)

Module vfs_spec.
Import node inode_table vfs.

Abbreviation tbl s := (_table (table s)).
Abbreviation nxt s := (_next_id (table s)).

(** Resolution by lookups alone: the directory reached from [cur_id]
    along [segs] when every component is present. *)
Fixpoint lookup_walk (s : VFS) (segs : list string) (cur_id : Z)
    : option Z :=
  match segs with
  | [] => Some cur_id
  | seg :: rest =>
      match tbl s !! cur_id with
      | Some (Directory _ _ c) =>
          match rbtree.getitem seg c with
          | Ok child => lookup_walk s rest child
          | Raise _ => None
          end
      | _ => None
      end
  end.

(** Identities are handed out in increasing order, and a child is always
    allocated after the directory that holds its name. *)
Record wf (s : VFS) : Prop := mk_wf {
  wf_dom : forall i n, tbl s !! i = Some n -> i < nxt s;
  wf_child : forall i j m c name child,
    tbl s !! i = Some (Directory j m c) -> (name, child) ∈ c -> i < child
}.

(** Every inode is stored under its own [id]. *)
Definition ids_match (s : VFS) : Prop :=
  forall i n, tbl s !! i = Some n -> node.id n = i.

(** Every identity below the counter, that is every identity that
    [allocate] has returned so far, has its entry in the table. *)
Definition all_allocated (s : VFS) : Prop :=
  forall i, 0 <= i < nxt s -> is_Some (tbl s !! i).

(** The keys of the table are the identities handed out: they lie
    between 0 and the counter. *)
Definition keys_in_range (s : VFS) : Prop :=
  0 <= nxt s /\ forall i n, tbl s !! i = Some n -> 0 <= i < nxt s.

(** The inodes a fresh call can allocate. *)
Definition fresh_inode (inode : Inode) : Prop :=
  (exists now, inode = new_Directory now (-1))
  \/ (exists now data, inode = new_File now (-1) data).

(** The three mutations of the state that the operations are made of:
    a new inode bound to a name in a directory, a name removed from a
    directory, a file overwritten. *)
Inductive prim : VFS -> VFS -> Prop :=
| prim_create s i n name inode :
    tbl s !! i = Some n -> is_dir n = true -> fresh_inode inode ->
    prim s (fst (create s i n name inode))
| prim_del s i n name :
    tbl s !! i = Some n -> is_dir n = true ->
    prim s (store s i (fst (del_child n name)))
| prim_write s i j m c data :
    tbl s !! i = Some (File j m c) ->
    prim s (store s i (File j (set_size m (Z.of_nat (length data))) data)).

(** The tables of two states agree below an identity. *)
Definition agree_below (s s' : VFS) (b : Z) : Prop :=
  root_id s' = root_id s
  /\ forall i, i < b -> tbl s' !! i = tbl s !! i.

(** The path a command is about. *)
Definition path_of (o : op) : string :=
  match o with
  | Mkdir p | Touch p | Write p _ | Read p | Ls p | Rm p => p
  end.

(** The payload of the command can be encoded: always, but for a
    [write] of a [str] that holds a surrogate. *)
Definition encodes (o : op) : Prop :=
  match o with
  | Write _ d => exists b, to_bytes d = Ok b
  | _ => True
  end.

(** A [Meta] as [Meta()] makes it and [File.__init__] sizes it: the
    size given, the permissions ["rw"]; the two timestamps are whatever
    the clock said. *)
Definition new_meta (m : Meta) (sz : Z) : Prop :=
  size m = sz /\ perms m = "rw"%string.

(** A name without a slash that [PurePosixPath] keeps as one component. *)
Fixpoint no_slash (c : string) : bool :=
  match c with
  | EmptyString => true
  | String a c' => negb (Ascii.eqb a "/") && no_slash c'
  end.

(** A path component: a name that is not empty, not ["."] and holds no
    slash. *)
Definition component (c : string) : Prop :=
  kept c = true /\ no_slash c = true.

(** ["/".join(comps)], and the absolute path ["/" + "/".join(comps)]
    whose components after the root are [comps]. *)
Fixpoint join (comps : list string) : string :=
  match comps with
  | [] => EmptyString
  | [c] => c
  | c :: rest => (c ++ "/" ++ join rest)%string
  end.

Definition path_to (comps : list string) : string :=
  ("/" ++ join comps)%string.

(** No file stands in the way: wherever lookups alone lead from
    [cur] along a proper prefix of [segs], there is a directory. *)
Definition through (s : VFS) (segs : list string) (cur : Z) : Prop :=
  forall (n : nat) (p : Z),
    (n < length segs)%nat ->
    lookup_walk s (take n segs) cur = Some p ->
    exists j m c, tbl s !! p = Some (Directory j m c).

(** The namespace of the first scenario: [/docs/hello.txt]. *)
Definition fresh : VFS := init 0.
Definition with_file : VFS :=
  run_all [(1, Mkdir "/docs"); (2, Touch "/docs/hello.txt")] fresh.

End vfs_spec.

(** ** Further invariants of the namespace *)

Module vfs_more.
Import node inode_table vfs vfs_spec.

(** A state that a session of commands reaches from [VFS()]. *)
Definition reachable (s : VFS) : Prop :=
  exists now l, s = run_all l (init now).


(** The root is a directory of the table, and so is every identity that a
    directory binds a name to. *)
Definition closed (s : VFS) : Prop :=
  (exists j m c, tbl s !! root_id s = Some (Directory j m c))
  /\ forall i j m c name child,
       tbl s !! i = Some (Directory j m c) -> (name, child) ∈ c ->
       is_Some (tbl s !! child).

(** The size recorded for an inode: 0 for a directory, the length of the
    content for a file. *)
Definition size_ok (n : Inode) : Prop :=
  match n with
  | Directory _ m _ => size m = 0
  | File _ m c => size m = Z.of_nat (length c)
  end.

Definition sizes_ok (s : VFS) : Prop :=
  forall i n, tbl s !! i = Some n -> size_ok n /\ perms (meta n) = "rw"%string.

(** What stays of an inode whatever happens to it: its class, its
    identity, its two timestamps and its permissions. *)
Definition same_inode (n n' : Inode) : Prop :=
  is_dir n' = is_dir n
  /\ node.id n' = node.id n
  /\ created (meta n') = created (meta n)
  /\ modified (meta n') = modified (meta n)
  /\ perms (meta n') = perms (meta n).

Definition inodes_kept (s s' : VFS) : Prop :=
  forall i n, tbl s !! i = Some n ->
    exists n', tbl s' !! i = Some n' /\ same_inode n n'.

(** The exceptions that each command can raise. *)
Definition may_raise (o : op) (e : exn) : Prop :=
  match o with
  | Mkdir _ | Touch _ =>
      e = FSException "path must start with '/'"
      \/ (exists ctx, e = NotDirectory ctx)
      \/ (exists name, e = FileExists name)
  | Write _ d =>
      e = FSException "path must start with '/'"
      \/ (exists ctx, e = NotDirectory ctx)
      \/ (e = UnicodeEncodeError
          /\ exists str, d = Str str /\ py.encode str = Raise e)
  | Read _ | Rm _ =>
      e = FSException "path must start with '/'"
      \/ (exists ctx, e = NotDirectory ctx)
      \/ (exists name, e = FileNotFound name)
  | Ls _ =>
      e = FSException "path must start with '/'"
      \/ (exists ctx, e = NotDirectory ctx)
      \/ (exists name, e = KeyError (KStr name))
      \/ e = AttributeError "get_child"
  end.

(** The path is absolute, all its components but the last are found by
    lookups alone, and they lead to the directory stored under [pid]. *)
Definition parent_at (s : VFS) (path : string) (pid : Z) (parent : Inode)
    : Prop :=
  is_absolute path = true
  /\ lookup_walk s (but_last (parts_after_root path)) (root_id s) = Some pid
  /\ tbl s !! pid = Some parent
  /\ is_dir parent = true.

(** The last component of a path. *)
Definition basename (path : string) : string := final (parts_after_root path).


(** A command that makes a name: [mkdir], [touch] or [write]. *)
Definition makes_name (o : op) : Prop :=
  match o with Mkdir _ | Touch _ | Write _ _ => True | _ => False end.

(** A path that names the parent directory of another path. *)
Definition parent_path (q path : string) : Prop :=
  is_absolute q = true
  /\ parts_after_root q = but_last (parts_after_root path)
  /\ (q = "/"%string \/ parts_after_root q <> []).

(** A command that is not a listing. *)
Definition not_ls (o : op) : Prop :=
  match o with Ls _ => False | _ => True end.

(** *** Many files in one directory *)

(** The paths ["/" + d] and ["/" + d + "/" + name]. *)
Definition dir_path (d : string) : string := ("/" ++ d)%string.
Definition file_in (d name : string) : string :=
  ("/" ++ d ++ "/" ++ name)%string.

(** The loop [for name in names: vfs.touch("/" + d + "/" + name)], each
    call at its own clock reading; it stops at the first call that
    raises. *)
Fixpoint touch_all (d : string) (l : list (Z * string)) (s : VFS)
    : VFS * res unit :=
  match l with
  | [] => (s, Ok tt)
  | (now, name) :: rest =>
      match touch now (file_in d name) s with
      | (s1, Ok _) => touch_all d rest s1
      | (s1, Raise e) => (s1, Raise e)
      end
  end.

(** The root binds [d] to the directory 1, which binds the names [done]
    to empty files; nothing else was allocated. *)
Definition holds_files (s : VFS) (d : string) (done : list string) : Prop :=
  wf s /\ root_id s = 0
  /\ (exists m0, tbl s !! 0 = Some (Directory 0 m0 [(d, 1)]))
  /\ exists m1 c,
       tbl s !! 1 = Some (Directory 1 m1 c)
       /\ index_ops.sorted (map fst c)
       /\ map fst c ≡ₚ done
       /\ (forall n x, (n, x) ∈ c ->
             2 <= x /\ exists fm, tbl s !! x = Some (File x fm []))
       /\ nxt s = 2 + Z.of_nat (length done).

End vfs_more.

(** ** The inode table on its own *)

Module table_more.
Import node inode_table.

(** [allocate] called on each inode of a list in turn: the table at the
    end and the identities returned. *)
Fixpoint allocate_all (t : InodeTable) (l : list Inode)
    : InodeTable * list Z :=
  match l with
  | [] => (t, [])
  | inode :: rest =>
      let '(t1, i) := allocate t inode in
      let '(t2, ids) := allocate_all t1 rest in
      (t2, i :: ids)
  end.

End table_more.

(** ** The inode table over object references

    Python hands [allocate] a reference: [inode.id = ...] mutates the
    caller's object, and the dictionary holds that same object.  Here the
    objects live in a store and the table maps identities to references,
    so that one object allocated twice is seen as one object. *)

Module inode_refs.
Import node.

(** A reference to an inode object, and what every reference denotes. *)
Definition ref : Type := nat.
Definition objects : Type := ref -> Inode.

(** The store after the object behind [r] was mutated into [n]. *)
Definition update (h : objects) (r : ref) (n : Inode) : objects :=
  fun r' => if Nat.eqb r' r then n else h r'.

Record InodeTable : Type := mkInodeTable {
  _next_id : Z;
  _table : gmap Z ref
}.

(** [InodeTable()]. *)
Definition init : InodeTable := {| _next_id := 0; _table := ∅ |}.

(** [allocate(self, inode)]: the objects and the table afterwards, and
    the identity returned, which is read back from the object. *)
Definition allocate (h : objects) (t : InodeTable) (inode : ref)
    : objects * InodeTable * Z :=
  let h1 := update h inode (set_id (_next_id t) (h inode)) in
  let t1 := {| _next_id := _next_id t;
               _table := <[_next_id t := inode]> (_table t) |} in
  let t2 := {| _next_id := _next_id t1 + 1; _table := _table t1 |} in
  (h1, t2, id (h1 inode)).

(** [get(self, inode_id)]: the object the dictionary holds, as it is
    now. *)
Definition get (h : objects) (t : InodeTable) (inode_id : Z) : res Inode :=
  match _table t !! inode_id with
  | Some r => Ok (h r)
  | None => Raise (KeyError (KInt inode_id))
  end.

(** [allocate] called on each reference of a list in turn. *)
Fixpoint allocate_all (h : objects) (t : InodeTable) (l : list ref)
    : objects * InodeTable * list Z :=
  match l with
  | [] => (h, t, [])
  | inode :: rest =>
      let '(h1, t1, i) := allocate h t inode in
      let '(h2, t2, ids) := allocate_all h1 t1 rest in
      (h2, t2, i :: ids)
  end.

(** The position [k] is the last one at which [l] holds [r]. *)
Definition last_at (l : list ref) (k : nat) (r : ref) : Prop :=
  l !! k = Some r /\ forall k', (k < k')%nat -> l !! k' <> Some r.

End inode_refs.

(** ** What a B-tree holds, and the shape its operations keep *)

Module btree_more.
Import btree index_ops.

(** The items of the leaves, from left to right. *)
Fixpoint items (n : _Node) : list (string * Z) :=
  match n with
  | mkNode lf ks vs kds =>
      if lf then zip ks vs else List.concat (List.map items kds)
  end.

(** The keys of the internal nodes: the pivots promoted by the splits. *)
Fixpoint pivots (n : _Node) : list string :=
  match n with
  | mkNode lf ks vs kds =>
      if lf then [] else ks ++ List.concat (List.map pivots kds)
  end.

(** The keys the tree holds. *)
Definition held (n : _Node) : list string := map fst (items n).

(** A key is above an exclusive lower bound, at most an inclusive upper
    bound, strictly under an upper bound. *)
Definition above (lo : option string) (k : string) : Prop :=
  match lo with
  | None => True
  | Some l => py.str_lt l k = true
  end.
Definition upto (hi : option string) (k : string) : Prop :=
  match hi with
  | None => True
  | Some h => py.str_lt h k = false
  end.
Definition under (hi : option string) (k : string) : Prop :=
  match hi with
  | None => True
  | Some h => py.str_lt k h = true
  end.

Definition within (lo hi : option string) (k : string) : Prop :=
  above lo k /\ upto hi k.

(** The shape of a subtree whose keys lie above [lo] and at most at
    [hi].  A leaf holds increasing keys, one value for each.  In an
    internal node the child at position [i] holds the keys above
    [keys[i-1]] and at most at [keys[i]], and [keys[i]] is one of them:
    the pivot stayed in the left half.  An internal node has one child
    more than keys, or, when it is the left half of a split, as many
    children as keys, and then its last key is its upper bound. *)
Inductive ok : option string -> option string -> _Node -> Prop :=
| ok_leaf lo hi c :
    sorted (map fst c) ->
    Forall (within lo hi) (map fst c) ->
    ok lo hi (mkNode true (map fst c) (map snd c) [])
| ok_node lo hi ks vs kds :
    ok_kids lo hi ks kds ->
    ok lo hi (mkNode false ks vs kds)
with ok_kids : option string -> option string -> list string
               -> list _Node -> Prop :=
| ok_last lo hi kid :
    ok lo hi kid ->
    ok_kids lo hi [] [kid]
| ok_closed lo k kid :
    above lo k ->
    ok lo (Some k) kid ->
    k ∈ held kid ->
    ok_kids lo (Some k) [k] [kid]
| ok_cons lo hi k ks kid kds :
    above lo k -> upto hi k ->
    ok lo (Some k) kid ->
    k ∈ held kid ->
    ok_kids (Some k) hi ks kds ->
    ok_kids lo hi (k :: ks) (kid :: kds).

Scheme ok_mut := Induction for ok Sort Prop
  with ok_kids_mut := Induction for ok_kids Sort Prop.

(** A sequence of keys that never decreases. *)
Fixpoint ascending (a : list string) : Prop :=
  match a with
  | [] => True
  | y :: a' => Forall (fun z => py.str_lt z y = false) a' /\ ascending a'
  end.

(** The two halves that [_split_child] makes of a node. *)
Definition left_half (order : Z) (y : _Node) : _Node :=
  let mid := order / 2 in
  if leaf y
  then mkNode (leaf y) (py.slice_to (keys y) (mid + 1))
              (py.slice_to (vals y) (mid + 1)) (kids y)
  else mkNode (leaf y) (py.slice_to (keys y) (mid + 1)) (vals y)
              (py.slice_to (kids y) (mid + 1)).
Definition right_half (order : Z) (y : _Node) : _Node :=
  let mid := order / 2 in
  if leaf y
  then mkNode (leaf y) (py.slice_from (keys y) (mid + 1))
              (py.slice_from (vals y) (mid + 1)) []
  else mkNode (leaf y) (py.slice_from (keys y) (mid + 1)) []
              (py.slice_from (kids y) (mid + 1)).

(** The keys yielded for the children [kds] between the keys [ks]. *)
Fixpoint weave (ks : list string) (kds : list (list string)) : list string :=
  match kds with
  | [] => []
  | it :: kds' =>
      it ++ match ks with
            | k :: ks' => k :: weave ks' kds'
            | [] => weave [] kds'
            end
  end.

(** What one insertion adds to a subtree: one item, and the pivots of the
    splits it made. *)
Definition grows (key : string) (val : Z) (n n' : _Node) : Prop :=
  items n' ≡ₚ (key, val) :: items n
  /\ exists new, pivots n' ≡ₚ new ++ pivots n.

(** The shape of a whole tree: the root spans all keys; while it is a
    leaf it holds at most [order - 1] items; once it is an internal node
    it has a pivot and the tree holds at least [order] items. *)
Definition shaped (t : BTree) : Prop :=
  ok None None (_root t)
  /\ (leaf (_root t) = true ->
      Z.of_nat (length (items (_root t))) <= _order t - 1)
  /\ (leaf (_root t) = false ->
      pivots (_root t) <> []
      /\ _order t <= Z.of_nat (length (items (_root t)))).

End btree_more.

(** * Properties *)

(** ** The ordered index on sixty-four names *)

Module btree_props.
Import btree btree_facts index_ops.

Lemma numbered_distinct : NoDup (map fst (numbered 64)).
Proof. apply (bool_decide_unpack _). vm_compute. reflexivity. Qed.

Lemma full_leaf_shape :
  leaf (_root full_leaf) = true
  /\ keys (_root full_leaf) = map name2 (seq 0 63).
Proof. split; vm_compute; reflexivity. Qed.

Lemma after_split_shape :
  snd (insert_all (init default_order) (numbered 64)) = Ok tt
  /\ leaf (_root after_split) = false
  /\ keys (_root after_split) = [name2 32]
  /\ map keys (kids (_root after_split))
     = [map name2 (seq 0 33); map name2 (seq 33 31)].
Proof. repeat split; vm_compute; reflexivity. Qed.

(** C2.  There is a sequence of insertions of distinct keys into the
    ordered index (of the default order 64) after which a key that was
    inserted and never deleted cannot be found: the sixty-four names
    f00 .. f63, in this order.  After the first sixty-three the root is
    a leaf and [get "f32"] returns 32; the sixty-fourth insertion splits
    the root, "f32" is the pivot promoted to the new root (and is still
    in the left child), and [get "f32"] raises [KeyError]. *)
Theorem pivot_unreachable_after_split :
  exists (kvs : list (string * Z)) (k : string) (v : Z),
    NoDup (map fst kvs)
    /\ (k, v) ∈ kvs
    /\ (let before := fst (insert_all (init default_order) (removelast kvs)) in
        leaf (_root before) = true /\ get before k = Ok v)
    /\ (let after := insert_all (init default_order) kvs in
        snd after = Ok tt
        /\ leaf (_root (fst after)) = false
        /\ keys (_root (fst after)) = [k]
        /\ (exists left, kids (_root (fst after)) !! 0%nat = Some left
                         /\ k ∈ keys left)
        /\ get (fst after) k = Raise (KeyError (KStr k))).
Proof.
  exists (numbered 64), (name2 32), 32.
  split; [exact numbered_distinct|].
  split; [apply (bool_decide_unpack _); vm_compute; reflexivity|].
  split; [split; vm_compute; reflexivity|].
  cbv zeta. repeat split; try (vm_compute; reflexivity).
  eexists. split; [vm_compute; reflexivity|].
  apply (bool_decide_unpack _). vm_compute. reflexivity.
Qed.

(** C3, at the failing input.  After the sixty-four distinct names
    f00 .. f63 were inserted into the tree of the default order, every
    call having returned, the iteration yields sixty-five keys: the
    pivot "f32" comes twice, once from the left leaf that kept it and
    once from the root.  The keys yielded are not the keys inserted and
    they are not without duplicates. *)
Theorem iter_yields_pivot_twice :
  snd (insert_all (init default_order) (numbered 64)) = Ok tt
  /\ iter after_split
     = map name2 (seq 0 33) ++ name2 32 :: map name2 (seq 33 31)
  /\ iter after_split <> map fst (numbered 64)
  /\ ~ NoDup (iter after_split).
Proof.
  split; [vm_compute; reflexivity|].
  split; [vm_compute; reflexivity|].
  split; apply (bool_decide_unpack _); vm_compute; reflexivity.
Qed.

(** C1, refuted.  The methods of [Directory] and those of [BTree] do not
    give the same results on every sequence of operations: after
    sixty-four fresh names, [get_child "f32"] returns 32 where
    [BTree.get] raises [KeyError], and [iter_names] yields sixty-four
    names where [BTree.iter] yields sixty-five. *)
Lemma directory_is_not_the_btree :
  ~ (forall l : list iop,
       dir_run (node.new_Directory 0 (-1)) l
       = bt_run (init default_order) l).
Proof.
  intros H. specialize (H sixty_four).
  assert (E : last (dir_run (node.new_Directory 0 (-1)) sixty_four)
              = last (bt_run (init default_order) sixty_four))
    by (rewrite H; reflexivity).
  vm_compute in E. discriminate E.
Qed.

(** A name bound twice is one name for [Directory] and two keys for
    [BTree]. *)
Lemma rebinding_differs :
  dir_run (node.new_Directory 0 (-1)) bound_twice
  <> bt_run (init default_order) bound_twice.
Proof. vm_compute. discriminate. Qed.

End btree_props.

(** ** The recursion of [_insert_non_full] is bounded by the height *)

Module btree_total.
Import btree btree_facts.

Lemma height_eq n : height n = S (kids_height (kids n)).
Proof.
  destruct n as [lf ks vs kds]. reflexivity.
Qed.

Lemma kids_height_cons x l :
  kids_height (x :: l) = Nat.max (height x) (kids_height l).
Proof. reflexivity. Qed.

Lemma kids_height_lookup l : forall i k,
  l !! i = Some k -> (height k <= kids_height l)%nat.
Proof.
  induction l as [|x l IH]; intros [|i] k; try discriminate;
    rewrite kids_height_cons; cbn [lookup list_lookup].
  - intros [= ->]. lia.
  - intros H. apply IH in H. lia.
Qed.

Lemma kids_height_take l : forall n,
  (kids_height (take n l) <= kids_height l)%nat.
Proof.
  induction l as [|x l IH]; intros [|n]; cbn [take];
    rewrite ?kids_height_cons; try (cbn; lia).
  specialize (IH n). lia.
Qed.

Lemma kids_height_drop l : forall n,
  (kids_height (drop n l) <= kids_height l)%nat.
Proof.
  induction l as [|x l IH]; intros [|n]; cbn [drop];
    rewrite ?kids_height_cons; try (cbn; lia).
  specialize (IH n). lia.
Qed.

Lemma kids_height_app l1 l2 :
  kids_height (l1 ++ l2) = Nat.max (kids_height l1) (kids_height l2).
Proof.
  induction l1 as [|x l1 IH]; [reflexivity|].
  cbn [app]. rewrite !kids_height_cons, IH. lia.
Qed.

Lemma kids_height_set l y : forall i,
  (kids_height (<[i := y]> l) <= Nat.max (kids_height l) (height y))%nat.
Proof.
  induction l as [|x l IH]; intros [|i]; simpl;
    rewrite ?kids_height_cons; try (cbn; lia).
  specialize (IH i). lia.
Qed.

Lemma kids_height_insert l z i :
  (kids_height (py.insert i z l) <= Nat.max (kids_height l) (height z))%nat.
Proof.
  unfold py.insert. rewrite kids_height_app.
  pose proof (kids_height_take l i). pose proof (kids_height_drop l i).
  rewrite kids_height_cons. lia.
Qed.

(** A split does not make the parent higher. *)
Lemma split_child_height order parent i parent' :
  _split_child order parent i = Ok parent' ->
  (height parent' <= height parent)%nat.
Proof.
  unfold _split_child, py.getitem.
  destruct (kids parent !! i) as [y|] eqn:L; [|discriminate].
  cbn [res_bind].
  destruct (py.getitem_int (keys y) (order / 2)) as [pivot|]; [|discriminate].
  cbn [res_bind]. intros [= <-].
  rewrite !height_eq. cbn [kids].
  pose proof (kids_height_lookup _ _ _ L) as Hy. rewrite height_eq in Hy.
  apply le_n_S.
  etransitivity; [apply kids_height_insert|].
  apply Nat.max_lub.
  - etransitivity; [apply kids_height_set|].
    apply Nat.max_lub; [lia|].
    rewrite height_eq. destruct (leaf y); cbn [kids]; [lia|].
    pose proof (kids_height_take (kids y)
                  (py.clip (length (kids y)) (order / 2 + 1))).
    unfold py.slice_to. lia.
  - rewrite height_eq. destruct (leaf y); cbn [kids]; [simpl; lia|].
    pose proof (kids_height_drop (kids y)
                  (py.clip (length (kids y)) (order / 2 + 1))).
    unfold py.slice_from. lia.
Qed.

Lemma list_getitem_raise {A} (l : list A) i e :
  py.getitem l i = Raise e -> e = IndexError.
Proof. unfold py.getitem. destruct (l !! i); congruence. Qed.

Lemma getitem_int_raise {A} (l : list A) i e :
  py.getitem_int l i = Raise e -> e = IndexError.
Proof.
  unfold py.getitem_int.
  destruct (i <? 0); [destruct (_ <? 0); [congruence|]|];
    apply list_getitem_raise.
Qed.

(** A split raises nothing but [IndexError]. *)
Lemma split_child_raise order parent i e :
  _split_child order parent i = Raise e -> e = IndexError.
Proof.
  unfold _split_child.
  destruct (py.getitem (kids parent) i) as [y|e'] eqn:G; cbn [res_bind].
  - destruct (py.getitem_int (keys y) (order / 2)) as [p|e'] eqn:G';
      cbn [res_bind]; [discriminate|].
    intros [= <-]. eapply getitem_int_raise; eauto.
  - intros [= <-]. eapply list_getitem_raise; eauto.
Qed.

(** With as many turns as the node is high, [_insert_non_full] never
    runs out of turns. *)
Lemma insert_non_full_total order key val : forall fuel node,
  (height node <= fuel)%nat ->
  snd (_insert_non_full fuel order node key val) <> Raise FuelExhausted.
Proof.
  induction fuel as [|fuel IH]; intros node Hh.
  - rewrite height_eq in Hh. lia.
  - cbn [_insert_non_full]. destruct (leaf node).
    + destruct (py.index _ _); discriminate.
    + set (i := scan_down key (keys node) (length (keys node))).
      destruct (kids node !! i) as [kid|] eqn:L; [|discriminate].
      pose proof (kids_height_lookup _ _ _ L) as Hk.
      rewrite height_eq in Hh.
      destruct (Z.of_nat (length (keys kid)) =? order - 1).
      * destruct (_split_child order node i) as [node1|e] eqn:Sp;
          [|apply split_child_raise in Sp; subst e; discriminate].
        apply split_child_height in Sp. rewrite !height_eq in Sp.
        destruct (keys node1 !! i) as [k|]; [|discriminate].
        destruct (kids node1 !! (if py.str_lt k key then S i else i))
          as [kid1|] eqn:L1; [|discriminate].
        pose proof (kids_height_lookup _ _ _ L1) as Hk1.
        specialize (IH kid1).
        destruct (_insert_non_full fuel order kid1 key val) as [kid2 r].
        cbn [snd] in *. apply IH. lia.
      * specialize (IH kid).
        destruct (_insert_non_full fuel order kid key val) as [kid2 r].
        cbn [snd] in *. apply IH. lia.
Qed.

(** [insert] always returns or raises: the turns it grants are enough. *)
Lemma insert_total t key val : snd (insert t key val) <> Raise FuelExhausted.
Proof.
  unfold insert.
  destruct (if Z.of_nat (length (keys (_root t))) =? _order t - 1
            then _split_child (_order t) (mkNode false [] [] [_root t]) 0
            else Ok (_root t)) as [root1|e] eqn:E.
  - pose proof (insert_non_full_total (_order t) key val
                  (S (height root1)) root1 (Nat.le_succ_diag_r _)) as H.
    destruct (_insert_non_full (S (height root1)) (_order t) root1 key val).
    exact H.
  - cbn [snd]. destruct (_ =? _); [|discriminate].
    apply split_child_raise in E. subst e. discriminate.
Qed.

End btree_total.

(** ** The order of strings and the binary search *)

Module order_props.

Lemma compare_lt_trans : forall a b c : string,
  String.compare a b = Lt -> String.compare b c = Lt ->
  String.compare a c = Lt.
Proof.
  induction a as [|x a IH]; intros [|y b] [|z c]; simpl;
    try discriminate; try reflexivity.
  destruct (Ascii.compare x y) eqn:Exy; try discriminate;
    destruct (Ascii.compare y z) eqn:Eyz; try discriminate.
  - apply Ascii.compare_eq_iff in Exy, Eyz. subst y z.
    assert (E : Ascii.compare x x = Eq) by apply N.compare_refl.
    rewrite E. apply IH.
  - apply Ascii.compare_eq_iff in Exy. subst y. rewrite Eyz. reflexivity.
  - apply Ascii.compare_eq_iff in Eyz. subst z. rewrite Exy. reflexivity.
  - intros _ _. unfold Ascii.compare in *.
    apply N.compare_lt_iff in Exy. apply N.compare_lt_iff in Eyz.
    assert (E : (N_of_ascii x ?= N_of_ascii z)%N = Lt)
      by (apply N.compare_lt_iff; eapply N.lt_trans; eassumption).
    rewrite E. reflexivity.
Qed.

Lemma compare_refl a : String.compare a a = Eq.
Proof.
  induction a as [|x a IH]; simpl; [reflexivity|].
  assert (E : Ascii.compare x x = Eq) by apply N.compare_refl.
  rewrite E. exact IH.
Qed.

Lemma lt_irrefl a : py.str_lt a a = false.
Proof. unfold py.str_lt, String.ltb. rewrite compare_refl. reflexivity. Qed.

Lemma lt_trans a b c :
  py.str_lt a b = true -> py.str_lt b c = true -> py.str_lt a c = true.
Proof.
  unfold py.str_lt, String.ltb.
  destruct (String.compare a b) eqn:E1; try discriminate.
  destruct (String.compare b c) eqn:E2; try discriminate.
  rewrite (compare_lt_trans _ _ _ E1 E2). reflexivity.
Qed.

Lemma lt_asym a b : py.str_lt a b = true -> py.str_lt b a = false.
Proof.
  intros H. destruct (py.str_lt b a) eqn:E; [|reflexivity].
  pose proof (lt_trans _ _ _ H E) as C. rewrite lt_irrefl in C.
  discriminate.
Qed.

Lemma lt_total a b :
  py.str_lt a b = false -> py.str_lt b a = false -> a = b.
Proof.
  unfold py.str_lt, String.ltb. rewrite (String.compare_antisym b a).
  destruct (String.compare a b) eqn:E; simpl; try discriminate.
  intros _ _. apply String.compare_eq_iff. exact E.
Qed.

Lemma lt_not_eq a b : py.str_lt a b = true -> py.str_eq a b = false.
Proof.
  intros H. unfold py.str_eq. destruct (String.eqb_spec a b) as [->|];
    [|reflexivity].
  rewrite lt_irrefl in H. discriminate.
Qed.

Lemma eq_sym a b : py.str_eq a b = py.str_eq b a.
Proof. apply String.eqb_sym. Qed.

End order_props.

Module bisect_props.
Import index_ops order_props.

Lemma sorted_tail y a : sorted (y :: a) -> sorted a.
Proof. simpl. tauto. Qed.

(** In an increasing sequence the keys below [x] are the first
    [rank x a] ones. *)
Lemma rank_threshold x a : forall i y,
  sorted a -> a !! i = Some y ->
  (py.str_lt y x = true <-> (i < rank x a)%nat).
Proof.
  induction a as [|z a IH]; intros i y Hs L; [discriminate|].
  destruct Hs as [F Hs]. simpl.
  destruct (py.str_lt z x) eqn:E.
  - destruct i as [|i]; simpl in L.
    + injection L as <-. split; [lia | auto].
    + rewrite (IH i y Hs L). lia.
  - split; [|lia]. intros Hy. exfalso.
    destruct i as [|i]; simpl in L.
    + injection L as <-. congruence.
    + rewrite Forall_forall in F.
      assert (Hz : py.str_lt z y = true).
      { apply F. eapply list_elem_of_lookup_2. exact L. }
      rewrite (lt_trans _ _ _ Hz Hy) in E. discriminate.
Qed.

Lemma rank_le_length x a : (rank x a <= length a)%nat.
Proof.
  induction a as [|z a IH]; simpl; [lia|].
  destruct (py.str_lt z x); lia.
Qed.

Lemma half_between lo hi :
  (lo < hi)%nat -> (lo <= (lo + hi) / 2 < hi)%nat.
Proof.
  intros H. pose proof (Nat.div_mod_eq (lo + hi) 2) as E.
  pose proof (Nat.mod_upper_bound (lo + hi) 2). lia.
Qed.

(** The binary search returns the rank, whatever interval around the
    rank it is started on. *)
Lemma bisect_loop_rank x a : forall fuel lo hi,
  sorted a ->
  (lo <= rank x a <= hi)%nat -> (hi <= length a)%nat ->
  (hi - lo <= fuel)%nat ->
  py.bisect_loop fuel a x lo hi = rank x a.
Proof.
  induction fuel as [|fuel IH]; intros lo hi Hs R Hlen Hf;
    cbn [py.bisect_loop]; [lia|].
  destruct (Nat.ltb_spec lo hi) as [Hlt|Hge]; [|lia].
  pose proof (half_between lo hi Hlt) as Hmid.
  set (mid := ((lo + hi) / 2)%nat) in *.
  destruct (a !! mid) as [y|] eqn:L.
  2:{ apply lookup_ge_None in L. lia. }
  pose proof (rank_threshold x a mid y Hs L) as T.
  destruct (py.str_lt y x) eqn:E.
  - assert (mid < rank x a)%nat by (apply T; reflexivity).
    apply IH; try assumption; lia.
  - assert (~ (mid < rank x a)%nat) by (intros C; apply T in C; discriminate).
    apply IH; try assumption; lia.
Qed.

Lemma bisect_left_rank x a : sorted a -> py.bisect_left a x = rank x a.
Proof.
  intros Hs. unfold py.bisect_left. apply bisect_loop_rank; try assumption;
    try lia.
  pose proof (rank_le_length x a). lia.
Qed.

End bisect_props.

(** ** The red-black tree as a sequence of items *)

Module rbtree_props.
Import rbtree.

Lemma str_eq_iff a b : py.str_eq a b = true <-> a = b.
Proof. apply String.eqb_eq. Qed.

Lemma str_eq_refl a : py.str_eq a a = true.
Proof. apply String.eqb_refl. Qed.

Lemma getitem_raise k t e : getitem k t = Raise e -> e = KeyError (KStr k).
Proof.
  induction t as [|[k' v'] t IH]; simpl.
  - congruence.
  - destruct (py.str_eq k k'); [discriminate | exact IH].
Qed.

Lemma getitem_elem k t c : getitem k t = Ok c -> (k, c) ∈ t.
Proof.
  induction t as [|[k' v'] t IH]; simpl; [discriminate|].
  destruct (py.str_eq k k') eqn:E.
  - apply str_eq_iff in E. subst k'. intros [= ->]. left.
  - intros H. right. auto.
Qed.

Lemma elem_setitem k v t x : x ∈ setitem k v t -> x = (k, v) \/ x ∈ t.
Proof.
  induction t as [|[k' v'] t IH]; simpl.
  - intros H. apply list_elem_of_singleton in H. auto.
  - destruct (py.str_lt k k').
    + intros H. apply elem_of_cons in H. tauto.
    + destruct (py.str_eq k k').
      * intros H. apply elem_of_cons in H. destruct H; [auto|].
        right. right. assumption.
      * intros H. apply elem_of_cons in H. destruct H as [->|H].
        -- right. left.
        -- destruct (IH H); [auto|]. right. right. assumption.
Qed.

Lemma elem_remove k t x : x ∈ remove k t -> x ∈ t.
Proof.
  induction t as [|[k' v'] t IH]; simpl; [auto|].
  destruct (py.str_eq k k').
  - intros H. right. assumption.
  - intros H. apply elem_of_cons in H. destruct H as [->|H]; [left|].
    right. auto.
Qed.

Lemma getitem_setitem k v t : getitem k (setitem k v t) = Ok v.
Proof.
  induction t as [|[k' v'] t IH]; simpl.
  - rewrite str_eq_refl. reflexivity.
  - destruct (py.str_lt k k'); simpl.
    + rewrite str_eq_refl. reflexivity.
    + destruct (py.str_eq k k') eqn:E; simpl.
      * rewrite str_eq_refl. reflexivity.
      * rewrite E. exact IH.
Qed.

Lemma getitem_setitem_ne k k' v t :
  k <> k' -> getitem k' (setitem k v t) = getitem k' t.
Proof.
  intros Hne.
  assert (Hf : py.str_eq k' k = false).
  { destruct (py.str_eq k' k) eqn:E; [|reflexivity].
    apply str_eq_iff in E. congruence. }
  induction t as [|[k0 v0] t IH]; simpl.
  - rewrite Hf. reflexivity.
  - destruct (py.str_lt k k0); simpl.
    + rewrite Hf. reflexivity.
    + destruct (py.str_eq k k0) eqn:E; simpl.
      * apply str_eq_iff in E. subst k0. rewrite Hf. reflexivity.
      * destruct (py.str_eq k' k0); [reflexivity | exact IH].
Qed.

Lemma getitem_remove_ne k k' t :
  k <> k' -> getitem k' (remove k t) = getitem k' t.
Proof.
  intros Hne.
  induction t as [|[k0 v0] t IH]; simpl; [reflexivity|].
  destruct (py.str_eq k k0) eqn:E; simpl.
  - apply str_eq_iff in E. subst k0.
    destruct (py.str_eq k' k) eqn:E'; [|reflexivity].
    apply str_eq_iff in E'. congruence.
  - destruct (py.str_eq k' k0); [reflexivity | exact IH].
Qed.

End rbtree_props.

(** ** The state of the namespace under its three mutations *)

Module vfs_props.
Import node inode_table vfs vfs_spec.

Lemma tbl_store s i n j :
  tbl (store s i n) !! j = if decide (i = j) then Some n else tbl s !! j.
Proof. simpl. apply lookup_insert. Qed.

Lemma nxt_store s i n : nxt (store s i n) = nxt s.
Proof. reflexivity. Qed.

Lemma root_store s i n : root_id (store s i n) = root_id s.
Proof. reflexivity. Qed.

Lemma alloc_eq s inode :
  alloc s inode
  = ({| table := {| _next_id := nxt s + 1;
                    _table := <[nxt s := set_id (nxt s) inode]> (tbl s) |};
        root_id := root_id s |}, nxt s).
Proof. unfold alloc, allocate. simpl. destruct inode; reflexivity. Qed.

Lemma create_dir_eq s i j m c name inode :
  create s i (Directory j m c) name inode
  = (store (fst (alloc s inode)) i
       (Directory j m (rbtree.setitem name (nxt s) c)), Ok tt).
Proof. unfold create. rewrite alloc_eq. reflexivity. Qed.

Lemma create_dir_ok s i j m c name inode :
  create s i (Directory j m c) name inode
  = (fst (create s i (Directory j m c) name inode), Ok tt).
Proof. rewrite create_dir_eq. reflexivity. Qed.

(** What a lookup finds after [create]. *)
Lemma tbl_create s i j m c name inode k :
  tbl (fst (create s i (Directory j m c) name inode)) !! k
  = if decide (i = k)
    then Some (Directory j m (rbtree.setitem name (nxt s) c))
    else if decide (nxt s = k) then Some (set_id (nxt s) inode)
         else tbl s !! k.
Proof.
  rewrite create_dir_eq, alloc_eq. simpl. rewrite lookup_insert.
  destruct (decide (i = k)); [reflexivity|]. apply lookup_insert.
Qed.

Lemma nxt_create s i j m c name inode :
  nxt (fst (create s i (Directory j m c) name inode)) = nxt s + 1.
Proof. rewrite create_dir_eq, alloc_eq. reflexivity. Qed.

Lemma root_create s i n name inode :
  root_id (fst (create s i n name inode)) = root_id s.
Proof.
  unfold create. rewrite alloc_eq.
  destruct (add_child n name (nxt s)). reflexivity.
Qed.

Lemma is_dir_inv n : is_dir n = true -> exists j m c, n = Directory j m c.
Proof. destruct n; [eauto | discriminate]. Qed.

(** One step of the loop of [_split_path]. *)
Lemma walk_cons now seg rest cur s :
  walk now (seg :: rest) cur s
  = match tbl s !! cur with
    | None => (s, Raise (KeyError (KInt cur)))
    | Some (File _ _ _) => (s, Raise (NotDirectory seg))
    | Some (Directory j m c) =>
        match rbtree.getitem seg c with
        | Ok child => walk now rest child s
        | Raise _ =>
            walk now rest (nxt s)
              (fst (create s cur (Directory j m c) seg
                      (new_Directory now (-1))))
        end
    end.
Proof.
  cbn [walk]. unfold get.
  destruct (tbl s !! cur) as [[j m c|j m c]|]; cbn [is_dir negb get_child];
    try reflexivity.
  destruct (rbtree.getitem seg c) eqn:E; [reflexivity|].
  apply rbtree_props.getitem_raise in E. subst e.
  rewrite create_dir_eq, !alloc_eq. reflexivity.
Qed.

Lemma prim_create_dir s i j m c name inode :
  tbl s !! i = Some (Directory j m c) -> fresh_inode inode ->
  prim s (fst (create s i (Directory j m c) name inode)).
Proof. intros H F. eapply prim_create; eauto. Qed.

(** The state that the loop leaves is reached by mutations. *)
Lemma walk_prims now segs : forall cur s,
  rtc prim s (fst (walk now segs cur s)).
Proof.
  induction segs as [|seg rest IH]; intros cur s; [apply rtc_refl|].
  rewrite walk_cons.
  destruct (tbl s !! cur) as [[j m c|j m c]|] eqn:E; try apply rtc_refl.
  destruct (rbtree.getitem seg c); [apply IH|].
  eapply rtc_l; [|apply IH].
  apply prim_create_dir; [assumption|]. left. eauto.
Qed.

Lemma split_path_fst now path s :
  fst (_split_path now path s) = s
  \/ fst (_split_path now path s)
     = fst (walk now (but_last (parts_after_root path)) (root_id s) s).
Proof.
  unfold _split_path. destruct (negb (is_absolute path)); [left; reflexivity|].
  right. destruct (walk _ _ _ _) as [s1 [p|e]]; reflexivity.
Qed.

Lemma split_path_prims now path s :
  rtc prim s (fst (_split_path now path s)).
Proof.
  destruct (split_path_fst now path s) as [-> | ->];
    [apply rtc_refl | apply walk_prims].
Qed.

(** What [resolve_parent] gives when it returns. *)
Lemma resolve_parent_ok now path s s1 pid name parent :
  resolve_parent now path s = (s1, Ok (pid, name, parent)) ->
  _split_path now path s = (s1, Ok (pid, name))
  /\ tbl s1 !! pid = Some parent /\ is_dir parent = true.
Proof.
  unfold resolve_parent.
  destruct (_split_path now path s) as [s' [[pid' name']|e]]; [|discriminate].
  unfold _assert_dir, get.
  destruct (tbl s' !! pid') as [n|] eqn:E; [|discriminate].
  destruct (is_dir n) eqn:D; simpl; [|discriminate].
  intros [= <- <- <- <-]. auto.
Qed.

Lemma resolve_parent_fst now path s :
  fst (resolve_parent now path s) = fst (_split_path now path s).
Proof.
  unfold resolve_parent.
  destruct (_split_path now path s) as [s' [[pid' name']|e]]; [|reflexivity].
  destruct (_assert_dir s' pid' path); reflexivity.
Qed.

Lemma resolve_parent_prims now path s :
  rtc prim s (fst (resolve_parent now path s)).
Proof. rewrite resolve_parent_fst. apply split_path_prims. Qed.

(** Every command leaves a state reached by mutations. *)
Lemma create_prims now path s s1 pid name parent inode :
  resolve_parent now path s = (s1, Ok (pid, name, parent)) ->
  fresh_inode inode ->
  rtc prim s (fst (create s1 pid parent name inode)).
Proof.
  intros R F. pose proof (resolve_parent_prims now path s) as P.
  rewrite R in P. simpl in P.
  apply resolve_parent_ok in R as (_ & T & D).
  eapply rtc_r; [exact P|]. eapply prim_create; eauto.
Qed.

Lemma mkdir_prims now path s : rtc prim s (fst (mkdir now path s)).
Proof.
  unfold mkdir.
  destruct (resolve_parent now path s) as [s1 [[[pid name] parent]|e]] eqn:R;
    pose proof (resolve_parent_prims now path s) as P; rewrite R in P;
    simpl in P; [|exact P].
  destruct (get_child parent name) as [c|[]]; try exact P.
  eapply create_prims; [exact R|]. left. eauto.
Qed.

Lemma touch_prims now path s : rtc prim s (fst (touch now path s)).
Proof.
  unfold touch.
  destruct (resolve_parent now path s) as [s1 [[[pid name] parent]|e]] eqn:R;
    pose proof (resolve_parent_prims now path s) as P; rewrite R in P;
    simpl in P; [|exact P].
  destruct (get_child parent name) as [c|[]]; try exact P.
  eapply create_prims; [exact R|]. right. eauto.
Qed.

Lemma write_bytes_prims now path data s :
  rtc prim s (fst (write_bytes now path data s)).
Proof.
  unfold write_bytes.
  destruct (resolve_parent now path s) as [s1 [[[pid name] parent]|e]] eqn:R;
    pose proof (resolve_parent_prims now path s) as P; rewrite R in P;
    simpl in P; [|exact P].
  assert (C : rtc prim s (fst (create s1 pid parent name
                                 (new_File now (-1) data)))).
  { eapply create_prims; [exact R|]. right. eauto. }
  destruct (get_child parent name) as [c|[]]; try exact P; try exact C.
  unfold get. destruct (tbl s1 !! c) as [[j m ch|j m ch]|] eqn:E;
    try exact P; try exact C.
  simpl. eapply rtc_r; [exact P|]. eapply prim_write. exact E.
Qed.

(** [write] of a payload that encodes is [write_bytes] of its bytes; of
    one that does not, the exception of [encode] and nothing else. *)
Lemma write_encoded now path data b s :
  to_bytes data = Ok b -> write now path data s = write_bytes now path b s.
Proof. intros E. unfold write. rewrite E. reflexivity. Qed.

Lemma write_unencoded now path data e s :
  to_bytes data = Raise e -> write now path data s = (s, Raise e).
Proof. intros E. unfold write. rewrite E. reflexivity. Qed.

Lemma encode_raise str e : py.encode str = Raise e -> e = UnicodeEncodeError.
Proof.
  induction str as [|c str IH]; cbn [py.encode]; [discriminate|].
  destruct (py.is_surrogate c); [congruence|].
  destruct (py.encode str) as [rest|e']; [discriminate|].
  intros [= <-]. auto.
Qed.

Lemma to_bytes_raise data e :
  to_bytes data = Raise e ->
  e = UnicodeEncodeError /\ exists str, data = Str str.
Proof.
  destruct data as [b|str]; cbn [to_bytes]; [discriminate|].
  intros E. split; [eapply encode_raise; eauto | eauto].
Qed.

Lemma write_prims now path data s : rtc prim s (fst (write now path data s)).
Proof.
  unfold write. destruct (to_bytes data) as [b|e];
    [apply write_bytes_prims | apply rtc_refl].
Qed.

Lemma read_prims now path s : rtc prim s (fst (read now path s)).
Proof.
  unfold read.
  destruct (resolve_parent now path s) as [s1 [[[pid name] parent]|e]] eqn:R;
    pose proof (resolve_parent_prims now path s) as P; rewrite R in P;
    simpl in P; [|exact P].
  destruct (get_child parent name) as [c|[]]; try exact P.
  destruct (get (table s1) c) as [[j m ch|j m ch]|]; exact P.
Qed.

Lemma ls_prims now path s : rtc prim s (fst (ls now path s)).
Proof.
  unfold ls. destruct (String.eqb path "/"); [apply rtc_refl|].
  pose proof (split_path_prims now path s) as P.
  destruct (_split_path now path s) as [s1 [[pid name]|e]]; exact P.
Qed.

Lemma rm_prims now path s : rtc prim s (fst (rm now path s)).
Proof.
  unfold rm.
  destruct (resolve_parent now path s) as [s1 [[[pid name] parent]|e]] eqn:R;
    pose proof (resolve_parent_prims now path s) as P; rewrite R in P;
    simpl in P; [|exact P].
  apply resolve_parent_ok in R as (_ & T & D).
  destruct (get_child parent name) as [c|[]]; try exact P.
  destruct (del_child parent name) as [parent1 r] eqn:E. simpl.
  eapply rtc_r; [exact P|].
  replace parent1 with (fst (del_child parent name)) by (rewrite E; reflexivity).
  eapply prim_del; eauto.
Qed.

Lemma lift_fst {A} (f : A -> value) x : fst (lift f x) = fst x.
Proof. destruct x as [s [a|e]]; reflexivity. Qed.

Lemma run_prims now o s : rtc prim s (fst (run now o s)).
Proof.
  destruct o; simpl; rewrite lift_fst;
    auto using mkdir_prims, touch_prims, write_prims, read_prims,
               ls_prims, rm_prims.
Qed.

Lemma run_all_prims l : forall s, rtc prim s (run_all l s).
Proof.
  induction l as [|[now o] l IH]; intros s; simpl; [apply rtc_refl|].
  etransitivity; [apply run_prims | apply IH].
Qed.

End vfs_props.

(** ** A directory and a B-tree that has not split *)

Module index_refinement.
Import node index_ops order_props bisect_props.

(** *** Lists *)

Lemma map_insert {A B} (f : A -> B) i x l :
  map f (py.insert i x l) = py.insert i (f x) (map f l).
Proof.
  unfold py.insert. rewrite map_app. simpl.
  rewrite firstn_map, skipn_map. reflexivity.
Qed.

Lemma map_delete {A B} (f : A -> B) l : forall i,
  map f (base.delete i l) = base.delete i (map f l).
Proof.
  induction l as [|x l IH]; intros [|i]; simpl; try reflexivity.
  f_equal. apply IH.
Qed.

Lemma lookup_map {A B} (f : A -> B) l : forall i,
  map f l !! i = option_map f (l !! i).
Proof.
  induction l as [|x l IH]; intros [|i]; simpl; try reflexivity. apply IH.
Qed.

Lemma insert_zero {A} (x : A) l : py.insert 0 x l = x :: l.
Proof. reflexivity. Qed.

Lemma insert_succ {A} (x y : A) l i :
  py.insert (S i) x (y :: l) = y :: py.insert i x l.
Proof. reflexivity. Qed.

(** *** The items of the red-black tree, by rank *)

Lemma fresh_head k k' v' c :
  (forall i, rbtree.getitem k ((k', v') :: c) <> Ok i) ->
  py.str_eq k k' = false /\ (forall i, rbtree.getitem k c <> Ok i).
Proof.
  simpl. intros H. destruct (py.str_eq k k').
  - exfalso. eapply H. reflexivity.
  - auto.
Qed.

Lemma setitem_fresh k v c :
  sorted (map fst c) -> (forall i, rbtree.getitem k c <> Ok i) ->
  rbtree.setitem k v c = py.insert (rank k (map fst c)) (k, v) c.
Proof.
  induction c as [|[k' v'] c IH]; intros Hs Hf; [reflexivity|].
  apply fresh_head in Hf as [Hne Hf]. destruct Hs as [_ Hs].
  cbn [rbtree.setitem map fst rank].
  destruct (py.str_lt k k') eqn:E.
  - rewrite (lt_asym _ _ E). reflexivity.
  - rewrite Hne.
    destruct (py.str_lt k' k) eqn:E'.
    + rewrite insert_succ, IH by assumption. reflexivity.
    + pose proof (lt_total _ _ E E') as ->.
      unfold py.str_eq in Hne. rewrite String.eqb_refl in Hne. discriminate.
Qed.

Lemma keys_setitem k v c x :
  x ∈ map fst (rbtree.setitem k v c) -> x = k \/ x ∈ map fst c.
Proof.
  intros H. apply list_elem_of_In, in_map_iff in H as ([k0 v0] & <- & H).
  apply list_elem_of_In, rbtree_props.elem_setitem in H as [[= -> ->]|H];
    [auto|].
  right. apply list_elem_of_In, in_map_iff. exists (k0, v0).
  split; [reflexivity|]. apply list_elem_of_In. exact H.
Qed.

Lemma sorted_setitem k v c :
  sorted (map fst c) -> sorted (map fst (rbtree.setitem k v c)).
Proof.
  induction c as [|[k' v'] c IH]; intros Hs.
  - simpl. auto.
  - destruct Hs as [F Hs]. cbn [rbtree.setitem].
    destruct (py.str_lt k k') eqn:E.
    + cbn [map fst sorted]. split; [|split; assumption].
      constructor; [exact E|].
      eapply Forall_impl; [exact F|]. intros z Hz. simpl in Hz.
      eapply lt_trans; eassumption.
    + destruct (py.str_eq k k') eqn:E'.
      * apply rbtree_props.str_eq_iff in E'. subst k'.
        cbn [map fst sorted]. auto.
      * cbn [map fst sorted]. split; [|auto].
        apply Forall_forall. intros x Hx.
        apply keys_setitem in Hx as [->|Hx].
        -- destruct (py.str_lt k' k) eqn:E''; [reflexivity|].
           pose proof (lt_total _ _ E E'') as ->.
           unfold py.str_eq in E'. rewrite String.eqb_refl in E'.
           discriminate.
        -- rewrite Forall_forall in F. apply F. exact Hx.
Qed.

Lemma keys_remove k c x :
  x ∈ map fst (rbtree.remove k c) -> x ∈ map fst c.
Proof.
  intros H. apply list_elem_of_In, in_map_iff in H as ([k0 v0] & <- & H).
  apply list_elem_of_In, rbtree_props.elem_remove in H.
  apply list_elem_of_In, in_map_iff. exists (k0, v0).
  split; [reflexivity|]. apply list_elem_of_In. exact H.
Qed.

Lemma sorted_remove k c :
  sorted (map fst c) -> sorted (map fst (rbtree.remove k c)).
Proof.
  induction c as [|[k' v'] c IH]; intros Hs; [exact Hs|].
  destruct Hs as [F Hs]. cbn [rbtree.remove].
  destruct (py.str_eq k k'); [exact Hs|].
  cbn [map fst sorted]. split; [|auto].
  apply Forall_forall. intros x Hx. apply keys_remove in Hx.
  rewrite Forall_forall in F. apply F. exact Hx.
Qed.

Lemma getitem_above k c :
  Forall (fun z => py.str_lt k z = true) (map fst c) ->
  rbtree.getitem k c = Raise (KeyError (KStr k)).
Proof.
  induction c as [|[k' v'] c IH]; intros F; [reflexivity|].
  apply Forall_cons in F as [Hk F]. simpl in Hk. cbn [rbtree.getitem].
  rewrite (lt_not_eq _ _ Hk). auto.
Qed.

(** A lookup in the red-black tree looks at the item whose position is
    the rank of the key. *)
Lemma getitem_rank k c :
  sorted (map fst c) ->
  rbtree.getitem k c
  = match c !! rank k (map fst c) with
    | Some (k', v') =>
        if py.str_eq k' k then Ok v' else Raise (KeyError (KStr k))
    | None => Raise (KeyError (KStr k))
    end.
Proof.
  induction c as [|[k' v'] c IH]; intros Hs; [reflexivity|].
  destruct Hs as [F Hs]. cbn [rbtree.getitem map fst rank].
  destruct (py.str_eq k k') eqn:E.
  - apply rbtree_props.str_eq_iff in E. subst k'.
    rewrite lt_irrefl. simpl. unfold py.str_eq. rewrite String.eqb_refl.
    reflexivity.
  - destruct (py.str_lt k' k) eqn:E'.
    + simpl. apply IH. exact Hs.
    + simpl. rewrite eq_sym, E. apply getitem_above.
      destruct (py.str_lt k k') eqn:E''.
      * eapply Forall_impl; [exact F|]. intros z Hz. simpl in Hz.
        eapply lt_trans; eassumption.
      * pose proof (lt_total _ _ E'' E') as ->.
        unfold py.str_eq in E. rewrite String.eqb_refl in E. discriminate.
Qed.

Lemma remove_rank k c k' v' :
  sorted (map fst c) ->
  c !! rank k (map fst c) = Some (k', v') -> py.str_eq k' k = true ->
  rbtree.remove k c = base.delete (rank k (map fst c)) c.
Proof.
  induction c as [|[k0 v0] c IH]; intros Hs; [discriminate|].
  destruct Hs as [F Hs]. cbn [rbtree.remove map fst rank].
  intros L E. destruct (py.str_lt k0 k) eqn:E0.
  - simpl in L. rewrite eq_sym, (lt_not_eq _ _ E0).
    simpl. f_equal. eapply IH; eauto.
  - simpl in L. injection L as -> ->. rewrite eq_sym, E. reflexivity.
Qed.

Lemma index_insert_rank k a :
  py.index k (py.insert (rank k a) k a) = Some (rank k a).
Proof.
  induction a as [|y a IH]; cbn [rank].
  - simpl. unfold py.str_eq. rewrite String.eqb_refl. reflexivity.
  - destruct (py.str_lt y k) eqn:E.
    + rewrite insert_succ. cbn [py.index].
      rewrite (lt_not_eq _ _ E), IH. reflexivity.
    + rewrite insert_zero. cbn [py.index]. unfold py.str_eq.
      rewrite String.eqb_refl. reflexivity.
Qed.

(** *** One operation on both sides *)

Lemma length_fst {A B} (c : list (A * B)) : length (map fst c) = length c.
Proof. apply length_map. Qed.

(** [insert] into a single leaf that is not full. *)
Lemma insert_leaf t c k v :
  btree._root t = btree.mkNode true (map fst c) (map snd c) [] ->
  sorted (map fst c) ->
  Z.of_nat (length c) <> btree._order t - 1 ->
  let r := rank k (map fst c) in
  btree.insert t k v
  = (btree.set_root t
       (btree.mkNode true (map fst (py.insert r (k, v) c))
                     (map snd (py.insert r (k, v) c)) []),
     Ok tt).
Proof.
  intros Hr Hs Hn r. unfold btree.insert. rewrite Hr.
  cbn [btree.keys]. rewrite length_fst.
  destruct (Z.eqb_spec (Z.of_nat (length c)) (btree._order t - 1)) as [|_];
    [contradiction|].
  cbn [btree.height btree._insert_non_full btree.leaf btree.keys btree.vals].
  rewrite (bisect_left_rank _ _ Hs). fold r.
  unfold btree.set_keys. cbn [btree.leaf btree.keys btree.vals btree.kids].
  unfold r. rewrite index_insert_rank.
  unfold btree.set_vals. cbn [btree.leaf btree.keys btree.vals btree.kids].
  rewrite !map_insert. reflexivity.
Qed.

Lemma search_leaf c k :
  sorted (map fst c) ->
  let node := btree.mkNode true (map fst c) (map snd c) [] in
  btree._search node k
  = match c !! rank k (map fst c) with
    | Some (k', v') =>
        if py.str_eq k' k
        then Ok (Some ([], node, rank k (map fst c)))
        else Ok None
    | None => Ok None
    end.
Proof.
  intros Hs node. unfold node. cbn [btree._search].
  rewrite (bisect_left_rank _ _ Hs), lookup_map.
  destruct (c !! rank k (map fst c)) as [[k' v']|]; reflexivity.
Qed.

(** [get] on a single leaf. *)
Lemma get_leaf t c k :
  btree._root t = btree.mkNode true (map fst c) (map snd c) [] ->
  sorted (map fst c) ->
  btree.get t k = rbtree.getitem k c.
Proof.
  intros Hr Hs. unfold btree.get. rewrite Hr, (search_leaf _ _ Hs).
  rewrite (getitem_rank _ _ Hs).
  destruct (c !! rank k (map fst c)) as [[k' v']|] eqn:L; [|reflexivity].
  destruct (py.str_eq k' k); [|reflexivity].
  cbn [btree.vals]. unfold py.getitem. rewrite lookup_map, L. reflexivity.
Qed.

(** [delete] on a single leaf. *)
Lemma delete_leaf t c k :
  btree._root t = btree.mkNode true (map fst c) (map snd c) [] ->
  sorted (map fst c) ->
  btree.delete t k
  = match rbtree.getitem k c with
    | Ok _ =>
        (btree.set_root t
           (btree.mkNode true (map fst (rbtree.remove k c))
                         (map snd (rbtree.remove k c)) []),
         Ok tt)
    | Raise e => (t, Raise e)
    end.
Proof.
  intros Hr Hs. unfold btree.delete. rewrite Hr, (search_leaf _ _ Hs).
  rewrite (getitem_rank _ _ Hs).
  destruct (c !! rank k (map fst c)) as [[k' v']|] eqn:L; [|reflexivity].
  destruct (py.str_eq k' k) eqn:E; [|reflexivity].
  cbn [btree.vals btree.keys btree.set_at].
  assert (Hlt : (rank k (map fst c) < length (map snd c))%nat).
  { rewrite length_map. eapply lookup_lt_Some. exact L. }
  apply Nat.ltb_lt in Hlt. rewrite Hlt.
  unfold btree.set_vals, btree.set_keys.
  cbn [btree.leaf btree.keys btree.vals btree.kids].
  rewrite (remove_rank _ _ _ _ Hs L E), !map_delete. reflexivity.
Qed.

Lemma iter_leaf t c :
  btree._root t = btree.mkNode true (map fst c) (map snd c) [] ->
  btree.iter t = rbtree.keys c.
Proof. intros Hr. unfold btree.iter. rewrite Hr. reflexivity. Qed.

(** One admissible operation gives the same observation on both sides
    and leaves them holding the same items. *)
Lemma step_agrees d t o :
  same_items d t ->
  split_free (btree._order t) d [o] ->
  snd (dir_step d o) = snd (bt_step t o)
  /\ same_items (fst (dir_step d o)) (fst (bt_step t o))
  /\ btree._order (fst (bt_step t o)) = btree._order t.
Proof.
  intros (j & m & c & -> & Hs & Hr) [Ho _].
  destruct o as [name i|name|name|]; cbn [dir_step bt_step].
  - destruct Ho as [Hf Hn]. cbn [get_child dir_size] in Hf, Hn.
    cbn [add_child]. rewrite (insert_leaf t c name i Hr Hs Hn).
    cbv zeta. cbn [fst snd]. split; [reflexivity|]. split; [|reflexivity].
    exists j, m, (rbtree.setitem name i c).
    split; [reflexivity|]. split; [apply sorted_setitem; exact Hs|].
    rewrite (setitem_fresh _ _ _ Hs Hf). reflexivity.
  - cbn [get_child fst snd]. rewrite (get_leaf t c name Hr Hs).
    split; [reflexivity|]. split; [|reflexivity].
    exists j, m, c. auto.
  - cbn [del_child]. rewrite (delete_leaf t c name Hr Hs).
    unfold rbtree.delitem.
    destruct (rbtree.getitem name c) as [x|e]; cbn [fst snd].
    + split; [reflexivity|]. split; [|reflexivity].
      exists j, m, (rbtree.remove name c).
      split; [reflexivity|]. split; [apply sorted_remove; exact Hs|].
      reflexivity.
    + split; [reflexivity|]. split; [|reflexivity].
      exists j, m, c. auto.
  - cbn [iter_names fst snd obs_names]. rewrite (iter_leaf t c Hr).
    split; [reflexivity|]. split; [|reflexivity].
    exists j, m, c. auto.
Qed.

Lemma run_agrees l : forall d t,
  same_items d t -> split_free (btree._order t) d l ->
  dir_run d l = bt_run t l.
Proof.
  induction l as [|o l IH]; intros d t Hi Hf; [reflexivity|].
  destruct Hf as [Ho Hf].
  destruct (step_agrees d t o Hi (conj Ho I)) as (Hobs & Hi' & Hord).
  cbn [dir_run bt_run].
  destruct (dir_step d o) as [d' x]. destruct (bt_step t o) as [t' y].
  cbn [fst snd] in *. subst y. f_equal.
  apply IH; [exact Hi'|]. rewrite Hord. exact Hf.
Qed.

Lemma same_items_init now order :
  same_items (new_Directory now (-1)) (btree.init order).
Proof. exists (-1), (new_Meta now), []. simpl. auto. Qed.

(** C1, as the code has it.  The child-name index of a [Directory] is
    the red-black tree of [fs/index/rbtree.py].  Its methods give the
    same results as those of a [BTree] of any order (values returned,
    [KeyError]s raised, names yielded and their order) on every sequence
    of operations that adds only names not bound at that moment and
    never adds to an index holding [order - 1] names, so that the
    B-tree stays a single leaf. *)
Theorem directory_agrees_with_unsplit_btree :
  forall (order now : Z) (l : list iop),
    split_free order (new_Directory now (-1)) l ->
    dir_run (new_Directory now (-1)) l = bt_run (btree.init order) l.
Proof.
  intros order now l Hf. apply run_agrees; [apply same_items_init|].
  exact Hf.
Qed.

Lemma directory_agrees_with_unsplit_btree_witness :
  dir_run (new_Directory 0 (-1))
    [Add "b" 1; Add "a" 2; Get "a"; Del "b"; Get "b"; Names]
  = bt_run (btree.init 4)
      [Add "b" 1; Add "a" 2; Get "a"; Del "b"; Get "b"; Names].
Proof.
  apply (directory_agrees_with_unsplit_btree 4 0
           [Add "b" 1; Add "a" 2; Get "a"; Del "b"; Get "b"; Names]).
  cbn. repeat split; try discriminate; lia.
Defined.

End index_refinement.

(** ** Invariants kept by the mutations *)

Module vfs_invariants.
Import node inode_table vfs vfs_spec vfs_props.

Lemma id_set_id i n : node.id (set_id i n) = i.
Proof. destruct n; reflexivity. Qed.

Lemma fresh_inode_no_children inode i j m c :
  fresh_inode inode -> set_id i inode = Directory j m c -> c = [].
Proof.
  intros [[now ->]|[now [data ->]]]; simpl; [|discriminate].
  intros [= _ _ <-]. reflexivity.
Qed.

(** No mutation takes an entry out of the table. *)
Lemma prim_keeps_entries s s' :
  prim s s' -> forall i, is_Some (tbl s !! i) -> is_Some (tbl s' !! i).
Proof.
  intros P i Hi. destruct P as [s i0 n name inode T D F|s i0 n name T D|s i0 j m c data T].
  - apply is_dir_inv in D as (j & m & c & ->).
    rewrite tbl_create. repeat case_decide; eauto.
  - rewrite tbl_store. case_decide; eauto.
  - rewrite tbl_store. case_decide; eauto.
Qed.

Lemma prims_keep_entries s s' :
  rtc prim s s' -> forall i, is_Some (tbl s !! i) -> is_Some (tbl s' !! i).
Proof.
  induction 1 as [|s s1 s2 P _ IH]; [auto|].
  intros i Hi. apply IH. eapply prim_keeps_entries; eauto.
Qed.

(** No mutation leaves an identity below the counter without its entry. *)
Lemma prim_all_allocated s s' :
  prim s s' -> all_allocated s -> all_allocated s'.
Proof.
  intros P A i Hi.
  destruct (decide (i < nxt s)) as [Hlt|Hge].
  - eapply prim_keeps_entries; [exact P|]. apply A. lia.
  - destruct P as [s i0 n name inode T D F|s i0 n name T D|s i0 j m c data T].
    + apply is_dir_inv in D as (j & m & c & ->).
      rewrite nxt_create in Hi. rewrite tbl_create.
      repeat case_decide; eauto. lia.
    + rewrite nxt_store in Hi. lia.
    + rewrite nxt_store in Hi. lia.
Qed.

Lemma prims_all_allocated s s' :
  rtc prim s s' -> all_allocated s -> all_allocated s'.
Proof. induction 1; eauto using prim_all_allocated. Qed.

Lemma all_allocated_init now : all_allocated (init now).
Proof.
  intros i Hi. unfold init in *. simpl in *.
  assert (i = 0) as -> by lia. rewrite lookup_insert_eq. eauto.
Qed.

(** Every mutation keeps the keys between 0 and the counter. *)
Lemma prim_keys_in_range s s' :
  prim s s' -> keys_in_range s -> keys_in_range s'.
Proof.
  intros P [N K].
  destruct P as [s i0 n name inode T D F|s i0 n name T D|s i0 j m c data T].
  - apply is_dir_inv in D as (j & m & c & ->).
    pose proof (K _ _ T). unfold keys_in_range. rewrite nxt_create.
    split; [lia|].
    intros k x. rewrite tbl_create. repeat case_decide; subst; try lia.
    intros Hx. apply K in Hx. lia.
  - split; [exact N|]. intros k x. rewrite tbl_store, nxt_store.
    case_decide; subst; eauto.
  - split; [exact N|]. intros k x. rewrite tbl_store, nxt_store.
    case_decide; subst; eauto.
Qed.

Lemma prims_keys_in_range s s' :
  rtc prim s s' -> keys_in_range s -> keys_in_range s'.
Proof. induction 1; eauto using prim_keys_in_range. Qed.

Lemma keys_in_range_init now : keys_in_range (init now).
Proof.
  split; [simpl; lia|]. intros i n. unfold init. simpl.
  rewrite lookup_insert. case_decide; [lia|].
  rewrite lookup_empty. discriminate.
Qed.

(** Every mutation keeps each inode under its own [id]. *)
Lemma prim_ids_match s s' : prim s s' -> ids_match s -> ids_match s'.
Proof.
  intros P I. destruct P as [s i0 n name inode T D F|s i0 n name T D|s i0 j m c data T].
  - apply is_dir_inv in D as (j & m & c & ->).
    intros k x. rewrite tbl_create. pose proof (I _ _ T) as Hj. simpl in Hj.
    repeat case_decide; subst.
    + intros [= <-]. reflexivity.
    + intros [= <-]. apply id_set_id.
    + apply I.
  - apply is_dir_inv in D as (j & m & c & ->).
    intros k x. rewrite tbl_store. pose proof (I _ _ T) as Hj. simpl in Hj.
    case_decide; subst; [|apply I].
    simpl. destruct (rbtree.delitem name c). intros [= <-]. reflexivity.
  - intros k x. rewrite tbl_store. pose proof (I _ _ T) as Hj. simpl in Hj.
    case_decide; subst; [|apply I]. intros [= <-]. reflexivity.
Qed.

Lemma prims_ids_match s s' : rtc prim s s' -> ids_match s -> ids_match s'.
Proof. induction 1; eauto using prim_ids_match. Qed.

Lemma ids_match_init now : ids_match (init now).
Proof.
  intros i n. unfold init. simpl. rewrite lookup_insert.
  case_decide; [|rewrite lookup_empty; discriminate].
  subst. intros [= <-]. reflexivity.
Qed.

(** Every mutation keeps the order of the identities. *)
Lemma prim_wf s s' : prim s s' -> wf s -> wf s'.
Proof.
  intros P [W1 W3].
  destruct P as [s i0 n name inode T D F|s i0 n name T D|s i0 j m c data T].
  - apply is_dir_inv in D as (j & m & c & ->).
    pose proof (W1 _ _ T) as Hi0.
    split.
    + intros k x. rewrite tbl_create, nxt_create.
      repeat case_decide; subst; try lia.
      intros Hx. apply W1 in Hx. lia.
    + intros k j' m' c' nm child. rewrite tbl_create.
      repeat case_decide; subst.
      * intros [= <- <- <-] Hin.
        apply rbtree_props.elem_setitem in Hin as [[= _ ->]|Hin]; [lia|].
        eapply W3; eauto.
      * intros [= Hn] Hin. apply (fresh_inode_no_children _ _ _ _ _ F) in Hn.
        subst c'. apply elem_of_nil in Hin. contradiction.
      * apply W3.
  - apply is_dir_inv in D as (j & m & c & ->).
    split.
    + intros k x. rewrite tbl_store, nxt_store. case_decide; subst; eauto.
    + intros k j' m' c' nm child. rewrite tbl_store.
      case_decide; subst; [|apply W3].
      simpl. unfold rbtree.delitem.
      destruct (rbtree.getitem name c); intros [= <- <- <-] Hin.
      * apply rbtree_props.elem_remove in Hin. eapply W3; eauto.
      * eapply W3; eauto.
  - split.
    + intros k x. rewrite tbl_store, nxt_store. case_decide; subst; eauto.
    + intros k j' m' c' nm child. rewrite tbl_store.
      case_decide; subst; [discriminate|apply W3].
Qed.

Lemma prims_wf s s' : rtc prim s s' -> wf s -> wf s'.
Proof. induction 1; eauto using prim_wf. Qed.

Lemma wf_init now : wf (init now).
Proof.
  split.
  - intros i n. unfold init. simpl. rewrite lookup_insert.
    case_decide; [|rewrite lookup_empty; discriminate]. lia.
  - intros i j m c nm child. unfold init. simpl. rewrite lookup_insert.
    case_decide; [|rewrite lookup_empty; discriminate].
    intros [= <- <- <-] Hin. apply elem_of_nil in Hin. contradiction.
Qed.

(** Every state of a session that starts with [VFS()] is well formed. *)
Lemma wf_run_all now l : wf (run_all l (init now)).
Proof. eapply prims_wf; [apply run_all_prims | apply wf_init]. Qed.

Lemma wf_run now o s : wf s -> wf (fst (run now o s)).
Proof. apply prims_wf, run_prims. Qed.

Lemma root_prim s s' : prim s s' -> root_id s' = root_id s.
Proof.
  destruct 1; [apply root_create | reflexivity | reflexivity].
Qed.

Lemma root_prims s s' : rtc prim s s' -> root_id s' = root_id s.
Proof.
  induction 1 as [|s s1 s2 P _ IH]; [reflexivity|].
  rewrite IH. apply root_prim. assumption.
Qed.

End vfs_invariants.

(** ** Path resolution *)

Module walk_props.
Import node inode_table vfs vfs_spec vfs_props vfs_invariants.

Lemma agree_below_refl s b : agree_below s s b.
Proof. split; auto. Qed.

Lemma agree_below_trans s1 s2 s3 b :
  agree_below s1 s2 b -> agree_below s2 s3 b -> agree_below s1 s3 b.
Proof.
  intros [R1 A1] [R2 A2]. split; [congruence|].
  intros i Hi. rewrite A2, A1; auto.
Qed.

Lemma agree_below_weaken s s' b b' :
  b' <= b -> agree_below s s' b -> agree_below s s' b'.
Proof. intros Hb [R A]. split; [assumption|]. intros i Hi. apply A. lia. Qed.

(** [create] touches the directory it is given and the new identity. *)
Lemma agree_below_create s i j m c name inode :
  wf s -> tbl s !! i = Some (Directory j m c) ->
  agree_below s (fst (create s i (Directory j m c) name inode)) i.
Proof.
  intros [W1 _] T. pose proof (W1 _ _ T). split; [apply root_create|].
  intros k Hk. rewrite tbl_create. repeat case_decide; try lia. reflexivity.
Qed.

Lemma wf_create s i j m c name now :
  wf s -> tbl s !! i = Some (Directory j m c) ->
  wf (fst (create s i (Directory j m c) name (new_Directory now (-1)))).
Proof.
  intros W T. eapply prim_wf; [|exact W].
  apply prim_create_dir; [assumption|]. left. eauto.
Qed.

(** The loop started at [cur] leaves everything below [cur] as it was. *)
Lemma walk_agree now segs : forall cur s,
  wf s -> agree_below s (fst (walk now segs cur s)) cur.
Proof.
  induction segs as [|seg rest IH]; intros cur s W; [apply agree_below_refl|].
  rewrite walk_cons.
  destruct (tbl s !! cur) as [[j m c|j m c]|] eqn:T;
    try apply agree_below_refl.
  destruct (rbtree.getitem seg c) as [child|e] eqn:G.
  - apply rbtree_props.getitem_elem in G.
    pose proof (wf_child s W _ _ _ _ _ _ T G).
    eapply agree_below_weaken; [|apply IH; assumption]. lia.
  - pose proof (wf_dom s W _ _ T).
    eapply agree_below_trans; [apply agree_below_create; eassumption|].
    eapply agree_below_weaken; [|apply IH, wf_create; assumption]. lia.
Qed.

(** After the loop has returned, lookups alone lead where it led. *)
Lemma walk_lookup now segs : forall cur s s1 p,
  wf s -> walk now segs cur s = (s1, Ok p) ->
  lookup_walk s1 segs cur = Some p.
Proof.
  induction segs as [|seg rest IH]; intros cur s s1 p W.
  - simpl. intros [= <- <-]. reflexivity.
  - rewrite walk_cons.
    destruct (tbl s !! cur) as [[j m c|j m c]|] eqn:T; try discriminate.
    destruct (rbtree.getitem seg c) as [child|e] eqn:G; intros Hw.
    + pose proof (walk_agree now rest child s W) as [_ A].
      rewrite Hw in A. cbn [fst] in A.
      pose proof (rbtree_props.getitem_elem _ _ _ G) as Hin.
      pose proof (wf_child s W _ _ _ _ _ _ T Hin).
      cbn [lookup_walk]. rewrite A, T, G by lia. eapply IH; eauto.
    + pose proof (wf_dom s W _ _ T).
      pose proof (wf_create s cur j m c seg now W T) as W'.
      pose proof (walk_agree now rest (nxt s) _ W') as [_ A].
      rewrite Hw in A. cbn [fst] in A.
      cbn [lookup_walk]. rewrite A by lia. rewrite tbl_create.
      case_decide; [|congruence].
      rewrite rbtree_props.getitem_setitem. eapply IH; eauto.
Qed.

(** When lookups alone lead somewhere, the loop goes there and changes
    nothing. *)
Lemma lookup_walk_walk now segs : forall cur s p,
  lookup_walk s segs cur = Some p -> walk now segs cur s = (s, Ok p).
Proof.
  induction segs as [|seg rest IH]; intros cur s p.
  - simpl. intros [= <-]. reflexivity.
  - rewrite walk_cons. cbn [lookup_walk].
    destruct (tbl s !! cur) as [[j m c|j m c]|]; try discriminate.
    destruct (rbtree.getitem seg c); [apply IH | discriminate].
Qed.

Lemma lookup_walk_le s segs : forall cur p,
  wf s -> lookup_walk s segs cur = Some p -> cur <= p.
Proof.
  induction segs as [|seg rest IH]; intros cur p W; simpl.
  - intros [= <-]. lia.
  - destruct (tbl s !! cur) as [[j m c|j m c]|] eqn:T; try discriminate.
    destruct (rbtree.getitem seg c) as [child|e] eqn:G; [|discriminate].
    intros Hl. apply IH in Hl; [|assumption].
    apply rbtree_props.getitem_elem in G.
    pose proof (wf_child s W _ _ _ _ _ _ T G). lia.
Qed.

(** Lookups that lead to [p] only read entries below [p]. *)
Lemma lookup_walk_agree s s' segs : forall cur p,
  wf s -> lookup_walk s segs cur = Some p -> agree_below s s' p ->
  lookup_walk s' segs cur = Some p.
Proof.
  induction segs as [|seg rest IH]; intros cur p W; simpl; [auto|].
  destruct (tbl s !! cur) as [[j m c|j m c]|] eqn:T; try discriminate.
  destruct (rbtree.getitem seg c) as [child|e] eqn:G; [|discriminate].
  intros Hl A.
  pose proof (lookup_walk_le _ _ _ _ W Hl).
  pose proof (rbtree_props.getitem_elem _ _ _ G) as Hin.
  pose proof (wf_child s W _ _ _ _ _ _ T Hin).
  destruct A as [R A]. rewrite A, T, G by lia.
  apply IH; [assumption..|split; assumption].
Qed.

(** From a directory that is empty the loop always returns, at a
    directory that is empty. *)
Lemma walk_from_empty now segs : forall cur s s1 r m,
  wf s -> tbl s !! cur = Some (Directory cur m []) ->
  walk now segs cur s = (s1, r) ->
  exists p m', r = Ok p /\ cur <= p
            /\ tbl s1 !! p = Some (Directory p m' [])
            /\ (m' = m \/ m' = new_Meta now).
Proof.
  induction segs as [|seg rest IH]; intros cur s s1 r m W T.
  - simpl. intros [= <- <-]. exists cur, m. repeat split; [lia | assumption | auto].
  - rewrite walk_cons, T. cbn [rbtree.getitem]. intros Hw.
    pose proof (wf_dom s W _ _ T).
    eapply (IH _ _ _ _ (new_Meta now)) in Hw as (p & m' & -> & Hp & Tp & Hm).
    + exists p, m'. repeat split; [lia | assumption | tauto].
    + apply wf_create; assumption.
    + rewrite tbl_create. repeat case_decide; try lia. reflexivity.
Qed.

Lemma nxt_walk_le now segs : forall cur s,
  nxt s <= nxt (fst (walk now segs cur s)).
Proof.
  induction segs as [|seg rest IH]; intros cur s; [simpl; lia|].
  rewrite walk_cons.
  destruct (tbl s !! cur) as [[j m c|j m c]|]; try (simpl; lia).
  destruct (rbtree.getitem seg c); [apply IH|].
  etransitivity; [|apply IH]. rewrite nxt_create. lia.
Qed.

(** The loop either finds every component and changes nothing, or ends
    in a directory it has just created, which is empty. *)
Lemma walk_found_or_fresh now segs : forall cur s s1 p,
  wf s -> walk now segs cur s = (s1, Ok p) ->
  (s1 = s /\ lookup_walk s segs cur = Some p)
  \/ (lookup_walk s segs cur = None
      /\ nxt s <= p
      /\ tbl s1 !! p = Some (Directory p (new_Meta now) [])).
Proof.
  induction segs as [|seg rest IH]; intros cur s s1 p W.
  - simpl. intros [= <- <-]. left. auto.
  - rewrite walk_cons. cbn [lookup_walk].
    destruct (tbl s !! cur) as [[j m c|j m c]|] eqn:T; try discriminate.
    destruct (rbtree.getitem seg c) as [child|e] eqn:G; intros Hw.
    + apply IH in Hw; assumption.
    + right. split; [reflexivity|].
      pose proof (wf_dom s W _ _ T).
      eapply (walk_from_empty _ _ _ _ _ _ (new_Meta now)) in Hw
        as (p' & m' & [= <-] & Hp & Tp & Hm);
        [|apply wf_create; assumption|].
      * split; [lia|]. destruct Hm; subst m'; assumption.
      * rewrite tbl_create. repeat case_decide; try lia. reflexivity.
Qed.

(** The loop raises only before it has changed anything. *)
Lemma walk_raise now segs : forall cur s s1 e,
  wf s -> walk now segs cur s = (s1, Raise e) -> s1 = s.
Proof.
  induction segs as [|seg rest IH]; intros cur s s1 e W.
  - simpl. discriminate.
  - rewrite walk_cons.
    destruct (tbl s !! cur) as [[j m c|j m c]|] eqn:T;
      try (intros [= <- _]; reflexivity).
    destruct (rbtree.getitem seg c) as [child|e'] eqn:G; intros Hw.
    + eapply IH; eauto.
    + pose proof (wf_dom s W _ _ T).
      eapply (walk_from_empty _ _ _ _ _ _ (new_Meta now)) in Hw
        as (p' & m' & [=] & _);
        [apply wf_create; assumption|].
      rewrite tbl_create. repeat case_decide; try lia. reflexivity.
Qed.

(** *** [_split_path] *)

Lemma split_path_ok now path s s1 pid name :
  _split_path now path s = (s1, Ok (pid, name)) ->
  is_absolute path = true
  /\ name = final (parts_after_root path)
  /\ walk now (but_last (parts_after_root path)) (root_id s) s = (s1, Ok pid).
Proof.
  unfold _split_path. destruct (is_absolute path); simpl; [|discriminate].
  destruct (walk _ _ _ _) as [s' [p|e]]; [|discriminate].
  intros [= <- <- <-]. auto.
Qed.

Lemma split_path_of_lookup now path s pid :
  is_absolute path = true ->
  lookup_walk s (but_last (parts_after_root path)) (root_id s) = Some pid ->
  _split_path now path s = (s, Ok (pid, final (parts_after_root path))).
Proof.
  intros A L. unfold _split_path. rewrite A. simpl.
  rewrite (lookup_walk_walk now _ _ _ _ L). reflexivity.
Qed.

Lemma split_path_wf now path s : wf s -> wf (fst (_split_path now path s)).
Proof. apply prims_wf, split_path_prims. Qed.

(** Once a path has been resolved, it resolves the same way in every
    state that agrees with the state left below the parent. *)
Lemma resolve_again now path s s1 pid name s' now' :
  wf s -> _split_path now path s = (s1, Ok (pid, name)) ->
  agree_below s1 s' pid ->
  _split_path now' path s' = (s', Ok (pid, name)).
Proof.
  intros W Hs A.
  pose proof (split_path_wf now path s W) as W1. rewrite Hs in W1. simpl in W1.
  apply split_path_ok in Hs as (Habs & -> & Hw).
  pose proof (walk_agree now (but_last (parts_after_root path))
                (root_id s) s W) as [R _].
  rewrite Hw in R. simpl in R.
  apply walk_lookup in Hw; [|assumption].
  apply split_path_of_lookup; [assumption|].
  destruct A as [R' A]. rewrite R', R.
  eapply lookup_walk_agree; eauto. split; assumption.
Qed.

End walk_props.

(** ** The six operations *)

Module vfs_ops.
Import node inode_table vfs vfs_spec vfs_props vfs_invariants walk_props.

Lemma resolve_parent_of_split now path s s1 pid name :
  _split_path now path s = (s1, Ok (pid, name)) ->
  resolve_parent now path s
  = match tbl s1 !! pid with
    | None => (s1, Raise (KeyError (KInt pid)))
    | Some (File _ _ _) => (s1, Raise (NotDirectory path))
    | Some (Directory j m c) => (s1, Ok (pid, name, Directory j m c))
    end.
Proof.
  intros Hs. unfold resolve_parent, _assert_dir, get. rewrite Hs.
  destruct (tbl s1 !! pid) as [[j m c|j m c]|]; reflexivity.
Qed.

Lemma agree_below_store s i n b : b <= i -> agree_below s (store s i n) b.
Proof.
  intros Hb. split; [reflexivity|]. intros k Hk. rewrite tbl_store.
  case_decide; [lia | reflexivity].
Qed.

Ltac open_resolve Hs :=
  rewrite (resolve_parent_of_split _ _ _ _ _ _ Hs);
  let T := fresh "T" in
  destruct (tbl _ !! _) as [[?j ?m ?c|?j ?m ?c]|] eqn:T;
  try apply agree_below_refl.

(** A command changes nothing below the parent it has resolved. *)
Lemma run_agree now o s s1 pid name :
  wf s -> encodes o -> _split_path now (path_of o) s = (s1, Ok (pid, name)) ->
  agree_below s1 (fst (run now o s)) pid.
Proof.
  intros W He Hs.
  pose proof (split_path_wf now (path_of o) s W) as W1.
  rewrite Hs in W1. cbn [fst] in W1.
  destruct o as [p|p|p d|p|p|p]; cbn [run path_of] in *; rewrite lift_fst.
  - unfold mkdir. open_resolve Hs. cbn [get_child].
    destruct (rbtree.getitem name c) as [x|e] eqn:G; [apply agree_below_refl|].
    apply rbtree_props.getitem_raise in G. subst e.
    apply agree_below_create; assumption.
  - unfold touch. open_resolve Hs. cbn [get_child].
    destruct (rbtree.getitem name c) as [x|e] eqn:G; [apply agree_below_refl|].
    apply rbtree_props.getitem_raise in G. subst e.
    apply agree_below_create; assumption.
  - destruct He as [b Hb]. rewrite (write_encoded _ _ _ _ _ Hb).
    unfold write_bytes. open_resolve Hs. cbn [get_child].
    destruct (rbtree.getitem name c) as [x|e] eqn:G.
    + apply rbtree_props.getitem_elem in G.
      pose proof (wf_child s1 W1 _ _ _ _ _ _ T G).
      unfold get. destruct (tbl s1 !! x) as [[j' m' c'|j' m' c']|].
      * apply agree_below_refl.
      * apply agree_below_store. lia.
      * apply agree_below_create; assumption.
    + apply rbtree_props.getitem_raise in G. subst e.
      apply agree_below_create; assumption.
  - unfold read. open_resolve Hs. cbn [get_child].
    destruct (rbtree.getitem name c) as [x|e] eqn:G.
    + destruct (get (table s1) x) as [[j' m' c'|j' m' c']|];
        apply agree_below_refl.
    + apply rbtree_props.getitem_raise in G. subst e. apply agree_below_refl.
  - unfold ls. destruct (String.eqb p "/") eqn:E.
    + apply String.eqb_eq in E. subst p. vm_compute in Hs.
      injection Hs as <- <- <-. apply agree_below_refl.
    + rewrite Hs. apply agree_below_refl.
  - unfold rm. open_resolve Hs. cbn [get_child].
    destruct (rbtree.getitem name c) as [x|e] eqn:G.
    + cbn [del_child]. destruct (rbtree.delitem name c).
      apply agree_below_store. lia.
    + apply rbtree_props.getitem_raise in G. subst e. apply agree_below_refl.
Qed.

(** What [read] returns when the path leads to a file. *)
Lemma read_file now path s pid name j m c child i fm content :
  _split_path now path s = (s, Ok (pid, name)) ->
  tbl s !! pid = Some (Directory j m c) ->
  rbtree.getitem name c = Ok child ->
  tbl s !! child = Some (File i fm content) ->
  read now path s = (s, Ok content).
Proof.
  intros Hs T G F. unfold read.
  rewrite (resolve_parent_of_split _ _ _ _ _ _ Hs), T.
  cbn [get_child]. rewrite G. unfold get. rewrite F. reflexivity.
Qed.

(** [write] on a name that is not bound, or bound to an identity that
    the table does not hold: a new file. *)
Lemma read_after_create now path s s1 pid name j m c data now' :
  wf s -> _split_path now path s = (s1, Ok (pid, name)) ->
  tbl s1 !! pid = Some (Directory j m c) ->
  let s' := fst (create s1 pid (Directory j m c) name (new_File now (-1) data)) in
  read now' path s' = (s', Ok data).
Proof.
  intros W Hs T s'.
  pose proof (split_path_wf now path s W) as W1.
  rewrite Hs in W1. cbn [fst] in W1.
  pose proof (wf_dom s1 W1 _ _ T).
  eapply read_file.
  - eapply resolve_again; [exact W | exact Hs |].
    apply agree_below_create; assumption.
  - unfold s'. rewrite tbl_create. case_decide; [reflexivity|congruence].
  - apply rbtree_props.getitem_setitem.
  - unfold s'. rewrite tbl_create. repeat case_decide; try lia. reflexivity.
Qed.

End vfs_ops.

(** ** The properties of the namespace façade *)

Module vfs_theorems.
Import node inode_table vfs vfs_spec vfs_props vfs_invariants walk_props
       vfs_ops.

(** The state named in an equation between two outcomes. *)
Ltac same_state Hm :=
  match type of Hm with
  | (?a, _) = (?b, _) =>
      let E := fresh "E" in
      assert (E : b = a) by congruence; clear Hm; subst b
  end.

(** C4, at the failing input.  On a fresh namespace [ls("/missing")]
    raises the bare [KeyError] of the directory index, which is none of
    the five error kinds, and leaves the namespace as it was; on the
    same input [read] and [rm] translate that [KeyError] into
    [FileNotFound]. *)
Theorem ls_missing_raises_bare_KeyError :
  forall now0 now : Z,
    ls now "/missing" (init now0)
    = (init now0, Raise (KeyError (KStr "missing")))
    /\ kind_of (KeyError (KStr "missing")) = None
    /\ read now "/missing" (init now0)
       = (init now0, Raise (FileNotFound "missing"))
    /\ rm now "/missing" (init now0)
       = (init now0, Raise (FileNotFound "missing"))
    /\ kind_of (FileNotFound "missing") = Some NotFound.
Proof. intros now0 now. repeat split; vm_compute; reflexivity. Qed.

(** Below a file, [ls] does not even reach [_assert_dir]: the file has no
    [get_child]. *)
Lemma ls_below_file_raises_AttributeError :
  forall now0 now1 now : Z,
    snd (ls now "/f/x" (fst (touch now1 "/f" (init now0))))
    = Raise (AttributeError "get_child")
    /\ kind_of (AttributeError "get_child") = None.
Proof. intros now0 now1 now. split; vm_compute; reflexivity. Qed.

(** C5, refuted as stated.  The file [/docs/hello.txt] was made at clock
    reading 2; after [write] at clock reading 3 its content and its size
    are the new ones, and its last-modified timestamp is still 2. *)
Lemma write_leaves_modified :
  exists i m,
    tbl (fst (write 3 "/docs/hello.txt" (Str "hi") with_file)) !! 2
    = Some (File i m (list_byte_of_string "hi"))
    /\ size m = 2
    /\ modified m = 2
    /\ modified m <> 3.
Proof.
  eexists _, _. split; [vm_compute; reflexivity|].
  cbn. repeat split; lia.
Qed.

(** C5, as the code has it.  When the final component of the path names
    an inode in the parent directory, resolution has allocated nothing
    and changed nothing.  If that inode is a file, [write] of the bytes
    [b] returns and the only change is to that file, in place: its
    content is [b], its size the length of [b], and its identity,
    creation time, last-modified time and permissions are what they
    were.  If the inode is a directory, [write] of bytes raises
    [NotDirectory] and the namespace is what it was.  In both cases
    [write] of a [str] does what [write] of its UTF-8 bytes does, or
    raises [UnicodeEncodeError] and changes nothing when [encode]
    refuses the [str]. *)
Theorem write_overwrites_in_place :
  forall (s s1 : VFS) (now : Z) (path : string)
         (pid : Z) (name : string) j m c (child : Z),
    wf s ->
    _split_path now path s = (s1, Ok (pid, name)) ->
    tbl s1 !! pid = Some (Directory j m c) ->
    rbtree.getitem name c = Ok child ->
    s1 = s
    /\ (forall i fm content,
          tbl s !! child = Some (File i fm content) ->
          forall b : list byte,
            write now path (Bytes b) s
            = (store s child
                 (File i {| created := created fm;
                            modified := modified fm;
                            size := Z.of_nat (length b);
                            perms := perms fm |}
                       b),
               Ok tt))
    /\ (forall i dm dc,
          tbl s !! child = Some (Directory i dm dc) ->
          forall b : list byte,
            write now path (Bytes b) s = (s, Raise (NotDirectory name)))
    /\ (forall (str : py.pystr) (b : list byte),
          py.encode str = Ok b ->
          write now path (Str str) s = write now path (Bytes b) s)
    /\ (forall (str : py.pystr) (e : exn),
          py.encode str = Raise e ->
          write now path (Str str) s = (s, Raise UnicodeEncodeError)).
Proof.
  intros s s1 now path pid name j m c child W Hs T G.
  assert (E : s1 = s).
  { pose proof Hs as Hs'. apply split_path_ok in Hs' as (_ & _ & Hw).
    destruct (walk_found_or_fresh _ _ _ _ _ _ W Hw) as [[E _]|(_ & _ & T')];
      [assumption|].
    rewrite T in T'. injection T' as _ _ ->. discriminate G. }
  subst s1. split; [reflexivity|].
  split; [|split; [|split]].
  - intros i fm content F b.
    rewrite (write_encoded now path (Bytes b) b s eq_refl).
    unfold write_bytes.
    rewrite (resolve_parent_of_split _ _ _ _ _ _ Hs), T.
    cbn [get_child]. rewrite G. unfold get. rewrite F. reflexivity.
  - intros i dm dc F b.
    rewrite (write_encoded now path (Bytes b) b s eq_refl).
    unfold write_bytes.
    rewrite (resolve_parent_of_split _ _ _ _ _ _ Hs), T.
    cbn [get_child]. rewrite G. unfold get. rewrite F. reflexivity.
  - intros str b Hb.
    rewrite (write_encoded now path (Str str) b s Hb).
    rewrite (write_encoded now path (Bytes b) b s eq_refl). reflexivity.
  - intros str e He. pose proof (encode_raise str e He) as ->.
    apply write_unencoded. exact He.
Qed.

Lemma wf_with_file : wf with_file.
Proof. apply wf_run_all. Qed.

Lemma write_overwrites_in_place_witness :
  write 3 "/docs/hello.txt" (Bytes [xff; x00; xfe]) with_file
  = (store with_file 2
       (File 2 {| created := 2; modified := 2; size := 3; perms := "rw" |}
             [xff; x00; xfe]),
     Ok tt).
Proof.
  refine (proj1 (proj2 (write_overwrites_in_place with_file with_file 3
            "/docs/hello.txt" 1 "hello.txt" 1 (new_Meta 1)
            [("hello.txt"%string, 2)] 2 wf_with_file _ _ _))
            2 (new_Meta 2) [] _ [xff; x00; xfe]);
    vm_compute; reflexivity.
Defined.

(** C6.  In a well-formed namespace, when [mkdir(p)] has returned, a
    second [mkdir(p)] raises [FileExists] and changes nothing; and
    whenever the final component of a path names a child of the parent
    directory, whatever that child is, [mkdir] and [touch] both raise
    [FileExists]. *)
Theorem mkdir_touch_already_exists :
  forall (s : VFS) (now : Z) (path : string),
    wf s ->
    (forall s' now',
       mkdir now path s = (s', Ok tt) ->
       mkdir now' path s'
       = (s', Raise (FileExists (final (parts_after_root path)))))
    /\ (forall s1 pid name j m c child,
          _split_path now path s = (s1, Ok (pid, name)) ->
          tbl s1 !! pid = Some (Directory j m c) ->
          rbtree.getitem name c = Ok child ->
          mkdir now path s = (s1, Raise (FileExists name))
          /\ touch now path s = (s1, Raise (FileExists name))).
Proof.
  intros s now path W. split.
  - intros s' now'. unfold mkdir at 1.
    destruct (_split_path now path s) as [s1 [[pid name]|e]] eqn:Hs.
    2:{ unfold resolve_parent. rewrite Hs. discriminate. }
    rewrite (resolve_parent_of_split _ _ _ _ _ _ Hs).
    destruct (tbl s1 !! pid) as [[j m c|j m c]|] eqn:T; try discriminate.
    cbn [get_child].
    destruct (rbtree.getitem name c) as [x|e] eqn:G; [discriminate|].
    apply rbtree_props.getitem_raise in G. subst e.
    rewrite create_dir_ok. intros Hm. same_state Hm.
    pose proof (split_path_wf now path s W) as W1.
    rewrite Hs in W1. cbn [fst] in W1.
    assert (Hs' : _split_path now' path
                    (fst (create s1 pid (Directory j m c) name
                            (new_Directory now (-1))))
                  = (fst (create s1 pid (Directory j m c) name
                            (new_Directory now (-1))), Ok (pid, name))).
    { eapply resolve_again; [exact W | exact Hs |].
      apply agree_below_create; assumption. }
    apply split_path_ok in Hs as (_ & <- & _).
    unfold mkdir. rewrite (resolve_parent_of_split _ _ _ _ _ _ Hs').
    rewrite tbl_create. case_decide; [|congruence].
    cbn [get_child]. rewrite rbtree_props.getitem_setitem. reflexivity.
  - intros s1 pid name j m c child Hs T G.
    unfold mkdir, touch.
    rewrite (resolve_parent_of_split _ _ _ _ _ _ Hs), T.
    cbn [get_child]. rewrite G. auto.
Qed.

Lemma mkdir_touch_already_exists_witness :
  mkdir 2 "/docs" (fst (mkdir 1 "/docs" fresh))
  = (fst (mkdir 1 "/docs" fresh), Raise (FileExists "docs")).
Proof.
  refine (proj1 (mkdir_touch_already_exists fresh 1 "/docs" (wf_init 0))
            (fst (mkdir 1 "/docs" fresh)) 2 _).
  vm_compute. reflexivity.
Defined.

(** C7.  In a well-formed namespace, when [write(p, b)] has returned
    for bytes [b], whatever they are, [read(p)] returns exactly [b] and
    changes nothing; when [write(p, str)] has returned for a [str],
    [read(p)] returns the UTF-8 bytes of [str]; on a fresh namespace
    [write] of bytes returns for every absolute path; and there the
    three characters U+00E9, U+20AC and U+1F600 written as a [str] are
    read back as their nine UTF-8 bytes. *)
Theorem write_then_read :
  forall (s : VFS) (now : Z) (path : string),
    wf s ->
    (forall (b : list byte) s' now',
       write now path (Bytes b) s = (s', Ok tt) ->
       read now' path s' = (s', Ok b))
    /\ (forall (str : py.pystr) s' now',
          write now path (Str str) s = (s', Ok tt) ->
          exists b, py.encode str = Ok b /\ read now' path s' = (s', Ok b))
    /\ (forall (b : list byte) now0,
          s = init now0 -> is_absolute path = true ->
          snd (write now path (Bytes b) s) = Ok tt)
    /\ (let r := write 1 "/t" (Str [233; 8364; 128512]%N) (init 0) in
        snd r = Ok tt
        /\ snd (read 2 "/t" (fst r))
           = Ok [xc3; xa9; xe2; x82; xac; xf0; x9f; x98; x80]).
Proof.
  intros s now path W.
  assert (Hb : forall (b : list byte) s' now',
             write_bytes now path b s = (s', Ok tt) ->
             read now' path s' = (s', Ok b)).
  { intros b s' now'. unfold write_bytes.
    destruct (_split_path now path s) as [s1 [[pid name]|e]] eqn:Hs.
    2:{ unfold resolve_parent. rewrite Hs. discriminate. }
    rewrite (resolve_parent_of_split _ _ _ _ _ _ Hs).
    pose proof (split_path_wf now path s W) as W1.
    rewrite Hs in W1. cbn [fst] in W1.
    destruct (tbl s1 !! pid) as [[j m c|j m c]|] eqn:T; try discriminate.
    pose proof (read_after_create now path s s1 pid name j m c
                  b now' W Hs T) as Hnew.
    cbv zeta in Hnew.
    cbn [get_child].
    destruct (rbtree.getitem name c) as [x|e] eqn:G.
    + unfold get. destruct (tbl s1 !! x) as [[j' m' c'|j' m' c']|] eqn:F.
      * discriminate.
      * intros [= <-].
        apply rbtree_props.getitem_elem in G as Hin.
        pose proof (wf_child s1 W1 _ _ _ _ _ _ T Hin).
        eapply read_file.
        -- eapply resolve_again; [exact W | exact Hs |].
           apply agree_below_store. lia.
        -- rewrite tbl_store. case_decide; [lia | exact T].
        -- exact G.
        -- rewrite tbl_store. case_decide; [reflexivity | congruence].
      * rewrite create_dir_ok. intros Hm. same_state Hm. exact Hnew.
    + apply rbtree_props.getitem_raise in G. subst e.
      rewrite create_dir_ok. intros Hm. same_state Hm. exact Hnew. }
  split; [|split; [|split; [|split; vm_compute; reflexivity]]].
  - intros b s' now'.
    rewrite (write_encoded now path (Bytes b) b s eq_refl). apply Hb.
  - intros str s' now'. unfold write. cbn [to_bytes].
    destruct (py.encode str) as [b|e]; [|discriminate].
    intros Hw. exists b. split; [reflexivity|]. eapply Hb. exact Hw.
  - intros b now0 -> Habs.
    rewrite (write_encoded now path (Bytes b) b _ eq_refl).
    unfold write_bytes, resolve_parent, _split_path.
    rewrite Habs. cbn [negb].
    destruct (walk now (but_last (parts_after_root path))
                (root_id (init now0)) (init now0)) as [s1 r] eqn:Hw.
    eapply walk_from_empty in Hw as (p & m' & -> & _ & Tp & _);
      [|apply wf_init|vm_compute; reflexivity].
    unfold _assert_dir, get. rewrite Tp. cbn.
    reflexivity.
Qed.

Lemma write_then_read_witness :
  read 4 "/docs/hello.txt"
    (fst (write 3 "/docs/hello.txt" (Bytes [xff; x00; xfe]) with_file))
  = (fst (write 3 "/docs/hello.txt" (Bytes [xff; x00; xfe]) with_file),
     Ok [xff; x00; xfe]).
Proof.
  refine (proj1 (write_then_read with_file 3 "/docs/hello.txt" wf_with_file)
            [xff; x00; xfe] _ 4 _).
  vm_compute. reflexivity.
Defined.

(** C9.  The identity that [allocate] returns is resolvable at once; an
    identity that is resolvable stays resolvable through every session
    of commands; in every state of a session that starts with [VFS()],
    every identity below the counter, that is every identity [allocate]
    has ever returned, is resolvable; and when [rm] returns, the state it
    leaves is the state left by resolution with one change, to the parent
    directory, whose index has lost the item of that name and nothing
    else, the entry of the removed inode being still in the table. *)
Theorem table_never_forgets :
  (forall (t : InodeTable) (inode : Inode),
     get (fst (allocate t inode)) (snd (allocate t inode))
     = Ok (set_id (_next_id t) inode))
  /\ (forall (l : list (Z * op)) (s : VFS) (i : Z),
        is_Some (tbl s !! i) ->
        exists n, get (table (run_all l s)) i = Ok n)
  /\ (forall (now : Z) (l : list (Z * op)) (i : Z),
        0 <= i < nxt (run_all l (init now)) ->
        exists n, get (table (run_all l (init now))) i = Ok n)
  /\ (forall (s s' : VFS) (now : Z) (path : string),
        rm now path s = (s', Ok tt) ->
        exists s1 pid name j m c child,
          _split_path now path s = (s1, Ok (pid, name))
          /\ tbl s1 !! pid = Some (Directory j m c)
          /\ rbtree.getitem name c = Ok child
          /\ s' = store s1 pid (Directory j m (rbtree.remove name c))
          /\ (forall other, other <> name ->
                rbtree.getitem other (rbtree.remove name c)
                = rbtree.getitem other c)
          /\ (is_Some (tbl s1 !! child) -> is_Some (tbl s' !! child))).
Proof.
  split; [|split; [|split]].
  - intros t inode. unfold allocate, get. cbn [fst snd _table].
    rewrite id_set_id, lookup_insert_eq. reflexivity.
  - intros l s i Hi.
    pose proof (prims_keep_entries _ _ (run_all_prims l s) i Hi) as [n Hn].
    exists n. unfold get. rewrite Hn. reflexivity.
  - intros now l i Hi.
    pose proof (prims_all_allocated _ _ (run_all_prims l (init now))
                  (all_allocated_init now) i Hi) as [n Hn].
    exists n. unfold get. rewrite Hn. reflexivity.
  - intros s s' now path. unfold rm.
    destruct (_split_path now path s) as [s1 [[pid name]|e]] eqn:Hs.
    2:{ unfold resolve_parent. rewrite Hs. discriminate. }
    rewrite (resolve_parent_of_split _ _ _ _ _ _ Hs).
    destruct (tbl s1 !! pid) as [[j m c|j m c]|] eqn:T; try discriminate.
    cbn [get_child del_child]. unfold rbtree.delitem.
    destruct (rbtree.getitem name c) as [child|e] eqn:G.
    + intros [= <-]. exists s1, pid, name, j, m, c, child.
      repeat split; auto.
      * intros other Hne. apply rbtree_props.getitem_remove_ne. congruence.
      * intros Hc. rewrite tbl_store. case_decide; eauto.
    + apply rbtree_props.getitem_raise in G. subst e. discriminate.
Qed.

Lemma table_never_forgets_witness :
  exists n, get (table (run_all [(3, Rm "/docs")] with_file)) 2 = Ok n.
Proof.
  refine (proj1 (proj2 table_never_forgets) [(3, Rm "/docs")] with_file 2 _).
  vm_compute. eexists. reflexivity.
Defined.

(** C10.  [allocate] returns the counter, advances it by one, and stores
    the inode under that identity with its [id] field overwritten by it;
    the counter starts at 0, so the root directory, made with the
    placeholder -1, is stored under 0 with [id] 0; every inode of every
    state of a session is stored under its own [id], which lies between
    0 and the counter and so is never the placeholder; and each command
    keeps the invariant that inodes are stored under their own [id]. *)
Theorem stored_id_is_key :
  (forall (t : InodeTable) (inode : Inode),
     snd (allocate t inode) = _next_id t
     /\ _next_id (fst (allocate t inode)) = _next_id t + 1
     /\ _table (fst (allocate t inode)) !! _next_id t
        = Some (set_id (_next_id t) inode)
     /\ node.id (set_id (_next_id t) inode) = _next_id t)
  /\ _next_id inode_table.init = 0
  /\ (forall now,
        root_id (init now) = 0
        /\ tbl (init now) !! 0 = Some (Directory 0 (new_Meta now) []))
  /\ (forall now l i n,
        tbl (run_all l (init now)) !! i = Some n ->
        node.id n = i
        /\ 0 <= node.id n < nxt (run_all l (init now))
        /\ node.id n <> -1)
  /\ (forall now o s, ids_match s -> ids_match (fst (run now o s))).
Proof.
  split; [|split; [|split; [|split]]].
  - intros t inode. unfold allocate. cbn [fst snd _table _next_id].
    rewrite id_set_id, lookup_insert_eq. auto.
  - reflexivity.
  - intros now. split; reflexivity.
  - intros now l i n Hn.
    pose proof (prims_ids_match _ _ (run_all_prims l (init now))
                  (ids_match_init now) i n Hn) as Hid.
    pose proof (prims_keys_in_range _ _ (run_all_prims l (init now))
                  (keys_in_range_init now)) as [_ K].
    apply K in Hn. lia.
  - intros now o s. apply prims_ids_match, run_prims.
Qed.

Lemma stored_id_is_key_witness :
  ids_match fresh /\ ids_match (fst (run 1 (Mkdir "/docs") fresh)).
Proof.
  split; [apply ids_match_init|].
  exact (proj2 (proj2 (proj2 (proj2 stored_id_is_key)))
           1 (Mkdir "/docs") fresh (ids_match_init 0)).
Defined.

End vfs_theorems.

(** ** More invariants of the namespace *)

Module vfs_more_invariants.
Import node inode_table vfs vfs_spec vfs_props vfs_invariants walk_props
       vfs_ops vfs_more.

Lemma reachable_init now : reachable (init now).
Proof. exists now, []. reflexivity. Qed.

Lemma reachable_prims s : reachable s -> exists now, rtc prim (init now) s.
Proof. intros (now & l & ->). exists now. apply run_all_prims. Qed.

Lemma reachable_wf s : reachable s -> wf s.
Proof. intros (now & l & ->). apply wf_run_all. Qed.

Lemma run_all_app l1 : forall l2 s,
  run_all (l1 ++ l2) s = run_all l2 (run_all l1 s).
Proof.
  induction l1 as [|[now o] l1 IH]; intros l2 s; [reflexivity|].
  simpl. apply IH.
Qed.

Lemma reachable_run now o s : reachable s -> reachable (fst (run now o s)).
Proof.
  intros (now0 & l & ->). exists now0, (l ++ [(now, o)]).
  rewrite run_all_app. reflexivity.
Qed.

(** *** Sorted directories *)





(** *** No dangling identity *)

Lemma prim_closed s s' : prim s s' -> wf s -> closed s -> closed s'.
Proof.
  intros P W [R C].
  assert (K : forall i, is_Some (tbl s !! i) -> is_Some (tbl s' !! i))
    by (apply prim_keeps_entries; exact P).
  pose proof (root_prim _ _ P) as Hroot.
  destruct P as [s i0 n name inode T D F|s i0 n name T D|s i0 j m c data T].
  - apply is_dir_inv in D as (j & m & c & ->).
    pose proof (wf_dom s W _ _ T) as Hi0.
    split.
    + rewrite Hroot, tbl_create. destruct R as (j0 & m0 & c0 & R).
      repeat case_decide; subst; eauto. apply (wf_dom s W) in R. lia.
    + intros k j' m' c' nm child. rewrite tbl_create.
      repeat case_decide; subst.
      * intros [= <- <- <-] Hin.
        apply rbtree_props.elem_setitem in Hin as [[= _ ->]|Hin].
        -- rewrite tbl_create. repeat case_decide; eauto; congruence.
        -- apply K. eapply C; eauto.
      * intros [= Hn] Hin. apply (fresh_inode_no_children _ _ _ _ _ F) in Hn.
        subst c'. apply elem_of_nil in Hin. contradiction.
      * intros Hk Hin. apply K. eapply C; eauto.
  - apply is_dir_inv in D as (j & m & c & ->).
    split.
    + rewrite Hroot, tbl_store. destruct R as (j0 & m0 & c0 & R).
      case_decide; subst; [|eauto].
      simpl. destruct (rbtree.delitem name c). eauto.
    + intros k j' m' c' nm child Hk Hin. apply K. revert Hk Hin.
      rewrite tbl_store. case_decide; subst.
      * simpl. unfold rbtree.delitem.
        destruct (rbtree.getitem name c); intros [= <- <- <-] Hin;
          [apply rbtree_props.elem_remove in Hin|]; eapply C; eauto.
      * intros Hk Hin. eapply C; eauto.
  - split.
    + rewrite Hroot, tbl_store. destruct R as (j0 & m0 & c0 & R).
      case_decide; subst; [congruence | eauto].
    + intros k j' m' c' nm child. rewrite tbl_store.
      case_decide; subst; [discriminate|].
      intros Hk Hin. apply K. eapply C; eauto.
Qed.

Lemma prims_closed s s' : rtc prim s s' -> wf s -> closed s -> closed s'.
Proof.
  induction 1 as [|s s1 s2 P _ IH]; [auto|].
  intros W C. apply IH; [eapply prim_wf | eapply prim_closed]; eauto.
Qed.

Lemma closed_init now : closed (init now).
Proof.
  split.
  - unfold init. simpl. rewrite lookup_insert_eq. eauto.
  - intros i j m c nm child. unfold init. simpl. rewrite lookup_insert.
    case_decide; [|rewrite lookup_empty; discriminate].
    intros [= <- <- <-] Hin. apply elem_of_nil in Hin. contradiction.
Qed.

Lemma reachable_closed s : reachable s -> closed s.
Proof.
  intros (now & l & ->).
  eapply prims_closed; [apply run_all_prims | apply wf_init | apply closed_init].
Qed.

(** *** Sizes and permissions *)

Lemma prim_sizes_ok s s' : prim s s' -> sizes_ok s -> sizes_ok s'.
Proof.
  intros P S.
  destruct P as [s i0 n name inode T D F|s i0 n name T D|s i0 j m c data T].
  - apply is_dir_inv in D as (j & m & c & ->).
    intros k x. rewrite tbl_create. repeat case_decide; subst.
    + intros [= <-]. apply (S _ _ T).
    + intros [= <-].
      destruct F as [[now ->]|[now [data ->]]]; simpl; auto.
    + apply S.
  - apply is_dir_inv in D as (j & m & c & ->).
    intros k x. rewrite tbl_store. case_decide; subst; [|apply S].
    simpl. destruct (rbtree.delitem name c). intros [= <-]. apply (S _ _ T).
  - intros k x. rewrite tbl_store. case_decide; subst; [|apply S].
    intros [= <-]. destruct (S _ _ T) as [_ Hp]. simpl in *. auto.
Qed.

Lemma prims_sizes_ok s s' : rtc prim s s' -> sizes_ok s -> sizes_ok s'.
Proof. induction 1; eauto using prim_sizes_ok. Qed.

Lemma sizes_ok_init now : sizes_ok (init now).
Proof.
  intros i n. unfold init. simpl. rewrite lookup_insert.
  case_decide; [|rewrite lookup_empty; discriminate].
  intros [= <-]. simpl. auto.
Qed.

(** *** What stays of an inode *)

Lemma same_inode_refl n : same_inode n n.
Proof. repeat split. Qed.

Lemma same_inode_trans n1 n2 n3 :
  same_inode n1 n2 -> same_inode n2 n3 -> same_inode n1 n3.
Proof.
  unfold same_inode. intros (A1 & A2 & A3 & A4 & A5) (B1 & B2 & B3 & B4 & B5).
  repeat split; congruence.
Qed.

Lemma prim_inodes_kept s s' : prim s s' -> wf s -> inodes_kept s s'.
Proof.
  intros P W.
  destruct P as [s i0 n name inode T D F|s i0 n name T D|s i0 j m c data T].
  - apply is_dir_inv in D as (j & m & c & ->).
    intros k x Hx. rewrite tbl_create. pose proof (wf_dom s W _ _ Hx).
    repeat case_decide; subst; try lia.
    + rewrite T in Hx. injection Hx as <-. eexists. split; [reflexivity|].
      repeat split.
    + eexists. split; [exact Hx | apply same_inode_refl].
  - apply is_dir_inv in D as (j & m & c & ->).
    intros k x Hx. rewrite tbl_store. case_decide; subst.
    + rewrite T in Hx. injection Hx as <-. simpl.
      destruct (rbtree.delitem name c). eexists. split; [reflexivity|].
      repeat split.
    + eexists. split; [exact Hx | apply same_inode_refl].
  - intros k x Hx. rewrite tbl_store. case_decide; subst.
    + rewrite T in Hx. injection Hx as <-. eexists. split; [reflexivity|].
      repeat split.
    + eexists. split; [exact Hx | apply same_inode_refl].
Qed.

Lemma prims_inodes_kept s s' : rtc prim s s' -> wf s -> inodes_kept s s'.
Proof.
  induction 1 as [s|s s1 s2 P _ IH]; intros W.
  - intros i n Hn. exists n. split; [exact Hn | apply same_inode_refl].
  - intros i n Hn.
    destruct (prim_inodes_kept _ _ P W i n Hn) as (n1 & Hn1 & E1).
    destruct (IH (prim_wf _ _ P W) i n1 Hn1) as (n2 & Hn2 & E2).
    exists n2. split; [exact Hn2 | eapply same_inode_trans; eauto].
Qed.

End vfs_more_invariants.

(** ** Paths built from their components *)

Module path_props.
Import node inode_table vfs vfs_spec.

Lemma split_noslash n : no_slash n = true -> split_slash n = [n].
Proof.
  induction n as [|a n IH]; [reflexivity|]. cbn [no_slash split_slash].
  intros H. apply andb_true_iff in H as [Ha Hn].
  apply negb_true_iff in Ha. rewrite Ha, (IH Hn). reflexivity.
Qed.

Lemma split_app d rest :
  no_slash d = true ->
  split_slash (d ++ String "/" rest) = d :: split_slash rest.
Proof.
  induction d as [|a d IH]; [reflexivity|]. cbn [no_slash].
  intros H. apply andb_true_iff in H as [Ha Hd].
  apply negb_true_iff in Ha.
  change (String a d ++ String "/" rest)%string
    with (String a (d ++ String "/" rest)).
  cbn [split_slash]. rewrite Ha, (IH Hd). reflexivity.
Qed.

Lemma join_cons c d rest :
  join (c :: d :: rest) = (c ++ String "/" (join (d :: rest)))%string.
Proof. reflexivity. Qed.

Lemma split_join comps :
  Forall component comps -> comps <> [] -> split_slash (join comps) = comps.
Proof.
  induction 1 as [|c rest [Kc Sc] Hrest IH]; [contradiction|]. intros _.
  destruct rest as [|d rest].
  - cbn [join]. apply split_noslash. exact Sc.
  - rewrite join_cons, (split_app c _ Sc). f_equal. apply IH. discriminate.
Qed.

Lemma filter_kept comps :
  Forall component comps -> List.filter kept comps = comps.
Proof.
  induction 1 as [|c rest [Kc _] _ IH]; [reflexivity|].
  cbn [List.filter]. rewrite Kc, IH. reflexivity.
Qed.

Lemma path_to_eq comps : path_to comps = String "/" (join comps).
Proof. reflexivity. Qed.

(** The components of [path_to comps] are [comps]. *)
Lemma parts_path_to comps :
  Forall component comps -> parts_after_root (path_to comps) = comps.
Proof.
  intros F. unfold parts_after_root. rewrite path_to_eq.
  change (split_slash (String "/" (join comps)))
    with (EmptyString :: split_slash (join comps)).
  cbn [List.filter]. change (kept "") with false. cbv iota.
  destruct comps as [|c rest]; [reflexivity|].
  rewrite (split_join _ F) by discriminate. apply filter_kept. exact F.
Qed.

Lemma is_absolute_path_to comps : is_absolute (path_to comps) = true.
Proof. reflexivity. Qed.

Lemma path_to_not_root c rest :
  component c -> path_to (c :: rest) <> "/"%string.
Proof.
  intros [Kc _] E. rewrite path_to_eq in E. injection E as E.
  destruct c as [|a c]; [discriminate|]. destruct rest; discriminate.
Qed.

Lemma but_last_snoc (dirs : list string) name : but_last (dirs ++ [name]) = dirs.
Proof. apply removelast_last. Qed.

Lemma final_snoc (dirs : list string) name : final (dirs ++ [name]) = name.
Proof. apply last_last. Qed.

End path_props.

(** ** What a command can change and what it can raise *)

Module vfs_outcomes.
Import node inode_table vfs vfs_spec vfs_props vfs_invariants walk_props
       vfs_ops vfs_more vfs_more_invariants.

(** Resolution raises before it has changed anything. *)
Lemma split_path_raise now path s s1 e :
  wf s -> _split_path now path s = (s1, Raise e) -> s1 = s.
Proof.
  intros W. unfold _split_path.
  destruct (negb (is_absolute path)); [intros [= <- _]; reflexivity|].
  destruct (walk _ _ _ _) as [s' [p|e']] eqn:Hw; [discriminate|].
  intros [= <- _]. eapply walk_raise; eauto.
Qed.

(** Resolution has changed something only when the parent it returns is
    a directory it has just made. *)
Lemma split_path_fresh now path s s1 pid name :
  wf s -> _split_path now path s = (s1, Ok (pid, name)) ->
  s1 = s \/ tbl s1 !! pid = Some (Directory pid (new_Meta now) []).
Proof.
  intros W Hs. apply split_path_ok in Hs as (_ & _ & Hw).
  destruct (walk_found_or_fresh _ _ _ _ _ _ W Hw) as [[E _]|(_ & _ & T)];
    auto.
Qed.

Ltac resolved Hs W :=
  let H := fresh "Hfresh" in
  let T := fresh "T" in
  pose proof (split_path_fresh _ _ _ _ _ _ W Hs) as H;
  rewrite (resolve_parent_of_split _ _ _ _ _ _ Hs);
  destruct (tbl _ !! _) as [[?j ?m ?c|?j ?m ?c]|] eqn:T;
  [ | destruct H as [->|H]; [|discriminate]
    | destruct H as [->|H]; [|discriminate] ].

Lemma mkdir_change now path s s' r :
  wf s -> mkdir now path s = (s', r) -> s' = s \/ r = Ok tt.
Proof.
  intros W. unfold mkdir.
  destruct (_split_path now path s) as [s1 [[pid name]|e]] eqn:Hs.
  2:{ unfold resolve_parent. rewrite Hs.
      apply split_path_raise in Hs as ->; [|exact W]. intros [= <- _]. auto. }
  resolved Hs W; try (intros [= <- _]; auto).
  cbn [get_child]. destruct (rbtree.getitem name c) as [x|e] eqn:G.
  - destruct Hfresh as [->|Hf]; [intros [= <- _]; auto|].
    injection Hf as _ _ ->. discriminate G.
  - apply rbtree_props.getitem_raise in G. subst e.
    rewrite create_dir_ok. intros [= _ <-]. auto.
Qed.

Lemma touch_change now path s s' r :
  wf s -> touch now path s = (s', r) -> s' = s \/ r = Ok tt.
Proof.
  intros W. unfold touch.
  destruct (_split_path now path s) as [s1 [[pid name]|e]] eqn:Hs.
  2:{ unfold resolve_parent. rewrite Hs.
      apply split_path_raise in Hs as ->; [|exact W]. intros [= <- _]. auto. }
  resolved Hs W; try (intros [= <- _]; auto).
  cbn [get_child]. destruct (rbtree.getitem name c) as [x|e] eqn:G.
  - destruct Hfresh as [->|Hf]; [intros [= <- _]; auto|].
    injection Hf as _ _ ->. discriminate G.
  - apply rbtree_props.getitem_raise in G. subst e.
    rewrite create_dir_ok. intros [= _ <-]. auto.
Qed.

Lemma write_bytes_change now path data s s' r :
  wf s -> write_bytes now path data s = (s', r) -> s' = s \/ r = Ok tt.
Proof.
  intros W. unfold write_bytes.
  destruct (_split_path now path s) as [s1 [[pid name]|e]] eqn:Hs.
  2:{ unfold resolve_parent. rewrite Hs.
      apply split_path_raise in Hs as ->; [|exact W]. intros [= <- _]. auto. }
  resolved Hs W; try (intros [= <- _]; auto).
  cbn [get_child]. destruct (rbtree.getitem name c) as [x|e] eqn:G.
  - unfold get. destruct (tbl s1 !! x) as [[j' m' c'|j' m' c']|].
    + destruct Hfresh as [->|Hf]; [intros [= <- _]; auto|].
      injection Hf as _ _ ->. discriminate G.
    + intros [= _ <-]. auto.
    + rewrite create_dir_ok. intros [= _ <-]. auto.
  - apply rbtree_props.getitem_raise in G. subst e.
    rewrite create_dir_ok. intros [= _ <-]. auto.
Qed.

Lemma write_change now path data s s' r :
  wf s -> write now path data s = (s', r) -> s' = s \/ r = Ok tt.
Proof.
  intros W. unfold write. destruct (to_bytes data) as [b|e].
  - apply write_bytes_change. exact W.
  - intros [= <- _]. auto.
Qed.

Lemma read_change now path s s' r :
  wf s -> read now path s = (s', r) ->
  s' = s \/ exists name, r = Raise (FileNotFound name).
Proof.
  intros W. unfold read.
  destruct (_split_path now path s) as [s1 [[pid name]|e]] eqn:Hs.
  2:{ unfold resolve_parent. rewrite Hs.
      apply split_path_raise in Hs as ->; [|exact W]. intros [= <- _]. auto. }
  resolved Hs W; try (intros [= <- _]; auto).
  cbn [get_child]. destruct (rbtree.getitem name c) as [x|e] eqn:G.
  - destruct Hfresh as [->|Hf].
    + destruct (get (table s) x) as [[j' m' c'|j' m' c']|];
        intros [= <- _]; auto.
    + injection Hf as _ _ ->. discriminate G.
  - apply rbtree_props.getitem_raise in G. subst e.
    intros [= _ <-]. eauto.
Qed.

Lemma ls_change now path s s' r :
  wf s -> ls now path s = (s', r) ->
  s' = s \/ exists name, r = Raise (KeyError (KStr name)).
Proof.
  intros W. unfold ls. destruct (String.eqb path "/");
    [intros [= <- _]; auto|].
  destruct (_split_path now path s) as [s1 [[pid name]|e]] eqn:Hs.
  2:{ apply split_path_raise in Hs as ->; [|exact W]. intros [= <- _]. auto. }
  destruct (split_path_fresh _ _ _ _ _ _ W Hs) as [->|Hf];
    [intros [= <- _]; auto|].
  unfold get. rewrite Hf. cbn [res_bind get_child rbtree.getitem].
  intros [= _ <-]. eauto.
Qed.

Lemma rm_change now path s s' r :
  wf s -> rm now path s = (s', r) ->
  s' = s \/ r = Ok tt \/ exists name, r = Raise (FileNotFound name).
Proof.
  intros W. unfold rm.
  destruct (_split_path now path s) as [s1 [[pid name]|e]] eqn:Hs.
  2:{ unfold resolve_parent. rewrite Hs.
      apply split_path_raise in Hs as ->; [|exact W]. intros [= <- _]. auto. }
  resolved Hs W; try (intros [= <- _]; auto).
  cbn [get_child del_child]. unfold rbtree.delitem.
  destruct (rbtree.getitem name c) as [x|e] eqn:G.
  - intros [= _ <-]. auto.
  - apply rbtree_props.getitem_raise in G. subst e.
    intros [= _ <-]. eauto.
Qed.

(** X1 (what can change the namespace).  In a well-formed namespace a
    command has changed something only if it returned [None] ([mkdir],
    [touch], [write], [rm]) or raised [FileNotFound] or the index's
    [KeyError].  So a [read] or an [ls] that returns, and every command
    that raises [FSException], [NotDirectory], [FileExists] or
    [AttributeError], leaves the namespace exactly as it was. *)
Theorem only_these_outcomes_change :
  forall (s s' : VFS) (now : Z) (o : op) (r : res value),
    wf s ->
    run now o s = (s', r) ->
    s' = s
    \/ r = Ok VNone
    \/ (exists name, r = Raise (FileNotFound name))
    \/ (exists name, r = Raise (KeyError (KStr name))).
Proof.
  intros s s' now o r W.
  destruct o as [p|p|p d|p|p|p]; cbn [run].
  - destruct (mkdir now p s) as [s1 r1] eqn:E.
    destruct (mkdir_change _ _ _ _ _ W E) as [->| ->];
      [destruct r1|]; intros [= <- <-]; auto.
  - destruct (touch now p s) as [s1 r1] eqn:E.
    destruct (touch_change _ _ _ _ _ W E) as [->| ->];
      [destruct r1|]; intros [= <- <-]; auto.
  - destruct (write now p d s) as [s1 r1] eqn:E.
    destruct (write_change _ _ _ _ _ _ W E) as [->| ->];
      [destruct r1|]; intros [= <- <-]; auto.
  - destruct (read now p s) as [s1 r1] eqn:E.
    destruct (read_change _ _ _ _ _ W E) as [->|[name ->]];
      [destruct r1|]; intros [= <- <-]; eauto.
  - destruct (ls now p s) as [s1 r1] eqn:E.
    destruct (ls_change _ _ _ _ _ W E) as [->|[name ->]];
      [destruct r1|]; intros [= <- <-]; eauto 6.
  - destruct (rm now p s) as [s1 r1] eqn:E.
    destruct (rm_change _ _ _ _ _ W E) as [->|[->|[name ->]]];
      [destruct r1| |]; intros [= <- <-]; eauto.
Qed.

Lemma only_these_outcomes_change_witness :
  fst (run 3 (Read "/docs/hello.txt") with_file) = with_file
  \/ snd (run 3 (Read "/docs/hello.txt") with_file) = Ok VNone
  \/ (exists name, snd (run 3 (Read "/docs/hello.txt") with_file)
                   = Raise (FileNotFound name))
  \/ (exists name, snd (run 3 (Read "/docs/hello.txt") with_file)
                   = Raise (KeyError (KStr name))).
Proof.
  apply (only_these_outcomes_change with_file _ 3 (Read "/docs/hello.txt") _
           (wf_run_all 0 _)).
  apply surjective_pairing.
Defined.

End vfs_outcomes.

(** ** The exceptions of the six commands *)

Module vfs_errors.
Import node inode_table vfs vfs_spec vfs_props vfs_invariants walk_props
       vfs_ops vfs_more vfs_more_invariants vfs_outcomes.

(** In a namespace without dangling identities the loop of [_split_path]
    can only raise [NotDirectory], and what it returns is in the table. *)
Lemma walk_closed now segs : forall cur s s1 r,
  wf s -> closed s -> is_Some (tbl s !! cur) ->
  walk now segs cur s = (s1, r) ->
  (exists p, r = Ok p /\ is_Some (tbl s1 !! p))
  \/ (exists seg, r = Raise (NotDirectory seg)).
Proof.
  induction segs as [|seg rest IH]; intros cur s s1 r W C [n Hn].
  - simpl. intros [= <- <-]. left. eauto.
  - rewrite walk_cons, Hn. destruct n as [j m c|j m c].
    + destruct (rbtree.getitem seg c) as [child|e] eqn:G; intros Hw.
      * apply rbtree_props.getitem_elem in G.
        eapply (IH child s s1 r W C); [|exact Hw].
        destruct C as [_ C]. eapply C; eauto.
      * pose proof (wf_dom s W _ _ Hn).
        eapply (walk_from_empty _ _ _ _ _ _ (new_Meta now)) in Hw
          as (p & m' & -> & _ & Tp & _).
        -- left. eauto.
        -- apply wf_create; assumption.
        -- rewrite tbl_create. repeat case_decide; try lia. reflexivity.
    + intros [= <- <-]. right. eauto.
Qed.

Lemma split_path_closed now path s s1 r :
  wf s -> closed s -> _split_path now path s = (s1, r) ->
  (exists pid name, r = Ok (pid, name) /\ is_Some (tbl s1 !! pid))
  \/ r = Raise (FSException "path must start with '/'")
  \/ (exists seg, r = Raise (NotDirectory seg)).
Proof.
  intros W C. unfold _split_path.
  destruct (negb (is_absolute path)); [intros [= <- <-]; auto|].
  destruct (walk _ _ _ _) as [s' r'] eqn:Hw.
  eapply walk_closed in Hw as [(p & -> & Hp)|(seg & ->)]; eauto.
  - intros [= <- <-]. left. eauto.
  - intros [= <- <-]. right. right. eauto.
  - destruct C as [(j & m & c & R) _]. eauto.
Qed.

Lemma split_path_keeps_closed now path s :
  wf s -> closed s -> closed (fst (_split_path now path s)).
Proof. intros W C. eapply prims_closed; eauto. apply split_path_prims. Qed.

(** The opening common to five commands, in a closed namespace. *)
Lemma resolve_parent_closed now path s s1 r :
  wf s -> closed s -> resolve_parent now path s = (s1, r) ->
  closed s1
  /\ ((exists pid name j m c,
         r = Ok (pid, name, Directory j m c)
         /\ tbl s1 !! pid = Some (Directory j m c))
      \/ r = Raise (FSException "path must start with '/'")
      \/ (exists ctx, r = Raise (NotDirectory ctx))).
Proof.
  intros W C. unfold resolve_parent.
  pose proof (split_path_keeps_closed now path s W C) as C1.
  destruct (_split_path now path s) as [s' r'] eqn:Hs. cbn [fst] in C1.
  destruct (split_path_closed _ _ _ _ _ W C Hs)
    as [(pid & name & -> & [n Hn])|[->|(seg & ->)]].
  - unfold _assert_dir, get. rewrite Hn. destruct n as [j m c|j m c];
      cbn [is_dir negb]; intros [= <- <-]; (split; [exact C1|]).
    + left. exists pid, name, j, m, c. auto.
    + right. right. eauto.
  - intros [= <- <-]. auto.
  - intros [= <- <-]. split; [exact C1|]. right. right. eauto.
Qed.

Ltac profile R :=
  destruct R as [C1 [(pid & name & j & m & c & -> & T)|[->|(ctx & ->)]]];
  [ | intros [= _ <-]; cbn; eauto 6 | intros [= _ <-]; cbn; eauto 6 ].

(** X2 (the exceptions of each command).  In every namespace that a
    session reaches from [VFS()], [mkdir] and [touch] raise nothing but
    [FSException], [NotDirectory] and [FileExists]; [write] nothing but
    [FSException], [NotDirectory] and, for a [str] that [encode] refuses,
    [UnicodeEncodeError]; [read] and [rm] nothing but [FSException],
    [NotDirectory] and [FileNotFound]; [ls] nothing but [FSException],
    [NotDirectory], the index's [KeyError] and [AttributeError].  So the
    table's [KeyError] for an identity that was never allocated is never
    raised, and the five commands other than [ls] raise only errors of
    the taxonomy, but for [UnicodeEncodeError], which a [write] raises
    before it looks at the path, leaving the namespace as it was. *)
Theorem exceptions_of_commands :
  forall (s s' : VFS) (now : Z) (o : op) (e : exn),
    reachable s ->
    run now o s = (s', Raise e) ->
    may_raise o e
    /\ kind_of e <> Some InvalidIdentity
    /\ (not_ls o -> e <> UnicodeEncodeError -> exists k, kind_of e = Some k)
    /\ (e = UnicodeEncodeError -> s' = s /\ ~ encodes o).
Proof.
  intros s s' now o e Hr Hrun.
  pose proof (reachable_wf s Hr) as W.
  pose proof (reachable_closed s Hr) as C.
  assert (M : may_raise o e
              /\ (e = UnicodeEncodeError -> s' = s /\ ~ encodes o)).
  { revert Hrun. destruct o as [p|p|p d|p|p|p]; cbn [run].
    - unfold mkdir.
      destruct (resolve_parent now p s) as [s1 r] eqn:R.
      apply resolve_parent_closed in R; [|assumption..].
      destruct R as [C1 [(pid & name & j & m & c & -> & T)|[->|(ctx & ->)]]];
        [ | intros [= _ <-]; split; [cbn; eauto 6 | discriminate]..].
      cbn [get_child]. destruct (rbtree.getitem name c) as [x|e'] eqn:G.
      + intros [= _ <-]. split; [cbn; eauto 6 | discriminate].
      + apply rbtree_props.getitem_raise in G. subst e'.
        rewrite create_dir_ok. discriminate.
    - unfold touch.
      destruct (resolve_parent now p s) as [s1 r] eqn:R.
      apply resolve_parent_closed in R; [|assumption..].
      destruct R as [C1 [(pid & name & j & m & c & -> & T)|[->|(ctx & ->)]]];
        [ | intros [= _ <-]; split; [cbn; eauto 6 | discriminate]..].
      cbn [get_child]. destruct (rbtree.getitem name c) as [x|e'] eqn:G.
      + intros [= _ <-]. split; [cbn; eauto 6 | discriminate].
      + apply rbtree_props.getitem_raise in G. subst e'.
        rewrite create_dir_ok. discriminate.
    - unfold write. destruct (to_bytes d) as [b|e0] eqn:Hb.
      2:{ intros [= <- <-].
          destruct (to_bytes_raise _ _ Hb) as [-> [str ->]].
          split.
          - cbn. right. right. split; [reflexivity|]. eauto.
          - intros _. split; [reflexivity|]. intros [b' Hb'].
            cbn in Hb, Hb'. congruence. }
      unfold write_bytes.
      destruct (resolve_parent now p s) as [s1 r] eqn:R.
      apply resolve_parent_closed in R; [|assumption..].
      destruct R as [C1 [(pid & name & j & m & c & -> & T)|[->|(ctx & ->)]]];
        [ | intros [= _ <-]; split; [cbn; eauto 6 | discriminate]..].
      cbn [get_child]. destruct (rbtree.getitem name c) as [x|e'] eqn:G.
      + apply rbtree_props.getitem_elem in G.
        destruct C1 as [_ C1]. destruct (C1 _ _ _ _ _ _ T G) as [n Hn].
        unfold get. rewrite Hn. destruct n; [|discriminate].
        intros [= _ <-]. split; [cbn; eauto | discriminate].
      + apply rbtree_props.getitem_raise in G. subst e'.
        rewrite create_dir_ok. discriminate.
    - unfold read.
      destruct (resolve_parent now p s) as [s1 r] eqn:R.
      apply resolve_parent_closed in R; [|assumption..].
      destruct R as [C1 [(pid & name & j & m & c & -> & T)|[->|(ctx & ->)]]];
        [ | intros [= _ <-]; split; [cbn; eauto 6 | discriminate]..].
      cbn [get_child]. destruct (rbtree.getitem name c) as [x|e'] eqn:G.
      + apply rbtree_props.getitem_elem in G.
        destruct C1 as [_ C1]. destruct (C1 _ _ _ _ _ _ T G) as [n Hn].
        unfold get. rewrite Hn. destruct n; [|discriminate].
        intros [= _ <-]. split; [cbn; eauto | discriminate].
      + apply rbtree_props.getitem_raise in G. subst e'.
        intros [= _ <-]. split; [cbn; eauto 6 | discriminate].
    - unfold ls. destruct (String.eqb p "/").
      + destruct C as [(j & m & c & R) _]. unfold _assert_dir, get.
        rewrite R. discriminate.
      + pose proof (split_path_keeps_closed now p s W C) as C1.
        destruct (_split_path now p s) as [s1 r] eqn:Hs. cbn [fst] in C1.
        destruct (split_path_closed _ _ _ _ _ W C Hs)
          as [(pid & name & -> & [n Hn])|[->|(seg & ->)]];
          [|intros [= _ <-]; split; [cbn; eauto 6 | discriminate]..].
        unfold get. rewrite Hn. cbn [res_bind].
        destruct n as [j m c|j m c]; cbn [get_child].
        * destruct (rbtree.getitem name c) as [x|e'] eqn:G; cbn [res_bind].
          -- apply rbtree_props.getitem_elem in G.
             destruct C1 as [_ C1]. destruct (C1 _ _ _ _ _ _ Hn G) as [n' Hn'].
             unfold _assert_dir, get. rewrite Hn'.
             destruct n'; cbn; [discriminate|].
             intros [= _ <-]. split; [eauto 6 | discriminate].
          -- apply rbtree_props.getitem_raise in G. subst e'.
             intros [= _ <-]. split; [cbn; eauto 6 | discriminate].
        * cbn [res_bind]. intros [= _ <-]. split; [cbn; auto | discriminate].
    - unfold rm.
      destruct (resolve_parent now p s) as [s1 r] eqn:R.
      apply resolve_parent_closed in R; [|assumption..].
      destruct R as [C1 [(pid & name & j & m & c & -> & T)|[->|(ctx & ->)]]];
        [ | intros [= _ <-]; split; [cbn; eauto 6 | discriminate]..].
      cbn [get_child del_child]. unfold rbtree.delitem.
      destruct (rbtree.getitem name c) as [x|e'] eqn:G.
      + discriminate.
      + apply rbtree_props.getitem_raise in G. subst e'.
        intros [= _ <-]. split; [cbn; eauto 6 | discriminate]. }
  destruct M as [M U]. split; [exact M|]. split; [|split; [|exact U]].
  - destruct o; cbn in M;
      repeat match goal with
             | H : _ \/ _ |- _ => destruct H
             | H : _ /\ _ |- _ => destruct H
             | H : exists _, _ |- _ => destruct H
             end; subst e; discriminate.
  - intros Hn Hu. destruct o; cbn in M, Hn;
      repeat match goal with
             | H : _ \/ _ |- _ => destruct H
             | H : _ /\ _ |- _ => destruct H
             | H : exists _, _ |- _ => destruct H
             end; try contradiction; subst e; cbn; eauto.
Qed.

Lemma exceptions_of_commands_witness :
  may_raise (Write "/docs" (Str [100; 55296]%N)) UnicodeEncodeError.
Proof.
  refine (proj1 (exceptions_of_commands with_file with_file 3
                   (Write "/docs" (Str [100; 55296]%N)) UnicodeEncodeError
                   _ _)).
  - exists 0, [(1, Mkdir "/docs"); (2, Touch "/docs/hello.txt")]. reflexivity.
  - vm_compute. reflexivity.
Defined.

(** The loop of [_split_path] raises no [FSException]. *)
Lemma walk_no_FSException now segs : forall cur s s1 msg,
  walk now segs cur s <> (s1, Raise (FSException msg)).
Proof.
  induction segs as [|seg rest IH]; intros cur s s1 msg.
  - simpl. discriminate.
  - rewrite walk_cons.
    destruct (tbl s !! cur) as [[j m c|j m c]|]; try discriminate.
    destruct (rbtree.getitem seg c); apply IH.
Qed.

Lemma split_path_FSException now path s s1 msg :
  _split_path now path s = (s1, Raise (FSException msg)) ->
  is_absolute path = false.
Proof.
  unfold _split_path. destruct (is_absolute path); [|reflexivity].
  cbn [negb]. destruct (walk _ _ _ _) as [s' [p|e]] eqn:Hw; [discriminate|].
  intros [= <- ->]. exfalso. eapply walk_no_FSException; eauto.
Qed.

Lemma resolve_parent_FSException now path s s1 msg :
  resolve_parent now path s = (s1, Raise (FSException msg)) ->
  is_absolute path = false.
Proof.
  unfold resolve_parent.
  destruct (_split_path now path s) as [s' [[pid name]|e]] eqn:Hs.
  - unfold _assert_dir, get.
    destruct (tbl s' !! pid) as [[j m c|j m c]|]; discriminate.
  - intros [= <- ->]. eapply split_path_FSException; eauto.
Qed.

Lemma lift_raise {A} (f : A -> value) x s' e :
  lift f x = (s', Raise e) -> x = (s', Raise e).
Proof. destruct x as [s [a|e']]; simpl; congruence. Qed.

Lemma create_raise s pid parent name inode s2 e :
  create s pid parent name inode = (s2, Raise e) ->
  e = AttributeError "add_child".
Proof.
  unfold create. rewrite alloc_eq. destruct parent; cbn; congruence.
Qed.

Lemma get_raise t i e : get t i = Raise e -> e = KeyError (KInt i).
Proof. unfold get. destruct (_table t !! i); congruence. Qed.

Lemma get_child_raise n name e :
  get_child n name = Raise e ->
  e = KeyError (KStr name) \/ e = AttributeError "get_child".
Proof.
  destruct n; cbn; [|intros [= <-]; auto].
  intros H. apply rbtree_props.getitem_raise in H. auto.
Qed.

Lemma del_child_raise n name n' e :
  del_child n name = (n', Raise e) ->
  e = KeyError (KStr name) \/ e = AttributeError "del_child".
Proof.
  destruct n as [j m c|j m c]; cbn; [|intros [= _ <-]; auto].
  unfold rbtree.delitem. destruct (rbtree.getitem name c) eqn:G;
    intros [= _ <-]. apply rbtree_props.getitem_raise in G. auto.
Qed.

(** X3 (relative paths).  Whatever the namespace, a command whose
    payload can be encoded raises [FSException] exactly when its path
    does not start with a slash, and it has then changed nothing; a
    [write] of a [str] that [encode] refuses raises [UnicodeEncodeError]
    whatever its path, and changes nothing either. *)
Theorem FSException_iff_relative :
  forall (s : VFS) (now : Z) (o : op),
    (encodes o -> is_absolute (path_of o) = false ->
     run now o s = (s, Raise (FSException "path must start with '/'")))
    /\ (forall s' msg,
          run now o s = (s', Raise (FSException msg)) ->
          is_absolute (path_of o) = false
          /\ s' = s /\ msg = "path must start with '/'"%string
          /\ encodes o)
    /\ (~ encodes o -> run now o s = (s, Raise UnicodeEncodeError)).
Proof.
  intros s now o.
  assert (A : encodes o -> is_absolute (path_of o) = false ->
              run now o s = (s, Raise (FSException "path must start with '/'"))).
  { intros He Hrel. destruct o as [p|p|p d|p|p|p]; cbn [run path_of] in *;
      [ | | destruct He as [b Hb]; rewrite (write_encoded _ _ _ _ _ Hb)
        | | | ];
      unfold mkdir, touch, write_bytes, read, rm, ls, resolve_parent,
             _split_path;
      rewrite ?Hrel; try reflexivity.
    destruct (String.eqb_spec p "/") as [->|_]; [discriminate|].
    reflexivity. }
  assert (U : ~ encodes o -> run now o s = (s, Raise UnicodeEncodeError)).
  { intros Hn. destruct o as [p|p|p d|p|p|p];
      try (exfalso; apply Hn; exact I).
    cbn [run]. destruct (to_bytes d) as [b|e] eqn:Hb.
    - exfalso. apply Hn. exists b. exact Hb.
    - destruct (to_bytes_raise _ _ Hb) as [-> _].
      rewrite (write_unencoded _ _ _ _ _ Hb). reflexivity. }
  assert (E : forall s' msg,
             run now o s = (s', Raise (FSException msg)) -> encodes o).
  { intros s' msg Hrun. destruct o as [p|p|p d|p|p|p]; try exact I.
    cbn [encodes]. destruct (to_bytes d) as [b|e] eqn:Hb; [eauto|].
    cbn [run] in Hrun. rewrite (write_unencoded _ _ _ _ _ Hb) in Hrun.
    destruct (to_bytes_raise _ _ Hb) as [-> _]. discriminate. }
  split; [exact A|]. split; [|exact U].
  intros s' msg Hrun. pose proof (E s' msg Hrun) as He.

  assert (R : is_absolute (path_of o) = false).
  { destruct o as [p|p|p d|p|p|p]; cbn [run path_of] in *;
      apply lift_raise in Hrun; revert Hrun.
    - unfold mkdir.
      destruct (resolve_parent now p s) as [s1 [[[pid name] parent]|e]] eqn:R.
      + destruct (get_child parent name) as [x|e] eqn:G; [discriminate|].
        apply get_child_raise in G as [-> | ->]; [|discriminate].
        intros Hc. apply create_raise in Hc. discriminate.
      + intros [= _ ->]. eapply resolve_parent_FSException; eauto.
    - unfold touch.
      destruct (resolve_parent now p s) as [s1 [[[pid name] parent]|e]] eqn:R.
      + destruct (get_child parent name) as [x|e] eqn:G; [discriminate|].
        apply get_child_raise in G as [-> | ->]; [|discriminate].
        intros Hc. apply create_raise in Hc. discriminate.
      + intros [= _ ->]. eapply resolve_parent_FSException; eauto.
    - destruct He as [b Hb]. rewrite (write_encoded _ _ _ _ _ Hb).
      unfold write_bytes.
      destruct (resolve_parent now p s) as [s1 [[[pid name] parent]|e]] eqn:R.
      + destruct (get_child parent name) as [x|e] eqn:G.
        * destruct (get (table s1) x) as [[]|e] eqn:G'; try discriminate.
          apply get_raise in G'. subst e.
          intros Hc. apply create_raise in Hc. discriminate.
        * apply get_child_raise in G as [-> | ->]; [|discriminate].
          intros Hc. apply create_raise in Hc. discriminate.
      + intros [= _ ->]. eapply resolve_parent_FSException; eauto.
    - unfold read.
      destruct (resolve_parent now p s) as [s1 [[[pid name] parent]|e]] eqn:R.
      + destruct (get_child parent name) as [x|e] eqn:G.
        * destruct (get (table s1) x) as [[]|e] eqn:G'; try discriminate.
          apply get_raise in G'. subst e. discriminate.
        * apply get_child_raise in G as [-> | ->]; discriminate.
      + intros [= _ ->]. eapply resolve_parent_FSException; eauto.
    - unfold ls. destruct (String.eqb p "/").
      + unfold _assert_dir, get.
        destruct (tbl s !! root_id s) as [[]|]; discriminate.
      + destruct (_split_path now p s) as [s1 [[pid name]|e]] eqn:Hs.
        * unfold get, _assert_dir, get.
          destruct (tbl s1 !! pid) as [[j m c|j m c]|]; cbn; try discriminate.
          destruct (rbtree.getitem name c) as [x|e'] eqn:G; cbn.
          -- destruct (tbl s1 !! x) as [[]|]; discriminate.
          -- apply rbtree_props.getitem_raise in G. subst e'. discriminate.
        * intros [= _ ->]. eapply split_path_FSException; eauto.
    - unfold rm.
      destruct (resolve_parent now p s) as [s1 [[[pid name] parent]|e]] eqn:R.
      + destruct (get_child parent name) as [x|e] eqn:G.
        * destruct (del_child parent name) as [n' [u|e]] eqn:D; [discriminate|].
          apply del_child_raise in D as [-> | ->]; discriminate.
        * apply get_child_raise in G as [-> | ->]; discriminate.
      + intros [= _ ->]. eapply resolve_parent_FSException; eauto. }
  rewrite (A He R) in Hrun. injection Hrun as <- <-. auto.
Qed.

Lemma FSException_iff_relative_witness :
  run 1 (Read "docs/hello.txt") with_file
  = (with_file, Raise (FSException "path must start with '/'")).
Proof.
  refine (proj1 (FSException_iff_relative with_file 1
                   (Read "docs/hello.txt")) I _).
  reflexivity.
Defined.

End vfs_errors.

(** ** The six commands on a path whose parent directory exists *)

Module vfs_paths.
Import node inode_table vfs vfs_spec vfs_props vfs_invariants walk_props
       vfs_ops vfs_more vfs_more_invariants vfs_outcomes vfs_errors.

Lemma parent_at_split now path s pid parent :
  parent_at s path pid parent ->
  _split_path now path s = (s, Ok (pid, basename path)).
Proof. intros (A & L & _). apply split_path_of_lookup; assumption. Qed.

Lemma parent_at_resolve now path s pid parent :
  parent_at s path pid parent ->
  resolve_parent now path s = (s, Ok (pid, basename path, parent)).
Proof.
  intros P. pose proof (parent_at_split now _ _ _ _ P) as Hs.
  destruct P as (_ & _ & T & D).
  rewrite (resolve_parent_of_split _ _ _ _ _ _ Hs), T.
  destruct parent; [reflexivity | discriminate].
Qed.

(** After resolution has returned, the parent exists. *)
Lemma split_path_parent_at now path s s1 pid name parent :
  wf s -> _split_path now path s = (s1, Ok (pid, name)) ->
  tbl s1 !! pid = Some parent -> is_dir parent = true ->
  parent_at s1 path pid parent /\ name = basename path.
Proof.
  intros W Hs T D. pose proof Hs as Hs'.
  apply split_path_ok in Hs' as (A & -> & Hw).
  pose proof (walk_agree now (but_last (parts_after_root path))
                (root_id s) s W) as [R _].
  rewrite Hw in R. cbn [fst] in R.
  apply walk_lookup in Hw; [|exact W].
  split; [|reflexivity]. repeat split; try assumption. rewrite R. exact Hw.
Qed.


Lemma parent_at_create s path pid j m c name inode :
  wf s -> parent_at s path pid (Directory j m c) ->
  parent_at (fst (create s pid (Directory j m c) name inode)) path pid
    (Directory j m (rbtree.setitem name (nxt s) c)).
Proof.
  intros W (A & L & T & D). repeat split; try assumption.
  - rewrite root_create. eapply lookup_walk_agree; eauto.
    apply agree_below_create; assumption.
  - rewrite tbl_create. case_decide; congruence.
Qed.



End vfs_paths.

(** ** Commands on existing and on absent names, and their sequences *)

Module vfs_compose.
Import node inode_table vfs vfs_spec vfs_props vfs_invariants walk_props
       vfs_ops vfs_more vfs_more_invariants vfs_outcomes vfs_errors vfs_paths.

Ltac state_of Hm :=
  match type of Hm with
  | (?a, _) = (?b, _) =>
      let E := fresh "E" in
      assert (E : b = a) by congruence; clear Hm; subst b
  end.

Lemma not_root_path path : path <> "/"%string -> String.eqb path "/" = false.
Proof. intros H. destruct (String.eqb_spec path "/"); congruence. Qed.

(** [ls] of a path other than ["/"] whose parent exists. *)
Lemma ls_at now path s pid parent :
  path <> "/"%string -> parent_at s path pid parent ->
  ls now path s
  = (s, (child <- get_child parent (basename path) ;;
         dir_node <- _assert_dir s child path ;;
         iter_names dir_node)%res).
Proof.
  intros Hne P. unfold ls. rewrite (not_root_path _ Hne).
  rewrite (parent_at_split now _ _ _ _ P).
  destruct P as (_ & _ & T & _). unfold get. rewrite T. reflexivity.
Qed.





Lemma create_returns s i j m c name inode :
  snd (create s i (Directory j m c) name inode) = Ok tt.
Proof. rewrite create_dir_ok. reflexivity. Qed.

Lemma absent_raise name c :
  (forall x, rbtree.getitem name c <> Ok x) ->
  rbtree.getitem name c = Raise (KeyError (KStr name)).
Proof.
  intros H. destruct (rbtree.getitem name c) as [x|e] eqn:G.
  - exfalso. eapply H. reflexivity.
  - apply rbtree_props.getitem_raise in G. congruence.
Qed.




(** *** What a command that returned has left *)

Lemma wf_after_mkdir now path s : wf s -> wf (fst (mkdir now path s)).
Proof. apply prims_wf, mkdir_prims. Qed.
Lemma wf_after_touch now path s : wf s -> wf (fst (touch now path s)).
Proof. apply prims_wf, touch_prims. Qed.
Lemma wf_after_write now path d s : wf s -> wf (fst (write now path d s)).
Proof. apply prims_wf, write_prims. Qed.
Lemma wf_after_rm now path s : wf s -> wf (fst (rm now path s)).
Proof. apply prims_wf, rm_prims. Qed.

(** The state in which a name has just been made. *)
Lemma made_name now path s s1 pid name j m c inode :
  wf s -> _split_path now path s = (s1, Ok (pid, name)) ->
  tbl s1 !! pid = Some (Directory j m c) ->
  let s' := fst (create s1 pid (Directory j m c) name inode) in
  parent_at s' path pid (Directory j m (rbtree.setitem name (nxt s1) c))
  /\ name = basename path
  /\ rbtree.getitem name (rbtree.setitem name (nxt s1) c) = Ok (nxt s1)
  /\ tbl s' !! nxt s1 = Some (set_id (nxt s1) inode).
Proof.
  intros W Hs T s'.
  pose proof (split_path_wf now path s W) as W1.
  rewrite Hs in W1. cbn [fst] in W1.
  destruct (split_path_parent_at _ _ _ _ _ _ _ W Hs T eq_refl) as [P ->].
  pose proof (wf_dom s1 W1 _ _ T).
  split; [apply parent_at_create; assumption|].
  split; [reflexivity|].
  split; [apply rbtree_props.getitem_setitem|].
  unfold s'. rewrite tbl_create. repeat case_decide; try lia. reflexivity.
Qed.

Lemma mkdir_returns now path s s' :
  wf s -> mkdir now path s = (s', Ok tt) ->
  exists pid j m c x,
    parent_at s' path pid (Directory j m c)
    /\ rbtree.getitem (basename path) c = Ok x
    /\ tbl s' !! x = Some (Directory x (new_Meta now) []).
Proof.
  intros W. unfold mkdir.
  destruct (_split_path now path s) as [s1 [[pid name]|e]] eqn:Hs.
  2:{ unfold resolve_parent. rewrite Hs. discriminate. }
  rewrite (resolve_parent_of_split _ _ _ _ _ _ Hs).
  destruct (tbl s1 !! pid) as [[j m c|j m c]|] eqn:T; try discriminate.
  cbn [get_child].
  destruct (rbtree.getitem name c) as [x|e] eqn:G; [discriminate|].
  apply rbtree_props.getitem_raise in G. subst e.
  rewrite create_dir_ok. intros Hm. state_of Hm.
  destruct (made_name now path s s1 pid name j m c (new_Directory now (-1))
              W Hs T) as (P & -> & G' & T').
  eexists _, _, _, _, _. eauto.
Qed.

Lemma touch_returns now path s s' :
  wf s -> touch now path s = (s', Ok tt) ->
  exists pid j m c x,
    parent_at s' path pid (Directory j m c)
    /\ rbtree.getitem (basename path) c = Ok x
    /\ tbl s' !! x = Some (File x (new_Meta now) []).
Proof.
  intros W. unfold touch.
  destruct (_split_path now path s) as [s1 [[pid name]|e]] eqn:Hs.
  2:{ unfold resolve_parent. rewrite Hs. discriminate. }
  rewrite (resolve_parent_of_split _ _ _ _ _ _ Hs).
  destruct (tbl s1 !! pid) as [[j m c|j m c]|] eqn:T; try discriminate.
  cbn [get_child].
  destruct (rbtree.getitem name c) as [x|e] eqn:G; [discriminate|].
  apply rbtree_props.getitem_raise in G. subst e.
  rewrite create_dir_ok. intros Hm. state_of Hm.
  destruct (made_name now path s s1 pid name j m c (new_File now (-1) [])
              W Hs T) as (P & -> & G' & T').
  eexists _, _, _, _, _. eauto.
Qed.

Lemma write_bytes_returns now path data s s' :
  wf s -> write_bytes now path data s = (s', Ok tt) ->
  exists pid j m c x i fm,
    parent_at s' path pid (Directory j m c)
    /\ rbtree.getitem (basename path) c = Ok x
    /\ tbl s' !! x = Some (File i fm data)
    /\ size fm = Z.of_nat (length data).
Proof.
  intros W. unfold write_bytes.
  destruct (_split_path now path s) as [s1 [[pid name]|e]] eqn:Hs.
  2:{ unfold resolve_parent. rewrite Hs. discriminate. }
  rewrite (resolve_parent_of_split _ _ _ _ _ _ Hs).
  pose proof (split_path_wf now path s W) as W1.
  rewrite Hs in W1. cbn [fst] in W1.
  destruct (tbl s1 !! pid) as [[j m c|j m c]|] eqn:T; try discriminate.
  destruct (made_name now path s s1 pid name j m c
              (new_File now (-1) data) W Hs T)
    as (P & Hname & G' & T').
  cbn [get_child].
  destruct (rbtree.getitem name c) as [x|e] eqn:G.
  - unfold get. destruct (tbl s1 !! x) as [[j' m' c'|j' m' c']|] eqn:F.
    + discriminate.
    + intros [= <-].
      apply rbtree_props.getitem_elem in G as Hin.
      pose proof (wf_child s1 W1 _ _ _ _ _ _ T Hin).
      destruct (split_path_parent_at _ _ _ _ _ _ _ W Hs T eq_refl) as [P0 _].
      subst name.
      exists pid, j, m, c, x, j', (set_size m' (Z.of_nat (length data))).
      split; [|split; [exact G|split; [|reflexivity]]].
      * destruct P0 as (A & L & _ & _). repeat split; try assumption.
        -- rewrite root_store. eapply lookup_walk_agree; eauto.
           apply agree_below_store. lia.
        -- rewrite tbl_store. case_decide; [lia | exact T].
      * rewrite tbl_store. case_decide; [reflexivity | congruence].
    + rewrite create_dir_ok. intros Hm. state_of Hm. subst name.
      eexists _, _, _, _, _, _, _. split; [exact P|].
      split; [exact G'|]. split; [exact T'|]. reflexivity.
  - apply rbtree_props.getitem_raise in G. subst e.
    rewrite create_dir_ok. intros Hm. state_of Hm. subst name.
    eexists _, _, _, _, _, _, _. split; [exact P|].
    split; [exact G'|]. split; [exact T'|]. reflexivity.
Qed.

Lemma write_returns now path data s s' :
  wf s -> write now path data s = (s', Ok tt) ->
  exists b pid j m c x i fm,
    to_bytes data = Ok b
    /\ parent_at s' path pid (Directory j m c)
    /\ rbtree.getitem (basename path) c = Ok x
    /\ tbl s' !! x = Some (File i fm b)
    /\ size fm = Z.of_nat (length b).
Proof.
  intros W. unfold write. destruct (to_bytes data) as [b|e]; [|discriminate].
  intros Hw.
  destruct (write_bytes_returns now path b s s' W Hw)
    as (pid & j & m & c & x & i & fm & H).
  exists b, pid, j, m, c, x, i, fm. split; [reflexivity | exact H].
Qed.

(** *** Reading and listing what is there *)

Lemma read_at_file now path s pid j m c x i fm content :
  parent_at s path pid (Directory j m c) ->
  rbtree.getitem (basename path) c = Ok x ->
  tbl s !! x = Some (File i fm content) ->
  read now path s = (s, Ok content).
Proof.
  intros P G F. unfold read. rewrite (parent_at_resolve now _ _ _ _ P).
  cbn [get_child]. rewrite G. unfold get. rewrite F. reflexivity.
Qed.

Lemma read_at_dir now path s pid j m c x i dm dc :
  parent_at s path pid (Directory j m c) ->
  rbtree.getitem (basename path) c = Ok x ->
  tbl s !! x = Some (Directory i dm dc) ->
  read now path s = (s, Raise (NotDirectory (basename path))).
Proof.
  intros P G F. unfold read. rewrite (parent_at_resolve now _ _ _ _ P).
  cbn [get_child]. rewrite G. unfold get. rewrite F. reflexivity.
Qed.

Lemma ls_at_dir now path s pid j m c x i dm dc :
  path <> "/"%string ->
  parent_at s path pid (Directory j m c) ->
  rbtree.getitem (basename path) c = Ok x ->
  tbl s !! x = Some (Directory i dm dc) ->
  ls now path s = (s, Ok (rbtree.keys dc)).
Proof.
  intros Hne P G F. rewrite (ls_at now _ _ _ _ Hne P). cbn [get_child].
  rewrite G. cbn [res_bind]. unfold _assert_dir, get. rewrite F. reflexivity.
Qed.

Lemma ls_at_file now path s pid j m c x i fm content :
  path <> "/"%string ->
  parent_at s path pid (Directory j m c) ->
  rbtree.getitem (basename path) c = Ok x ->
  tbl s !! x = Some (File i fm content) ->
  ls now path s = (s, Raise (NotDirectory path)).
Proof.
  intros Hne P G F. rewrite (ls_at now _ _ _ _ Hne P). cbn [get_child].
  rewrite G. cbn [res_bind]. unfold _assert_dir, get. rewrite F. reflexivity.
Qed.

(** X7 (what was just made).  In a well-formed namespace, when
    [touch(p)] has returned, [read(p)] returns the empty bytes and [ls(p)]
    raises [NotDirectory]; when [mkdir(p)] has returned, [ls(p)] returns
    the empty list (for every [p] but ["/"], where [mkdir] has bound the
    empty name in the root) and [read(p)] raises [NotDirectory].  None of
    the four changes the namespace. *)
Theorem new_file_is_empty_new_directory_is_empty :
  forall (s s' : VFS) (now now' : Z) (path : string),
    wf s ->
    (touch now path s = (s', Ok tt) ->
     read now' path s' = (s', Ok [])
     /\ (path <> "/"%string ->
         ls now' path s' = (s', Raise (NotDirectory path))))
    /\ (mkdir now path s = (s', Ok tt) ->
        read now' path s' = (s', Raise (NotDirectory (basename path)))
        /\ (path <> "/"%string -> ls now' path s' = (s', Ok []))).
Proof.
  intros s s' now now' path W. split; intros Hm.
  - apply touch_returns in Hm as (pid & j & m & c & x & P & G & F);
      [|exact W].
    split; [eapply read_at_file; eauto|].
    intros Hne. eapply ls_at_file; eauto.
  - apply mkdir_returns in Hm as (pid & j & m & c & x & P & G & F);
      [|exact W].
    split; [eapply read_at_dir; eauto|].
    intros Hne.
    exact (ls_at_dir now' path s' pid j m c x x (new_Meta now) [] Hne P G F).
Qed.

Lemma new_file_is_empty_new_directory_is_empty_witness :
  read 2 "/a/b/c.txt" (fst (touch 1 "/a/b/c.txt" fresh))
  = (fst (touch 1 "/a/b/c.txt" fresh), Ok []).
Proof.
  refine (proj1 (proj1 (new_file_is_empty_new_directory_is_empty fresh
                          (fst (touch 1 "/a/b/c.txt" fresh)) 1 2
                          "/a/b/c.txt" (wf_init 0)) _)).
  vm_compute. reflexivity.
Defined.

End vfs_compose.

(** ** Sequences of commands *)

Module vfs_sequences.
Import node inode_table vfs vfs_spec vfs_props vfs_invariants walk_props
       vfs_ops vfs_more vfs_more_invariants vfs_outcomes vfs_errors vfs_paths
       vfs_compose.

Lemma set_size_same m : set_size m (size m) = m.
Proof. destruct m. reflexivity. Qed.

Lemma store_same s i n : tbl s !! i = Some n -> store s i n = s.
Proof.
  intros H. destruct s as [[nx t] r]. unfold store, mutate, set_table.
  simpl in *. rewrite (insert_id _ _ _ H). reflexivity.
Qed.

(** X8 (writing the same data again).  In a well-formed namespace, when
    [write(p, data)] has returned, a second [write(p, data)] returns and
    leaves the namespace exactly as the first left it: no second entry,
    no new identity, the same content and size. *)
Theorem write_twice_changes_nothing :
  forall (s s' : VFS) (now now' : Z) (path : string) (data : payload),
    wf s ->
    write now path data s = (s', Ok tt) ->
    write now' path data s' = (s', Ok tt).
Proof.
  intros s s' now now' path data W Hm.
  apply write_returns in Hm
    as (b & pid & j & m & c & x & i & fm & Hb & P & G & F & Hsz);
    [|exact W].
  unfold write. rewrite Hb. unfold write_bytes.
  rewrite (parent_at_resolve now' _ _ _ _ P).
  cbn [get_child]. rewrite G. unfold get. rewrite F.
  rewrite <- Hsz, set_size_same, (store_same _ _ _ F). reflexivity.
Qed.

Lemma write_twice_changes_nothing_witness :
  write 4 "/docs/hello.txt" (Str "hi")
    (fst (write 3 "/docs/hello.txt" (Str "hi") with_file))
  = (fst (write 3 "/docs/hello.txt" (Str "hi") with_file), Ok tt).
Proof.
  refine (write_twice_changes_nothing with_file _ 3 4 "/docs/hello.txt"
            (Str "hi") (wf_run_all 0 _) _).
  vm_compute. reflexivity.
Defined.

(** *** Listing the parent *)

Lemma lookup_walk_snoc s x : forall l cur p,
  lookup_walk s (l ++ [x]) cur = Some p ->
  exists q j m c,
    lookup_walk s l cur = Some q
    /\ tbl s !! q = Some (Directory j m c)
    /\ rbtree.getitem x c = Ok p.
Proof.
  induction l as [|y l IH]; intros cur p; cbn [app lookup_walk].
  - destruct (tbl s !! cur) as [[j m c|j m c]|] eqn:T; try discriminate.
    destruct (rbtree.getitem x c) as [child|e] eqn:G; [|discriminate].
    intros [= <-]. exists cur, j, m, c. auto.
  - destruct (tbl s !! cur) as [[j m c|j m c]|]; try discriminate.
    destruct (rbtree.getitem y c) as [child|e]; [|discriminate].
    apply IH.
Qed.

(** [ls] of a path that names the parent of [path] lists the parent. *)
Lemma ls_parent now path q s pid j m c :
  parent_at s path pid (Directory j m c) -> parent_path q path ->
  ls now q s = (s, Ok (rbtree.keys c)).
Proof.
  intros (A & L & T & D) (Aq & Hparts & Hq).
  destruct (decide (parts_after_root q = [])) as [Hnil|Hne].
  - destruct Hq as [->|Hq]; [|contradiction].
    rewrite <- Hparts, Hnil in L. cbn in L. injection L as <-.
    unfold ls. cbn [String.eqb Ascii.eqb Bool.eqb]. 
    unfold _assert_dir, get. rewrite T. reflexivity.
  - assert (Hnr : q <> "/"%string).
    { intros ->. apply Hne. reflexivity. }
    rewrite <- Hparts in L.
    rewrite (app_removelast_last EmptyString Hne) in L.
    apply lookup_walk_snoc in L as (pp & j' & m' & c' & L' & T' & G').
    eapply (ls_at_dir now q s pp j' m' c' pid); eauto.
    repeat split; auto.
Qed.

Lemma getitem_key name c x :
  rbtree.getitem name c = Ok x -> name ∈ rbtree.keys c.
Proof.
  intros G. apply rbtree_props.getitem_elem in G.
  apply list_elem_of_In, in_map_iff. exists (name, x).
  split; [reflexivity|]. apply list_elem_of_In. exact G.
Qed.

(** X9 (the parent lists the new name).  In a well-formed namespace,
    when [mkdir(p)], [touch(p)] or [write(p, data)] has returned, [ls q]
    returns a list in which the last component of [p] occurs, and changes
    nothing, for every absolute path [q] whose components after the root
    are those of [p] but the last and which is either the string ["/"]
    itself or has at least one component.  (The side condition is needed:
    another spelling of the root, such as ["//"], has no component and is
    not ["/"], and [ls] then looks up the empty name in the root and
    raises [KeyError].) *)
Theorem parent_lists_the_name :
  forall (s s' : VFS) (now now' : Z) (o : op) (q : string),
    wf s ->
    makes_name o ->
    run now o s = (s', Ok VNone) ->
    parent_path q (path_of o) ->
    exists names,
      ls now' q s' = (s', Ok names) /\ basename (path_of o) ∈ names.
Proof.
  intros s s' now now' o q W Hmk Hrun Hq.
  assert (H : exists pid j m c x,
             parent_at s' (path_of o) pid (Directory j m c)
             /\ rbtree.getitem (basename (path_of o)) c = Ok x).
  { destruct o as [p|p|p d|p|p|p]; try contradiction; cbn [run path_of] in *.
    - destruct (mkdir now p s) as [s1 [[]|e]] eqn:E; [|discriminate].
      injection Hrun as <-.
      apply mkdir_returns in E as (pid & j & m & c & x & P & G & _);
        [eauto 8 | exact W].
    - destruct (touch now p s) as [s1 [[]|e]] eqn:E; [|discriminate].
      injection Hrun as <-.
      apply touch_returns in E as (pid & j & m & c & x & P & G & _);
        [eauto 8 | exact W].
    - destruct (write now p d s) as [s1 [[]|e]] eqn:E; [|discriminate].
      injection Hrun as <-.
      apply write_returns in E
        as (b & pid & j & m & c & x & i & fm & _ & P & G & _);
        [eauto 8 | exact W]. }
  destruct H as (pid & j & m & c & x & P & G).
  exists (rbtree.keys c). split; [eapply ls_parent; eauto|].
  eapply getitem_key; eauto.
Qed.

Lemma parent_path_docs : parent_path "/" "/docs".
Proof. repeat split; auto. Qed.

Lemma parent_lists_the_name_witness :
  exists names,
    ls 2 "/" (fst (run 1 (Mkdir "/docs") fresh))
    = (fst (run 1 (Mkdir "/docs") fresh), Ok names)
    /\ basename "/docs" ∈ names.
Proof.
  refine (parent_lists_the_name fresh _ 1 2 (Mkdir "/docs") "/" (wf_init 0)
            I _ parent_path_docs).
  vm_compute. reflexivity.
Defined.

End vfs_sequences.

(** ** After [rm]; the order of a listing; what never changes *)

Module vfs_rm_ls.
Import node inode_table vfs vfs_spec vfs_props vfs_invariants walk_props
       vfs_ops vfs_more vfs_more_invariants vfs_outcomes vfs_errors vfs_paths
       vfs_compose vfs_sequences.
Import index_ops.











(** X12 (recorded sizes).  In every namespace that a session reaches
    from [VFS()], the size recorded for a directory is 0, the size
    recorded for a file is the length of its content, and the
    permissions of every inode are ["rw"]. *)
Theorem sizes_are_consistent :
  forall (s : VFS) (i : Z) (n : Inode),
    reachable s ->
    tbl s !! i = Some n ->
    size_ok n /\ perms (meta n) = "rw"%string.
Proof.
  intros s i n (now & l & ->).
  apply (prims_sizes_ok _ _ (run_all_prims l (init now)) (sizes_ok_init now)).
Qed.

Lemma sizes_are_consistent_witness :
  size_ok (File 2 (set_size (new_Meta 2) 2) (list_byte_of_string "hi"))
  /\ perms (meta (File 2 (set_size (new_Meta 2) 2) (list_byte_of_string "hi")))
     = "rw"%string.
Proof.
  refine (sizes_are_consistent
            (fst (write 3 "/docs/hello.txt" (Str "hi") with_file)) 2 _ _ _).
  - exists 0, [(1, Mkdir "/docs"); (2, Touch "/docs/hello.txt");
               (3, Write "/docs/hello.txt" (Str "hi"))]. reflexivity.
  - vm_compute. reflexivity.
Defined.

(** X13 (what never changes).  Through every session of commands run
    from a well-formed namespace, every inode of the table stays in the
    table with its class (directory or file), its [id], its two
    timestamps and its permissions. *)
Theorem inode_identity_is_kept :
  forall (s : VFS) (l : list (Z * op)) (i : Z) (n : Inode),
    wf s ->
    tbl s !! i = Some n ->
    exists n', tbl (run_all l s) !! i = Some n' /\ same_inode n n'.
Proof.
  intros s l i n W H.
  apply (prims_inodes_kept _ _ (run_all_prims l s) W i n H).
Qed.

Lemma inode_identity_is_kept_witness :
  exists n',
    tbl (run_all [(3, Write "/docs/hello.txt" (Str "hi")); (4, Rm "/docs")]
           with_file) !! 2 = Some n'
    /\ same_inode (File 2 (new_Meta 2) []) n'.
Proof.
  refine (inode_identity_is_kept with_file _ 2 _ (wf_run_all 0 _) _).
  vm_compute. reflexivity.
Defined.

End vfs_rm_ls.

(** ** The inode table on its own *)

Module table_props.
Import node inode_table table_more.

Lemma allocate_all_cons t x l :
  allocate_all t (x :: l)
  = (fst (allocate_all (fst (allocate t x)) l),
     snd (allocate t x) :: snd (allocate_all (fst (allocate t x)) l)).
Proof.
  cbn [allocate_all]. destruct (allocate t x) as [t1 i]. cbn [fst snd].
  destruct (allocate_all t1 l). reflexivity.
Qed.

Lemma allocate_id t x : snd (allocate t x) = _next_id t.
Proof. destruct x; reflexivity. Qed.

Lemma allocate_next t x : _next_id (fst (allocate t x)) = _next_id t + 1.
Proof. reflexivity. Qed.

Lemma allocate_table t x :
  _table (fst (allocate t x))
  = <[_next_id t := set_id (_next_id t) x]> (_table t).
Proof. reflexivity. Qed.

Lemma allocate_all_spec l : forall t,
  snd (allocate_all t l)
  = map (fun k => _next_id t + Z.of_nat k) (seq 0 (length l))
  /\ _next_id (fst (allocate_all t l)) = _next_id t + Z.of_nat (length l)
  /\ (forall k inode,
        l !! k = Some inode ->
        _table (fst (allocate_all t l)) !! (_next_id t + Z.of_nat k)
        = Some (set_id (_next_id t + Z.of_nat k) inode))
  /\ (forall i,
        ~ (_next_id t <= i < _next_id t + Z.of_nat (length l)) ->
        _table (fst (allocate_all t l)) !! i = _table t !! i).
Proof.
  induction l as [|x l IH]; intros t.
  - cbn. repeat split; try lia. intros k inode H. discriminate.
  - rewrite allocate_all_cons. cbn [fst snd].
    destruct (IH (fst (allocate t x))) as (I1 & I2 & I3 & I4).
    rewrite allocate_next in I1, I2, I3, I4.
    rewrite allocate_id.
    split; [|split; [|split]].
    + cbn [length seq map]. f_equal; [lia|].
      rewrite I1, <- seq_shift, map_map. apply map_ext. intros a. lia.
    + rewrite I2. cbn [length]. lia.
    + intros [|k] inode Hk.
      * cbn in Hk. injection Hk as <-.
        replace (_next_id t + Z.of_nat 0) with (_next_id t) by lia.
        rewrite I4 by lia.
        rewrite allocate_table. apply lookup_insert_eq.
      * cbn in Hk. specialize (I3 k inode Hk).
        replace (_next_id t + Z.of_nat (S k)) with (_next_id t + 1 + Z.of_nat k)
          by lia.
        exact I3.
    + intros i Hi. cbn [length] in Hi.
      rewrite I4 by lia.
      rewrite allocate_table. apply lookup_insert_ne. lia.
Qed.

End table_props.

(** ** The inode table over object references *)

Module table_refs.
Import node inode_refs.

Lemma set_id_twice a b n : set_id a (set_id b n) = set_id a n.
Proof. destruct n; reflexivity. Qed.

Lemma update_at h r n : update h r n r = n.
Proof. unfold update. rewrite Nat.eqb_refl. reflexivity. Qed.

Lemma update_other h r n r' : r' <> r -> update h r n r' = h r'.
Proof.
  intros H. unfold update. destruct (Nat.eqb_spec r' r); [contradiction|].
  reflexivity.
Qed.

Lemma refs_allocate_all_cons h t x l :
  allocate_all h t (x :: l)
  = (let a := allocate h t x in
     let b := allocate_all (fst (fst a)) (snd (fst a)) l in
     (fst (fst b), snd (fst b), snd a :: snd b)).
Proof.
  cbn [allocate_all]. destruct (allocate h t x) as [[h1 t1] i].
  cbn [fst snd]. destruct (allocate_all h1 t1 l) as [[h2 t2] ids].
  reflexivity.
Qed.

Lemma refs_allocate_id h t x : snd (allocate h t x) = _next_id t.
Proof.
  unfold allocate. cbn [snd]. rewrite update_at. apply vfs_invariants.id_set_id.
Qed.

(** What a run of allocations does to the table. *)
Lemma refs_table_spec l : forall h t,
  snd (allocate_all h t l)
  = map (fun k => _next_id t + Z.of_nat k) (seq 0 (length l))
  /\ _next_id (snd (fst (allocate_all h t l)))
     = _next_id t + Z.of_nat (length l)
  /\ (forall k r,
        l !! k = Some r ->
        _table (snd (fst (allocate_all h t l))) !! (_next_id t + Z.of_nat k)
        = Some r)
  /\ (forall i,
        ~ (_next_id t <= i < _next_id t + Z.of_nat (length l)) ->
        _table (snd (fst (allocate_all h t l))) !! i = _table t !! i).
Proof.
  induction l as [|x l IH]; intros h t.
  - cbn. repeat split; try lia. intros k r H. discriminate.
  - rewrite refs_allocate_all_cons. cbn zeta. cbn [fst snd].
    destruct (IH (fst (fst (allocate h t x))) (snd (fst (allocate h t x))))
      as (I1 & I2 & I3 & I4).
    rewrite refs_allocate_id.
    change (_next_id (snd (fst (allocate h t x)))) with (_next_id t + 1)
      in I1, I2, I3, I4.
    change (_table (snd (fst (allocate h t x))))
      with (<[_next_id t := x]> (_table t)) in I4.
    split; [|split; [|split]].
    + cbn [length seq map]. f_equal; [lia|].
      rewrite I1, <- seq_shift, map_map. apply map_ext. intros a. lia.
    + rewrite I2. cbn [length]. lia.
    + intros [|k] r Hk.
      * cbn in Hk. injection Hk as <-.
        replace (_next_id t + Z.of_nat 0) with (_next_id t) by lia.
        rewrite I4 by lia. apply lookup_insert_eq.
      * cbn in Hk. specialize (I3 k r Hk).
        replace (_next_id t + Z.of_nat (S k)) with (_next_id t + 1 + Z.of_nat k)
          by lia.
        exact I3.
    + intros i Hi. cbn [length] in Hi.
      rewrite I4 by lia. apply lookup_insert_ne. lia.
Qed.

(** What a run of allocations does to the objects: an object that was
    not handed over is as it was, one that was carries the identity of
    the last position at which it was handed over. *)
Lemma refs_objects_spec l : forall h t r,
  (r ∉ l -> fst (fst (allocate_all h t l)) r = h r)
  /\ (forall k,
        last_at l k r ->
        fst (fst (allocate_all h t l)) r
        = set_id (_next_id t + Z.of_nat k) (h r)).
Proof.
  induction l as [|x l IH]; intros h t r.
  - split; [reflexivity|]. intros k [H _]. discriminate.
  - rewrite refs_allocate_all_cons. cbn zeta. cbn [fst snd].
    destruct (IH (fst (fst (allocate h t x))) (snd (fst (allocate h t x))) r)
      as (I1 & I2).
    change (_next_id (snd (fst (allocate h t x)))) with (_next_id t + 1) in I2.
    change (fst (fst (allocate h t x)))
      with (update h x (set_id (_next_id t) (h x))) in I1, I2 |- *.
    split.
    + intros Hn. apply not_elem_of_cons in Hn as [Hx Hl].
      rewrite (I1 Hl). apply update_other. exact Hx.
    + intros [|k] [Hk Hlast].
      * cbn in Hk. injection Hk as ->.
        assert (Hl : r ∉ l).
        { intros Hin. apply list_elem_of_lookup in Hin as [k' Hk'].
          apply (Hlast (S k')); [lia | exact Hk']. }
        rewrite (I1 Hl), update_at. f_equal. lia.
      * cbn in Hk.
        assert (La : last_at l k r).
        { split; [exact Hk|]. intros k' Hlt Hk'.
          apply (Hlast (S k')); [lia | exact Hk']. }
        rewrite (I2 k La).
        replace (_next_id t + 1 + Z.of_nat k) with (_next_id t + Z.of_nat (S k))
          by lia.
        destruct (decide (r = x)) as [->|Hne].
        -- rewrite update_at. apply set_id_twice.
        -- rewrite (update_other _ _ _ _ Hne). reflexivity.
Qed.

Lemma last_at_NoDup l k r : NoDup l -> l !! k = Some r -> last_at l k r.
Proof.
  intros N Hk. split; [exact Hk|]. intros k' Hlt Hk'.
  pose proof (NoDup_lookup l k k' r N Hk Hk'). lia.
Qed.

(** X14 (identities in order).  Starting from [InodeTable()], with the
    inode objects handed to [allocate] one after the other by reference:
    the identities returned are 0, 1, 2, ... in that order and the
    counter ends at their number; [get] of an integer that was not
    returned raises [KeyError]; [get(k)] returns the object handed over
    at position k, whose [id] field holds the last position at which
    that same object was handed over.  So when the objects are pairwise
    distinct, [get(k)] returns the k-th object with its [id] set to k,
    and when one object is allocated twice in a row, [get(0)] returns it
    with [id] 1. *)
Theorem allocations_are_numbered :
  forall (h : objects) (l : list ref),
    let h' := fst (fst (allocate_all h init l)) in
    let t := snd (fst (allocate_all h init l)) in
    snd (allocate_all h init l) = map Z.of_nat (seq 0 (length l))
    /\ _next_id t = Z.of_nat (length l)
    /\ (forall i : Z,
          ~ (0 <= i < Z.of_nat (length l)) ->
          get h' t i = Raise (KeyError (KInt i)))
    /\ (forall (k k' : nat) (r : ref),
          l !! k = Some r ->
          last_at l k' r ->
          get h' t (Z.of_nat k) = Ok (set_id (Z.of_nat k') (h r))
          /\ id (set_id (Z.of_nat k') (h r)) = Z.of_nat k')
    /\ (NoDup l ->
        forall (k : nat) (r : ref),
          l !! k = Some r ->
          get h' t (Z.of_nat k) = Ok (set_id (Z.of_nat k) (h r))
          /\ id (set_id (Z.of_nat k) (h r)) = Z.of_nat k)
    /\ (forall r : ref,
          get (fst (fst (allocate_all h init [r; r])))
              (snd (fst (allocate_all h init [r; r]))) 0
          = Ok (set_id 1 (h r))).
Proof.
  intros h l h' t. subst h' t.
  destruct (refs_table_spec l h init) as (I1 & I2 & I3 & I4).
  change (_next_id init) with 0 in I1, I2, I3, I4.
  assert (G : forall (k k' : nat) (r : ref),
             l !! k = Some r -> last_at l k' r ->
             get (fst (fst (allocate_all h init l)))
                 (snd (fst (allocate_all h init l))) (Z.of_nat k)
             = Ok (set_id (Z.of_nat k') (h r))
             /\ id (set_id (Z.of_nat k') (h r)) = Z.of_nat k').
  { intros k k' r Hk La. split; [|apply vfs_invariants.id_set_id].
    unfold get. specialize (I3 k r Hk). rewrite Z.add_0_l in I3. rewrite I3.
    destruct (refs_objects_spec l h init r) as [_ Hr].
    rewrite (Hr k' La). reflexivity. }
  split; [|split; [|split; [|split; [|split]]]].
  - rewrite I1. apply map_ext. intros a. lia.
  - rewrite I2. lia.
  - intros i Hi. unfold get. rewrite I4 by lia. reflexivity.
  - exact G.
  - intros N k r Hk. apply G; [exact Hk|]. apply last_at_NoDup; assumption.
  - intros r. unfold get. cbn. rewrite lookup_insert_ne by lia.
    rewrite lookup_insert_eq. unfold update. rewrite Nat.eqb_refl.
    rewrite set_id_twice. reflexivity.
Qed.

Lemma allocations_are_numbered_witness :
  let h := fun r : ref =>
             match r with
             | O => new_Directory 5 (-1)
             | _ => new_File 6 (-1) nil
             end in
  get (fst (fst (allocate_all h init [0; 1]%nat)))
      (snd (fst (allocate_all h init [0; 1]%nat))) 1
  = Ok (File 1 (new_Meta 6) [])
  /\ get (fst (fst (allocate_all h init [1; 1]%nat)))
         (snd (fst (allocate_all h init [1; 1]%nat))) 0
     = Ok (File 1 (new_Meta 6) []).
Proof.
  intros h. split.
  - refine (proj1 (proj1 (proj2 (proj2 (proj2 (proj2
              (allocations_are_numbered h [0; 1]%nat)))))
              _ 1%nat 1%nat _)).
    + apply NoDup_cons_2; [|apply NoDup_singleton].
      intros Hin. apply list_elem_of_singleton in Hin. discriminate.
    + reflexivity.
  - refine (proj1 (proj1 (proj2 (proj2 (proj2
              (allocations_are_numbered h [1; 1]%nat))))
              0%nat 1%nat 1%nat _ _)).
    + reflexivity.
    + split; [reflexivity|]. intros [|[|k']] Hlt; [lia | lia | discriminate].
Defined.

(** The table that stores copies ([inode_table], which the namespace
    model uses) and the table that stores references answer every [get]
    alike when the objects allocated are pairwise distinct, as those of
    [VFS] are: each is made by the constructor call in the argument of
    [allocate]. *)
Theorem copying_table_agrees :
  forall (h : objects) (l : list ref),
    NoDup l ->
    snd (allocate_all h init l)
    = snd (table_more.allocate_all inode_table.init (map h l))
    /\ forall i : Z,
         get (fst (fst (allocate_all h init l)))
             (snd (fst (allocate_all h init l))) i
         = inode_table.get
             (fst (table_more.allocate_all inode_table.init (map h l))) i.
Proof.
  intros h l N.
  destruct (refs_table_spec l h init) as (I1 & _ & I3 & I4).
  destruct (table_props.allocate_all_spec (map h l) inode_table.init)
    as (J1 & _ & J3 & J4).
  change (_next_id init) with 0 in I1, I3, I4.
  change (inode_table._next_id inode_table.init) with 0 in J1, J3, J4.
  rewrite length_map in J1, J4.
  split; [rewrite I1, J1; reflexivity|].
  intros i.
  destruct (decide (0 <= i < Z.of_nat (length l))) as [Hi|Hi].
  - assert (Hk : exists k, i = Z.of_nat k /\ (k < length l)%nat).
    { exists (Z.to_nat i). lia. }
    destruct Hk as (k & -> & Hlt).
    destruct (lookup_lt_is_Some_2 l k Hlt) as [r Hr].
    unfold get, inode_table.get.
    specialize (I3 k r Hr). rewrite Z.add_0_l in I3. rewrite I3.
    assert (Hm : map h l !! k = Some (h r)).
    { change (map h l) with (h <$> l). rewrite list_lookup_fmap, Hr.
      reflexivity. }
    specialize (J3 k (h r) Hm). rewrite Z.add_0_l in J3. rewrite J3.
    destruct (refs_objects_spec l h init r) as [_ Ho].
    rewrite (Ho k (last_at_NoDup l k r N Hr)). reflexivity.
  - unfold get, inode_table.get. rewrite I4, J4 by lia. reflexivity.
Qed.

Lemma copying_table_agrees_witness :
  let h := fun r : ref =>
             match r with
             | O => new_Directory 5 (-1)
             | _ => new_File 6 (-1) nil
             end in
  get (fst (fst (allocate_all h init [0; 1]%nat)))
      (snd (fst (allocate_all h init [0; 1]%nat))) 1
  = inode_table.get
      (fst (table_more.allocate_all inode_table.init
              [new_Directory 5 (-1); new_File 6 (-1) nil])) 1.
Proof.
  intros h.
  refine (proj2 (copying_table_agrees h [0; 1]%nat _) 1).
  apply NoDup_cons_2; [|apply NoDup_singleton].
  intros Hin. apply list_elem_of_singleton in Hin. discriminate.
Defined.

End table_refs.

(** ** The directories that resolution creates *)

Module vfs_mkdirp.
Import node inode_table vfs vfs_spec vfs_props vfs_invariants walk_props
       vfs_ops vfs_more vfs_paths vfs_sequences path_props.

Lemma lookup_walk_app s a : forall b cur,
  lookup_walk s (a ++ b) cur
  = match lookup_walk s a cur with
    | Some q => lookup_walk s b q
    | None => None
    end.
Proof.
  induction a as [|x a IH]; intros b cur; [reflexivity|].
  cbn [app lookup_walk].
  destruct (tbl s !! cur) as [[j m c|j m c]|]; try reflexivity.
  destruct (rbtree.getitem x c); [apply IH | reflexivity].
Qed.

Lemma lookup_walk_lt s segs cur p :
  wf s -> segs <> [] -> lookup_walk s segs cur = Some p -> cur < p.
Proof.
  intros W Hne. destruct segs as [|seg rest]; [contradiction|].
  cbn [lookup_walk].
  destruct (tbl s !! cur) as [[j m c|j m c]|] eqn:T; try discriminate.
  destruct (rbtree.getitem seg c) as [child|e] eqn:G; [|discriminate].
  intros L. apply lookup_walk_le in L; [|exact W].
  apply rbtree_props.getitem_elem in G.
  pose proof (wf_child s W _ _ _ _ _ _ T G). lia.
Qed.

(** Where a prefix of a successful lookup leads lies before its end. *)
Lemma lookup_walk_prefix s segs cur p n q :
  wf s -> lookup_walk s segs cur = Some p ->
  lookup_walk s (take n segs) cur = Some q ->
  q <= p /\ ((n < length segs)%nat -> q < p).
Proof.
  intros W L Ln. rewrite <- (take_drop n segs), lookup_walk_app, Ln in L.
  split; [eapply lookup_walk_le; eauto|].
  intros Hlt. eapply lookup_walk_lt; [exact W| |exact L].
  intros E. apply (f_equal length) in E. rewrite length_drop in E.
  cbn in E. lia.
Qed.

(** From the directory allocated last, when it is empty, the loop makes
    one directory per component, each under the next identity and
    holding the next component alone. *)
Lemma walk_chain now : forall rest cur s M,
  wf s -> tbl s !! cur = Some (Directory cur M []) -> nxt s = cur + 1 ->
  exists s1,
    walk now rest cur s = (s1, Ok (cur + Z.of_nat (length rest)))
    /\ nxt s1 = nxt s + Z.of_nat (length rest)
    /\ (forall i, i < cur -> tbl s1 !! i = tbl s !! i)
    /\ (forall n, (n <= length rest)%nat ->
          lookup_walk s1 (take n rest) cur = Some (cur + Z.of_nat n)
          /\ tbl s1 !! (cur + Z.of_nat n)
             = Some (Directory (cur + Z.of_nat n)
                       (match n with O => M | _ => new_Meta now end)
                       (match rest !! n with
                        | Some x => [(x, cur + Z.of_nat n + 1)]
                        | None => []
                        end))).
Proof.
  induction rest as [|seg rest IH]; intros cur s M W T N.
  - exists s. cbn [walk length]. rewrite Z.add_0_r.
    split; [reflexivity|]. split; [lia|]. split; [auto|].
    intros n Hn. assert (n = 0%nat) as -> by (cbn in Hn; lia).
    cbn. rewrite Z.add_0_r. auto.
  - rewrite walk_cons, T. cbn [rbtree.getitem].
    set (s2 := fst (create s cur (Directory cur M []) seg
                      (new_Directory now (-1)))).
    assert (W2 : wf s2) by (apply wf_create; assumption).
    assert (T2 : tbl s2 !! nxt s = Some (Directory (nxt s) (new_Meta now) [])).
    { unfold s2. rewrite tbl_create. repeat case_decide; try lia.
      reflexivity. }
    assert (N2 : nxt s2 = nxt s + 1) by apply nxt_create.
    destruct (IH (nxt s) s2 (new_Meta now) W2 T2 N2)
      as (s1 & Hw & Hn1 & Hlow & Hch).
    exists s1. rewrite Hw. cbn [length].
    split; [do 2 f_equal; lia|]. split; [lia|].
    assert (Tc : tbl s1 !! cur = Some (Directory cur M [(seg, nxt s)])).
    { rewrite Hlow by lia. unfold s2. rewrite tbl_create.
      case_decide; [reflexivity | congruence]. }
    split.
    { intros i Hi. rewrite Hlow by lia. unfold s2. rewrite tbl_create.
      repeat case_decide; try lia. reflexivity. }
    intros [|n] Hn.
    + cbn [take lookup_walk]. rewrite Z.add_0_r.
      split; [reflexivity|]. rewrite Tc, N. reflexivity.
    + destruct (Hch n ltac:(lia)) as [L E].
      cbn [take lookup_walk]. rewrite Tc. cbn [rbtree.getitem].
      rewrite rbtree_props.str_eq_refl, L.
      replace (cur + Z.of_nat (S n)) with (nxt s + Z.of_nat n) by lia.
      split; [reflexivity|]. rewrite E. cbn [lookup list_lookup].
      destruct n; reflexivity.
Qed.

(** The loop of [_split_path] returns when no file stands in the way;
    every prefix of the components then leads somewhere: where it led
    before, or to a directory that the loop has allocated, which holds
    the next component alone, or nothing when it is the last. *)
Lemma walk_prefixes now : forall segs cur s,
  wf s -> through s segs cur ->
  exists s1 p,
    walk now segs cur s = (s1, Ok p)
    /\ forall n, (n <= length segs)%nat ->
         exists q,
           lookup_walk s1 (take n segs) cur = Some q
           /\ (lookup_walk s (take n segs) cur = Some q
               \/ (lookup_walk s (take n segs) cur = None
                   /\ nxt s <= q
                   /\ tbl s1 !! q
                      = Some (Directory q (new_Meta now)
                                (match segs !! n with
                                 | Some x => [(x, q + 1)]
                                 | None => []
                                 end)))).
Proof.
  induction segs as [|seg rest IH]; intros cur s W Th.
  - exists s, cur. split; [reflexivity|].
    intros n Hn. assert (n = 0%nat) as -> by (cbn in Hn; lia).
    exists cur. cbn. auto.
  - destruct (Th 0%nat cur) as (j & m & c & T); [cbn; lia | reflexivity |].
    rewrite walk_cons, T.
    destruct (rbtree.getitem seg c) as [child|e] eqn:G.
    + assert (Th' : through s rest child).
      { intros n p Hn L. apply (Th (S n) p); [cbn; lia|].
        cbn [take lookup_walk]. rewrite T, G. exact L. }
      destruct (IH child s W Th') as (s1 & p & Hw & Hpre).
      exists s1, p. split; [exact Hw|].
      pose proof (walk_agree now rest child s W) as [_ A].
      rewrite Hw in A. cbn [fst] in A.
      pose proof (rbtree_props.getitem_elem _ _ _ G) as Hin.
      pose proof (wf_child s W _ _ _ _ _ _ T Hin) as Hlt.
      intros [|n] Hn; [exists cur; cbn; auto|].
      destruct (Hpre n ltac:(cbn in Hn; lia)) as (q & L1 & D).
      exists q. cbn [take lookup_walk]. rewrite A by lia. rewrite T, G.
      split; [exact L1 | exact D].
    + pose proof (wf_dom s W _ _ T) as Hlt.
      set (s2 := fst (create s cur (Directory j m c) seg
                        (new_Directory now (-1)))).
      assert (W2 : wf s2) by (apply wf_create; assumption).
      assert (T2 : tbl s2 !! nxt s
                   = Some (Directory (nxt s) (new_Meta now) [])).
      { unfold s2. rewrite tbl_create. repeat case_decide; try lia.
        reflexivity. }
      assert (N2 : nxt s2 = nxt s + 1) by apply nxt_create.
      destruct (walk_chain now rest (nxt s) s2 (new_Meta now) W2 T2 N2)
        as (s1 & Hw & Hn1 & Hlow & Hch).
      exists s1, (nxt s + Z.of_nat (length rest)). split; [exact Hw|].
      assert (Tc : tbl s1 !! cur
                   = Some (Directory j m (rbtree.setitem seg (nxt s) c))).
      { rewrite Hlow by lia. unfold s2. rewrite tbl_create.
        case_decide; [reflexivity | congruence]. }
      intros [|n] Hn; [exists cur; cbn; auto|].
      destruct (Hch n ltac:(cbn in Hn; lia)) as [L E].
      exists (nxt s + Z.of_nat n). cbn [take lookup_walk].
      rewrite Tc, rbtree_props.getitem_setitem, T, G.
      split; [exact L|]. right. split; [reflexivity|]. split; [lia|].
      rewrite E. cbn [lookup list_lookup]. destruct n; reflexivity.
Qed.

(** What a command leaves of the parent it has resolved, when the parent
    was empty: at most the name the command is about. *)
Lemma parent_after_command now o s s1 pid name m :
  wf s -> encodes o ->
  _split_path now (path_of o) s = (s1, Ok (pid, name)) ->
  path_of o <> "/"%string ->
  tbl s1 !! pid = Some (Directory pid m []) ->
  exists c,
    tbl (fst (run now o s)) !! pid = Some (Directory pid m c)
    /\ forall x child, (x, child) ∈ c -> x = name.
Proof.
  intros W He Hs Hnr T.
  pose proof (split_path_wf now (path_of o) s W) as W1.
  rewrite Hs in W1. cbn [fst] in W1.
  pose proof (wf_dom s1 W1 _ _ T) as Hlt.
  assert (Hnew : forall inode,
            exists c,
              tbl (fst (create s1 pid (Directory pid m []) name inode)) !! pid
              = Some (Directory pid m c)
              /\ forall x child, (x, child) ∈ c -> x = name).
  { intros inode. exists [(name, nxt s1)]. rewrite tbl_create.
    case_decide; [|congruence]. split; [reflexivity|].
    intros x child Hin. apply list_elem_of_singleton in Hin. congruence. }
  assert (Hsame : exists c,
            tbl s1 !! pid = Some (Directory pid m c)
            /\ forall x child, (x, child) ∈ c -> x = name).
  { exists []. split; [exact T|]. intros x child Hin.
    apply elem_of_nil in Hin. contradiction. }
  destruct o as [p|p|p d|p|p|p]; cbn [run path_of] in *; rewrite lift_fst.
  - unfold mkdir. rewrite (resolve_parent_of_split _ _ _ _ _ _ Hs), T.
    cbn [get_child rbtree.getitem]. apply Hnew.
  - unfold touch. rewrite (resolve_parent_of_split _ _ _ _ _ _ Hs), T.
    cbn [get_child rbtree.getitem]. apply Hnew.
  - destruct He as [b Hb]. rewrite (write_encoded _ _ _ _ _ Hb).
    unfold write_bytes.
    rewrite (resolve_parent_of_split _ _ _ _ _ _ Hs), T.
    cbn [get_child rbtree.getitem]. apply Hnew.
  - unfold read. rewrite (resolve_parent_of_split _ _ _ _ _ _ Hs), T.
    cbn [get_child rbtree.getitem fst]. exact Hsame.
  - unfold ls. destruct (String.eqb p "/") eqn:E.
    + apply String.eqb_eq in E. contradiction.
    + rewrite Hs. unfold get. rewrite T. cbn [get_child rbtree.getitem fst].
      exact Hsame.
  - unfold rm. rewrite (resolve_parent_of_split _ _ _ _ _ _ Hs), T.
    cbn [get_child rbtree.getitem fst]. exact Hsame.
Qed.

(** C8.  Take any command of the six on the path made of the
    components [dirs] and then [name], in a well-formed namespace where
    no file stands in the way along [dirs] (and, for a [write] of a
    [str], where the [str] can be encoded, since [write] encodes before
    it resolves).  Then [_split_path] returns the directory reached
    along [dirs] and [name]; whether the command then returns or raises,
    in the state it leaves every prefix of [dirs] leads somewhere by
    lookups alone: where it led before, or, when it led nowhere before,
    to a directory allocated under a new identity, stored under it, with
    size 0 and permissions ["rw"], which resolution left holding the
    next component of [dirs] alone (nothing, when it is the last) and
    which the command leaves as resolution left it (the last holding at
    most [name]).  [ls] of every prefix shows the next component, and
    nothing else when the prefix had to be created.  On a fresh
    namespace [touch("/a/b/c.txt")] makes [/a] and [/a/b], as [ls]
    shows, and even a [read] that raises [FileNotFound] has made the
    directories on its path. *)
Theorem intermediate_directories_created :
  (forall (s : VFS) (now : Z) (o : op) (dirs : list string) (name : string),
     wf s ->
     encodes o ->
     Forall component dirs ->
     component name ->
     path_of o = path_to (dirs ++ [name]) ->
     through s dirs (root_id s) ->
     let s1 := fst (_split_path now (path_of o) s) in
     let s' := fst (run now o s) in
     exists pid : Z,
       snd (_split_path now (path_of o) s) = Ok (pid, name)
       /\ lookup_walk s' dirs (root_id s) = Some pid
       /\ (forall n : nat,
             (n <= length dirs)%nat ->
             exists q : Z,
               lookup_walk s' (take n dirs) (root_id s) = Some q
               /\ (lookup_walk s (take n dirs) (root_id s) = Some q
                   \/ (lookup_walk s (take n dirs) (root_id s) = None
                       /\ nxt s <= q
                       /\ exists m,
                            new_meta m 0
                            /\ tbl s1 !! q
                               = Some (Directory q m
                                         (match dirs !! n with
                                          | Some x => [(x, q + 1)]
                                          | None => []
                                          end))
                            /\ ((n < length dirs)%nat ->
                                tbl s' !! q = tbl s1 !! q)
                            /\ exists c,
                                 tbl s' !! q = Some (Directory q m c)
                                 /\ forall x child,
                                      (x, child) ∈ c ->
                                      (dirs ++ [name]) !! n = Some x)))
       /\ (forall (n : nat) (x : string) (now' : Z),
             dirs !! n = Some x ->
             exists names,
               ls now' (path_to (take n dirs)) s' = (s', Ok names)
               /\ x ∈ names
               /\ (lookup_walk s (take n dirs) (root_id s) = None ->
                   names = [x])))
  /\ (let r := touch 1 "/a/b/c.txt" (init 0) in
      snd r = Ok tt
      /\ snd (ls 2 "/" (fst r)) = Ok ["a"%string]
      /\ snd (ls 2 "/a" (fst r)) = Ok ["b"%string]
      /\ snd (ls 2 "/a/b" (fst r)) = Ok ["c.txt"%string])
  /\ (let r := read 1 "/x/y/z" (init 0) in
      snd r = Raise (FileNotFound "z")
      /\ snd (ls 2 "/" (fst r)) = Ok ["x"%string]
      /\ snd (ls 2 "/x" (fst r)) = Ok ["y"%string]).
Proof.
  split; [|split; cbv zeta; repeat split; vm_compute; reflexivity].
  intros s now o dirs name W He Fd Cn Hp Th s1 s'.
  assert (Fall : Forall component (dirs ++ [name])).
  { apply Forall_app. split; [exact Fd|]. constructor; [exact Cn|constructor]. }
  assert (Hnr : path_of o <> "/"%string).
  { rewrite Hp. destruct dirs as [|d dirs]; cbn [app].
    - apply path_to_not_root. exact Cn.
    - apply path_to_not_root. inversion Fd; assumption. }
  destruct (walk_prefixes now dirs (root_id s) s W Th) as (s2 & pid & Hw & Hpre).
  assert (Hs : _split_path now (path_of o) s = (s2, Ok (pid, name))).
  { unfold _split_path. rewrite Hp, is_absolute_path_to. cbn [negb].
    rewrite (parts_path_to _ Fall), but_last_snoc, final_snoc, Hw.
    reflexivity. }
  assert (E1 : s1 = s2) by (unfold s1; rewrite Hs; reflexivity).
  clearbody s1. subst s2.
  pose proof (split_path_wf now (path_of o) s W) as W1.
  rewrite Hs in W1. cbn [fst] in W1.
  pose proof (run_agree now o s s1 pid name W He Hs) as A.
  fold s' in A.
  pose proof (walk_agree now dirs (root_id s) s W) as [R _].
  rewrite Hw in R. cbn [fst] in R.
  pose proof (walk_lookup _ _ _ _ _ _ W Hw) as Lfull.
  assert (R' : root_id s' = root_id s) by (destruct A as [A _]; congruence).
  assert (Lpre : forall n, (n <= length dirs)%nat ->
            exists q,
              lookup_walk s1 (take n dirs) (root_id s) = Some q
              /\ lookup_walk s' (take n dirs) (root_id s) = Some q
              /\ q <= pid /\ ((n < length dirs)%nat -> q < pid)
              /\ (lookup_walk s (take n dirs) (root_id s) = Some q
                  \/ (lookup_walk s (take n dirs) (root_id s) = None
                      /\ nxt s <= q
                      /\ tbl s1 !! q
                         = Some (Directory q (new_Meta now)
                                   (match dirs !! n with
                                    | Some x => [(x, q + 1)]
                                    | None => []
                                    end))))).
  { intros n Hn. destruct (Hpre n Hn) as (q & L1 & D). exists q.
    destruct (lookup_walk_prefix s1 dirs (root_id s) pid n q W1 Lfull L1)
      as [Hle Hlt].
    split; [exact L1|]. split; [|auto].
    rewrite <- R in L1 |- *.
    eapply lookup_walk_agree; [exact W1 | exact L1 |].
    eapply agree_below_weaken; [|exact A]. exact Hle. }
  exists pid. split; [rewrite Hs; reflexivity|].
  split.
  { rewrite <- R in Lfull |- *.
    eapply lookup_walk_agree; [exact W1 | exact Lfull | exact A]. }
  split.
  - intros n Hn.
    destruct (Lpre n Hn) as (q & L1 & L' & Hle & Hlt & [D|(D1 & D2 & D3)]);
      exists q; (split; [exact L'|]); [left; exact D | right].
    split; [exact D1|]. split; [exact D2|].
    exists (new_Meta now). split; [split; reflexivity|].
    split; [exact D3|].
    assert (Hkeep : (n < length dirs)%nat -> tbl s' !! q = tbl s1 !! q).
    { intros Hn'. destruct A as [_ A]. apply A. auto. }
    split; [exact Hkeep|].
    destruct (decide (n < length dirs)%nat) as [Hn'|Hn'].
    + destruct (lookup_lt_is_Some_2 dirs n Hn') as [x Hx].
      rewrite Hx in D3. exists [(x, q + 1)].
      rewrite (Hkeep Hn'). split; [exact D3|].
      intros x' child Hin. apply list_elem_of_singleton in Hin.
      injection Hin as -> _. rewrite lookup_app_l by exact Hn'. exact Hx.
    + assert (n = length dirs) as -> by lia.
      rewrite firstn_all in L1. rewrite L1 in Lfull. injection Lfull as ->.
      rewrite (lookup_ge_None_2 dirs (length dirs)) in D3 by lia.
      destruct (parent_after_command now o s s1 pid name (new_Meta now)
                  W He Hs Hnr D3) as (c & Tc & Hc).
      exists c. split; [exact Tc|].
      intros x child Hin. rewrite (Hc x child Hin).
      apply list_lookup_middle. reflexivity.
  - intros n x now' Hx.
    pose proof (lookup_lt_Some _ _ _ Hx) as Hn.
    destruct (Lpre (S n) ltac:(lia)) as (q' & _ & L' & _).
    rewrite (take_S_r _ _ _ Hx) in L'.
    destruct (lookup_walk_snoc _ _ _ _ _ L') as (q & j & m & c & Lq & Tq & Gq).
    assert (P : parent_at s' (path_to (take (S n) dirs)) q (Directory j m c)).
    { assert (Ft : Forall component (take (S n) dirs))
        by (apply Forall_take; exact Fd).
      unfold parent_at. rewrite (parts_path_to _ Ft).
      rewrite (take_S_r _ _ _ Hx), but_last_snoc, R'.
      repeat split; [exact Lq | exact Tq]. }
    assert (Q : parent_path (path_to (take n dirs))
                  (path_to (take (S n) dirs))).
    { assert (Ft : Forall component (take (S n) dirs))
        by (apply Forall_take; exact Fd).
      assert (Fn : Forall component (take n dirs))
        by (apply Forall_take; exact Fd).
      unfold parent_path. rewrite (parts_path_to _ Ft), (parts_path_to _ Fn).
      rewrite (take_S_r _ _ _ Hx), but_last_snoc.
      split; [reflexivity|]. split; [reflexivity|].
      destruct n as [|n]; [left; reflexivity | right].
      destruct dirs; [discriminate | cbn; discriminate]. }
    exists (rbtree.keys c).
    split; [exact (ls_parent now' _ _ _ _ _ _ _ P Q)|].
    split; [exact (getitem_key _ _ _ Gq)|].
    intros Hnone.
    destruct (Lpre n ltac:(lia)) as (q0 & _ & L0 & _ & Hlt & [D|(_ & _ & D3)]);
      [congruence|].
    rewrite L0 in Lq. injection Lq as <-.
    destruct A as [_ A]. rewrite (A q0 (Hlt Hn)), D3, Hx in Tq.
    injection Tq as _ _ <-. reflexivity.
Qed.

Lemma intermediate_directories_created_witness :
  ls 2 "/a" (fst (run 1 (Touch "/a/b/c.txt") fresh))
  = (fst (run 1 (Touch "/a/b/c.txt") fresh), Ok ["b"%string]).
Proof.
  destruct (proj1 intermediate_directories_created fresh 1
              (Touch "/a/b/c.txt") ["a"%string; "b"%string] "c.txt"%string)
    as (pid & _ & _ & _ & H).
  - exact (wf_init 0).
  - exact I.
  - repeat constructor.
  - repeat constructor.
  - reflexivity.
  - intros [|[|n]] p Hn L; try (cbn in Hn; lia).
    + injection L as <-. vm_compute. eauto.
    + vm_compute in L. discriminate.
  - destruct (H 1%nat "b"%string 2 eq_refl) as (names & E & _ & Hn).
    rewrite (Hn eq_refl) in E. exact E.
Defined.

End vfs_mkdirp.

(** ** The shape that the B-tree keeps *)

Module btree_shape.
Import btree btree_facts index_ops order_props bisect_props btree_more.

(** *** The order of keys *)

Lemma lt_le_trans a b c :
  py.str_lt a b = true -> py.str_lt c b = false -> py.str_lt a c = true.
Proof.
  intros H1 H2. destruct (py.str_lt b c) eqn:E.
  - eapply lt_trans; eassumption.
  - rewrite <- (lt_total _ _ E H2). exact H1.
Qed.

Lemma le_lt_trans a b c :
  py.str_lt b a = false -> py.str_lt b c = true -> py.str_lt a c = true.
Proof.
  intros H1 H2. destruct (py.str_lt a b) eqn:E.
  - eapply lt_trans; eassumption.
  - rewrite (lt_total _ _ E H1). exact H2.
Qed.

Lemma le_trans a b c :
  py.str_lt b a = false -> py.str_lt c b = false -> py.str_lt c a = false.
Proof.
  intros H1 H2. destruct (py.str_lt c a) eqn:E; [|reflexivity].
  rewrite (lt_le_trans _ _ _ E H1) in H2. discriminate.
Qed.

Lemma lt_ne a b : py.str_lt a b = true -> a <> b.
Proof. intros H ->. rewrite lt_irrefl in H. discriminate. Qed.

Lemma lt_cases a b : a <> b -> py.str_lt a b = false -> py.str_lt b a = true.
Proof.
  intros Hne H. destruct (py.str_lt b a) eqn:E; [reflexivity|].
  exfalso. apply Hne. apply lt_total; assumption.
Qed.

Lemma under_upto hi k : under hi k -> upto hi k.
Proof. destruct hi as [h|]; cbn; [apply lt_asym | auto]. Qed.

Lemma above_lt lo a b : above lo a -> py.str_lt a b = true -> above lo b.
Proof. destruct lo as [l|]; cbn; [apply lt_trans | auto]. Qed.

Lemma above_le lo a b : above lo a -> py.str_lt b a = false -> above lo b.
Proof. destruct lo as [l|]; cbn; [apply lt_le_trans | auto]. Qed.

Lemma upto_le hi a b : upto hi a -> py.str_lt a b = false -> upto hi b.
Proof.
  destruct hi as [h|]; cbn; [|auto]. intros H1 H2.
  eapply le_trans; eassumption.
Qed.

Lemma under_lt hi a b : under hi a -> py.str_lt b a = true -> under hi b.
Proof.
  destruct hi as [h|]; cbn; [|auto]. intros H1 H2.
  eapply lt_trans; eassumption.
Qed.

Lemma under_le hi a b : upto hi a -> py.str_lt b a = true -> under hi b.
Proof.
  destruct hi as [h|]; cbn; [|auto]. intros H1 H2.
  eapply lt_le_trans; eassumption.
Qed.

Lemma within_weaken lo lo' hi hi' k :
  within lo' hi' k ->
  (above lo' k -> above lo k) -> (upto hi' k -> upto hi k) ->
  within lo hi k.
Proof. intros [H1 H2] A B. split; auto. Qed.

(** *** Increasing sequences *)

Lemma sorted_app a b :
  sorted a -> sorted b ->
  (forall x y, x ∈ a -> y ∈ b -> py.str_lt x y = true) ->
  sorted (a ++ b).
Proof.
  induction a as [|x a IH]; intros Ha Hb H; [exact Hb|].
  destruct Ha as [F Ha]. cbn [app sorted]. split.
  - apply Forall_app. split; [exact F|].
    apply Forall_forall. intros y Hy. apply H; [left | exact Hy].
  - apply IH; auto. intros x' y Hx Hy. apply H; [right; exact Hx | exact Hy].
Qed.

Lemma sorted_lookup_lt a : forall i j x y,
  sorted a -> a !! i = Some x -> a !! j = Some y -> (i < j)%nat ->
  py.str_lt x y = true.
Proof.
  induction a as [|z a IH]; intros i j x y Hs Hi Hj Hlt; [discriminate|].
  destruct Hs as [F Hs]. destruct j as [|j]; [lia|]. cbn in Hj.
  destruct i as [|i]; cbn in Hi.
  - injection Hi as <-. rewrite Forall_forall in F. apply F.
    eapply list_elem_of_lookup_2. exact Hj.
  - eapply IH; eauto. lia.
Qed.

Lemma sorted_take a n : sorted a -> sorted (take n a).
Proof.
  revert n. induction a as [|z a IH]; intros [|n] Hs; cbn; auto.
  destruct Hs as [F Hs]. split; [|auto].
  apply Forall_take. exact F.
Qed.

Lemma sorted_drop a n : sorted a -> sorted (drop n a).
Proof.
  revert n. induction a as [|z a IH]; intros [|n] Hs; cbn [drop]; auto.
  destruct Hs as [F Hs]. auto.
Qed.

Lemma sorted_no_dup a : sorted a -> NoDup a.
Proof.
  induction a as [|y a IH]; intros Hs; [constructor|].
  destruct Hs as [F Hs]. constructor; [|auto].
  intros Hin. rewrite Forall_forall in F. specialize (F _ Hin).
  rewrite lt_irrefl in F. discriminate.
Qed.

Lemma rank_all_above k a :
  Forall (fun z => py.str_lt k z = true) a -> rank k a = O.
Proof.
  destruct a as [|y a]; [reflexivity|]. intros F.
  apply Forall_cons in F as [H _]. cbn. rewrite (lt_asym _ _ H). reflexivity.
Qed.

(** *** Slices *)

Lemma slice_to_take {A} (l : list A) a :
  0 <= a -> py.slice_to l a = take (Z.to_nat a) l.
Proof.
  intros Ha. unfold py.slice_to, py.clip.
  destruct (Z.ltb_spec a 0) as [|_]; [lia|].
  destruct (Nat.le_ge_cases (Z.to_nat a) (length l)) as [H|H].
  - rewrite Nat.min_l by exact H. reflexivity.
  - rewrite Nat.min_r by exact H. rewrite !take_ge by lia. reflexivity.
Qed.

Lemma slice_from_drop {A} (l : list A) a :
  0 <= a -> py.slice_from l a = drop (Z.to_nat a) l.
Proof.
  intros Ha. unfold py.slice_from, py.clip.
  destruct (Z.ltb_spec a 0) as [|_]; [lia|].
  destruct (Nat.le_ge_cases (Z.to_nat a) (length l)) as [H|H].
  - rewrite Nat.min_l by exact H. reflexivity.
  - rewrite Nat.min_r by exact H. rewrite !drop_ge by lia. reflexivity.
Qed.

Lemma getitem_int_lookup {A} (l : list A) a :
  0 <= a -> py.getitem_int l a = py.getitem l (Z.to_nat a).
Proof.
  intros Ha. unfold py.getitem_int.
  destruct (Z.ltb_spec a 0) as [|_]; [lia | reflexivity].
Qed.

(** *** Items and pivots *)

Lemma items_leaf c : items (mkNode true (map fst c) (map snd c) []) = c.
Proof.
  cbn. induction c as [|[k v] c IH]; [reflexivity|]. cbn. f_equal. exact IH.
Qed.

Lemma held_leaf c : held (mkNode true (map fst c) (map snd c) []) = map fst c.
Proof. unfold held. rewrite items_leaf. reflexivity. Qed.

Lemma items_node ks vs kds :
  items (mkNode false ks vs kds) = List.concat (List.map items kds).
Proof. reflexivity. Qed.

Lemma pivots_node ks vs kds :
  pivots (mkNode false ks vs kds) = ks ++ List.concat (List.map pivots kds).
Proof. reflexivity. Qed.

Lemma held_node ks vs kds :
  held (mkNode false ks vs kds) = List.concat (List.map held kds).
Proof.
  unfold held. rewrite items_node.
  induction kds as [|kid kds IH]; [reflexivity|].
  cbn [List.map List.concat]. rewrite map_app, IH. reflexivity.
Qed.

(** *** What the shape says about the keys *)

Lemma ok_kids_keys lo hi ks kds :
  ok_kids lo hi ks kds -> sorted ks /\ Forall (within lo hi) ks.
Proof.
  induction 1 as [lo hi kid H|lo k kid A H Hk|lo hi k ks kid kds A U H Hk T IH].
  - split; [exact I | constructor].
  - split; [cbn; auto|]. constructor; [|constructor].
    split; [exact A|]. cbn. apply lt_irrefl.
  - destruct IH as [S F]. split.
    + cbn. split; [|exact S].
      eapply Forall_impl; [exact F|]. intros z [Hz _]. exact Hz.
    + constructor; [split; assumption|].
      eapply Forall_impl; [exact F|]. intros z [Hz Hz']. split; [|exact Hz'].
      eapply above_lt; eassumption.
Qed.

Lemma ok_keys lo hi n :
  ok lo hi n -> sorted (keys n) /\ Forall (within lo hi) (keys n).
Proof.
  intros [lo' hi' c S F|lo' hi' ks vs kds H]; cbn [keys].
  - auto.
  - eapply ok_kids_keys; eauto.
Qed.

Lemma ok_held lo hi n :
  ok lo hi n -> sorted (held n) /\ Forall (within lo hi) (held n).
Proof.
  revert lo hi n.
  apply (ok_mut
           (fun lo hi n _ => sorted (held n) /\ Forall (within lo hi) (held n))
           (fun lo hi ks kds _ =>
              sorted (List.concat (List.map held kds))
              /\ Forall (within lo hi) (List.concat (List.map held kds)))).
  - intros lo hi c S F. rewrite held_leaf. auto.
  - intros lo hi ks vs kds _ IH. rewrite held_node. exact IH.
  - intros lo hi kid _ [S F]. cbn. rewrite app_nil_r. auto.
  - intros lo k kid _ _ [S F] _. cbn. rewrite app_nil_r. auto.
  - intros lo hi k ks kid kds A U _ [S F] _ _ [S' F'].
    cbn [List.map List.concat]. split.
    + apply sorted_app; try assumption. intros x y Hx Hy.
      rewrite Forall_forall in F, F'.
      destruct (F _ Hx) as [_ Hx']. destruct (F' _ Hy) as [Hy' _].
      cbn in Hx', Hy'. eapply le_lt_trans; eassumption.
    + apply Forall_app. split.
      * eapply Forall_impl; [exact F|]. intros z [H1 H2]. split; [exact H1|].
        eapply upto_le; eassumption.
      * eapply Forall_impl; [exact F'|]. intros z [H1 H2]. split; [|exact H2].
        cbn in H1. eapply above_lt; eassumption.
Qed.

Lemma ok_kids_held lo hi ks kds :
  ok_kids lo hi ks kds ->
  sorted (List.concat (List.map held kds))
  /\ Forall (within lo hi) (List.concat (List.map held kds)).
Proof.
  intros H. pose proof (ok_held lo hi (mkNode false ks [] kds) (ok_node _ _ _ _ _ H))
    as R. rewrite held_node in R. exact R.
Qed.

(** Every pivot is a key of a leaf below it. *)
Lemma ok_kids_pivot_held lo hi ks kds :
  ok_kids lo hi ks kds ->
  forall k, k ∈ ks -> k ∈ List.concat (List.map held kds).
Proof.
  induction 1 as [lo hi kid H|lo k kid A H Hk|lo hi k ks kid kds A U H Hk T IH];
    intros x Hx.
  - apply elem_of_nil in Hx. contradiction.
  - apply list_elem_of_singleton in Hx. subst x. cbn. rewrite app_nil_r.
    exact Hk.
  - cbn [List.map List.concat]. apply elem_of_app.
    apply elem_of_cons in Hx as [->|Hx]; [left; exact Hk | right; auto].
Qed.

Lemma pivots_held lo hi n :
  ok lo hi n -> forall k, k ∈ pivots n -> k ∈ held n.
Proof.
  revert lo hi n.
  apply (ok_mut
           (fun lo hi n _ => forall k, k ∈ pivots n -> k ∈ held n)
           (fun lo hi ks kds _ =>
              forall k, k ∈ List.concat (List.map pivots kds) ->
                        k ∈ List.concat (List.map held kds))).
  - intros lo hi c S F k Hk. cbn in Hk. apply elem_of_nil in Hk. contradiction.
  - intros lo hi ks vs kds H IH k Hk. rewrite held_node.
    rewrite pivots_node in Hk. apply elem_of_app in Hk as [Hk|Hk].
    + eapply ok_kids_pivot_held; eauto.
    + auto.
  - intros lo hi kid _ IH k. cbn. rewrite !app_nil_r. apply IH.
  - intros lo k kid _ _ IH _ x. cbn. rewrite !app_nil_r. apply IH.
  - intros lo hi k ks kid kds _ _ _ IH _ _ IH' x. cbn [List.map List.concat].
    rewrite !elem_of_app. intros [Hx|Hx]; [left | right]; auto.
Qed.

(** *** Cutting a node in two *)

Lemma not_last_under lo hi ks p pivot :
  sorted ks -> Forall (within lo hi) ks ->
  ks !! p = Some pivot -> (S p < length ks)%nat ->
  under hi pivot.
Proof.
  intros Hs F L Hlt.
  destruct (lookup_lt_is_Some_2 ks (S p) Hlt) as [y Hy].
  pose proof (sorted_lookup_lt ks p (S p) pivot y Hs L Hy ltac:(lia)) as Hlt'.
  rewrite Forall_forall in F.
  destruct (F y (list_elem_of_lookup_2 _ _ _ Hy)) as [_ U].
  eapply under_le; eassumption.
Qed.

Lemma cut_leaf c lo hi p pivot :
  sorted (map fst c) -> Forall (within lo hi) (map fst c) ->
  map fst c !! p = Some pivot ->
  ok lo (Some pivot)
     (mkNode true (map fst (take (S p) c)) (map snd (take (S p) c)) [])
  /\ ok (Some pivot) hi
        (mkNode true (map fst (drop (S p) c)) (map snd (drop (S p) c)) [])
  /\ pivot ∈ map fst (take (S p) c).
Proof.
  intros Hs F L. rewrite Forall_forall in F. split; [|split].
  - constructor.
    + rewrite <- firstn_map. apply sorted_take. exact Hs.
    + rewrite <- firstn_map. apply Forall_forall. intros x Hx.
      apply list_elem_of_lookup_1 in Hx as [i Hi].
      apply lookup_take_Some in Hi as [Hi Hlt].
      destruct (F x (list_elem_of_lookup_2 _ _ _ Hi)) as [A _].
      split; [exact A|]. cbn.
      destruct (decide (i = p)) as [->|Hne].
      * rewrite L in Hi. injection Hi as <-. apply lt_irrefl.
      * apply lt_asym.
        eapply (sorted_lookup_lt _ i p); eauto. lia.
  - constructor.
    + rewrite <- skipn_map. apply sorted_drop. exact Hs.
    + rewrite <- skipn_map. apply Forall_forall. intros x Hx.
      apply list_elem_of_lookup_1 in Hx as [i Hi].
      rewrite lookup_drop in Hi.
      destruct (F x (list_elem_of_lookup_2 _ _ _ Hi)) as [_ U].
      split; [|exact U]. cbn.
      eapply (sorted_lookup_lt _ p (S p + i)); eauto. lia.
  - rewrite <- firstn_map. eapply list_elem_of_lookup_2.
    apply lookup_take_Some. split; [exact L | lia].
Qed.

Lemma cut_kids lo hi ks kds :
  ok_kids lo hi ks kds ->
  forall p pivot,
    ks !! p = Some pivot -> (S p < length ks)%nat ->
    ok_kids lo (Some pivot) (take (S p) ks) (take (S p) kds)
    /\ ok_kids (Some pivot) hi (drop (S p) ks) (drop (S p) kds)
    /\ pivot ∈ List.concat (List.map held (take (S p) kds)).
Proof.
  induction 1 as [lo hi kid H|lo k kid A H Hk|lo hi k ks kid kds A U H Hk T IH];
    intros p pivot L Hlt.
  - discriminate.
  - cbn in Hlt. lia.
  - destruct p as [|p].
    + cbn in L. injection L as <-. cbn [take drop]. rewrite !take_0.
      split; [|split].
      * constructor; assumption.
      * exact T.
      * cbn. rewrite app_nil_r. exact Hk.
    + cbn in L. cbn [length] in Hlt.
      destruct (IH p pivot L ltac:(lia)) as (I1 & I2 & I3).
      cbn [take drop]. split; [|split].
      * constructor; try assumption. cbn.
        destruct (ok_kids_keys _ _ _ _ T) as [_ F].
        rewrite Forall_forall in F.
        destruct (F pivot (list_elem_of_lookup_2 _ _ _ L)) as [Hp _].
        cbn in Hp. apply lt_asym. exact Hp.
      * exact I2.
      * cbn [List.map List.concat]. apply elem_of_app. right. exact I3.
Qed.

Lemma concat_take_drop {A B} (f : A -> list B) n l :
  List.concat (List.map f l)
  = List.concat (List.map f (take n l)) ++ List.concat (List.map f (drop n l)).
Proof.
  rewrite <- concat_app, <- map_app, take_drop. reflexivity.
Qed.

Lemma half_bounds order :
  5 <= order ->
  0 <= order / 2
  /\ Z.to_nat (order / 2 + 1) = S (Z.to_nat (order / 2))
  /\ (S (Z.to_nat (order / 2)) < Z.to_nat (order - 1))%nat.
Proof.
  intros H. pose proof (Z.div_mod order 2 ltac:(lia)) as E.
  pose proof (Z.mod_pos_bound order 2 ltac:(lia)) as M.
  repeat split; lia.
Qed.

(** The two halves of a full node. *)
Lemma split_node order lo hi y :
  5 <= order -> ok lo hi y ->
  Z.of_nat (length (keys y)) = order - 1 ->
  exists pivot,
    py.getitem_int (keys y) (order / 2) = Ok pivot
    /\ ok lo (Some pivot) (left_half order y)
    /\ ok (Some pivot) hi (right_half order y)
    /\ pivot ∈ held (left_half order y)
    /\ above lo pivot /\ under hi pivot
    /\ items y = items (left_half order y) ++ items (right_half order y)
    /\ pivots y ≡ₚ pivots (left_half order y) ++ pivots (right_half order y).
Proof.
  intros Ho Hy Hlen.
  destruct (half_bounds order Ho) as (H0 & Hm & Hp).
  set (p := Z.to_nat (order / 2)) in *.
  assert (Hlt : (S p < length (keys y))%nat) by lia.
  destruct (lookup_lt_is_Some_2 (keys y) p ltac:(lia)) as [pivot L].
  exists pivot.
  destruct (ok_keys _ _ _ Hy) as [Sk Fk].
  pose proof (not_last_under _ _ _ _ _ Sk Fk L Hlt) as Hu.
  assert (Ha : above lo pivot).
  { rewrite Forall_forall in Fk.
    apply (Fk pivot (list_elem_of_lookup_2 _ _ _ L)). }
  split.
  { rewrite getitem_int_lookup by exact H0. unfold py.getitem. fold p.
    rewrite L. reflexivity. }
  unfold left_half, right_half.
  rewrite !slice_to_take, !slice_from_drop by lia. rewrite Hm.
  destruct Hy as [lo hi c Hs F|lo hi ks vs kds H]; cbn [leaf keys vals kids] in *.
  - rewrite !firstn_map, !skipn_map.
    destruct (cut_leaf c lo hi p pivot Hs F L) as (C1 & C2 & C3).
    split; [exact C1|]. split; [exact C2|].
    split; [rewrite held_leaf; exact C3|].
    split; [exact Ha|]. split; [exact Hu|]. split.
    + rewrite !items_leaf, take_drop. reflexivity.
    + reflexivity.
  - destruct (cut_kids _ _ _ _ H p pivot L Hlt) as (C1 & C2 & C3).
    split; [constructor; exact C1|]. split; [constructor; exact C2|].
    split; [rewrite held_node; exact C3|].
    split; [exact Ha|]. split; [exact Hu|]. split.
    + rewrite !items_node. apply concat_take_drop.
    + rewrite !pivots_node.
      rewrite (concat_take_drop pivots (S p) kds).
      rewrite <- (take_drop (S p) ks) at 1.
      rewrite <- !app_assoc. apply Permutation_app_head.
      rewrite !app_assoc. apply Permutation_app_tail.
      apply Permutation_app_comm.
Qed.

(** *** [_split_child] *)

Lemma split_child_eq order lf ks vs kds i y pivot :
  kds !! i = Some y ->
  py.getitem_int (keys y) (order / 2) = Ok pivot ->
  _split_child order (mkNode lf ks vs kds) i
  = Ok (mkNode lf (py.insert i pivot ks) vs
          (py.insert (S i) (right_half order y)
             (<[i := left_half order y]> kds))).
Proof.
  intros L G. unfold _split_child. cbn [kids keys vals leaf].
  unfold py.getitem at 1. rewrite L. cbn [res_bind]. rewrite G.
  cbn [res_bind]. unfold left_half, right_half. reflexivity.
Qed.

Lemma insert_after_set {A} (y' z : A) l :
  forall i y, l !! i = Some y ->
  py.insert (S i) z (<[i := y']> l) = take i l ++ y' :: z :: drop (S i) l.
Proof.
  induction l as [|x l IH]; intros [|i] y L; try discriminate.
  - reflexivity.
  - cbn in L. unfold py.insert in *. cbn. f_equal. exact (IH i y L).
Qed.

Lemma concat_split_kid {A} (f : _Node -> list A) y' z l :
  forall i y, l !! i = Some y -> f y = f y' ++ f z ->
  List.concat (List.map f (py.insert (S i) z (<[i := y']> l)))
  = List.concat (List.map f l).
Proof.
  intros i y L E. rewrite (insert_after_set y' z l i y L).
  pose proof (take_drop_middle l i y L) as M.
  remember (take i l) as a. remember (drop (S i) l) as b.
  rewrite <- M.
  rewrite !map_app, !concat_app. cbn [List.map List.concat].
  rewrite E, <- app_assoc. reflexivity.
Qed.

Lemma perm_split_kid y' z l :
  forall i y, l !! i = Some y -> pivots y ≡ₚ pivots y' ++ pivots z ->
  List.concat (List.map pivots (py.insert (S i) z (<[i := y']> l)))
  ≡ₚ List.concat (List.map pivots l).
Proof.
  intros i y L E. rewrite (insert_after_set y' z l i y L).
  pose proof (take_drop_middle l i y L) as M.
  remember (take i l) as a. remember (drop (S i) l) as b.
  rewrite <- M.
  rewrite !map_app, !concat_app. cbn [List.map List.concat].
  rewrite E, <- app_assoc. reflexivity.
Qed.

Lemma perm_insert {A} (x : A) i l : py.insert i x l ≡ₚ x :: l.
Proof.
  unfold py.insert. rewrite <- Permutation_middle, take_drop. reflexivity.
Qed.

(** The right half holds the keys of the node that are above the pivot. *)
Lemma held_right lo y' z pivot k :
  ok lo (Some pivot) y' ->
  py.str_lt pivot k = true ->
  k ∈ held y' ++ held z -> k ∈ held z.
Proof.
  intros Hy Hlt Hk. apply elem_of_app in Hk as [Hk|Hk]; [|exact Hk].
  destruct (ok_held _ _ _ Hy) as [_ F]. rewrite Forall_forall in F.
  destruct (F k Hk) as [_ U]. cbn in U. congruence.
Qed.

Lemma split_kids_ok order lo hi ks kds :
  5 <= order ->
  ok_kids lo hi ks kds ->
  forall i y pivot,
    kds !! i = Some y ->
    Z.of_nat (length (keys y)) = order - 1 ->
    py.getitem_int (keys y) (order / 2) = Ok pivot ->
    ok_kids lo hi (py.insert i pivot ks)
      (py.insert (S i) (right_half order y) (<[i := left_half order y]> kds)).
Proof.
  intros Ho.
  induction 1 as [lo hi kid H|lo k kid A H Hk|lo hi k ks kid kds A U H Hk T IH];
    intros i y pivot L Hlen G.
  - destruct i as [|i]; [|discriminate]. cbn in L. injection L as ->.
    destruct (split_node order lo hi y Ho H Hlen)
      as (pv & G' & Y & Z & Hp & Ha & Hu & Hi & _).
    rewrite G in G'. injection G' as <-.
    cbn. apply ok_cons; try assumption.
    + apply under_upto. exact Hu.
    + constructor. exact Z.
  - destruct i as [|i]; [|discriminate]. cbn in L. injection L as ->.
    destruct (split_node order lo (Some k) y Ho H Hlen)
      as (pv & G' & Y & Z & Hp & Ha & Hu & Hi & _).
    rewrite G in G'. injection G' as <-.
    cbn. apply ok_cons; try assumption.
    + apply under_upto. exact Hu.
    + apply ok_closed; try assumption.
      eapply (held_right lo _ _ pivot k); eauto.
      unfold held in *. rewrite <- map_app, <- Hi. exact Hk.
  - destruct i as [|i].
    + cbn in L. injection L as ->.
      destruct (split_node order lo (Some k) y Ho H Hlen)
        as (pv & G' & Y & Z & Hp & Ha & Hu & Hi & _).
      rewrite G in G'. injection G' as <-.
      cbn. apply ok_cons; try assumption.
      * eapply upto_le; [exact U|]. apply lt_asym. exact Hu.
      * apply ok_cons; try assumption.
        eapply (held_right lo _ _ pivot k); eauto.
        unfold held in *. rewrite <- map_app, <- Hi. exact Hk.
    + cbn in L. specialize (IH i y pivot L Hlen G).
      unfold py.insert in *. cbn. cbn in IH.
      apply ok_cons; assumption.
Qed.

(** *** Choosing the child *)

(** The loop of [_insert_non_full] stops at the rank of the key. *)
Lemma scan_down_rank key ks :
  sorted ks -> key ∉ ks ->
  forall n, (rank key ks <= n <= length ks)%nat ->
            scan_down key ks n = rank key ks.
Proof.
  intros Hs Hfresh. induction n as [|i IH]; intros Hn; cbn [scan_down].
  - lia.
  - destruct (lookup_lt_is_Some_2 ks i ltac:(lia)) as [k L]. rewrite L.
    pose proof (rank_threshold key ks i k Hs L) as T.
    destruct (py.str_lt key k) eqn:E.
    + apply IH. destruct (decide (rank key ks = S i)) as [R|R]; [|lia].
      assert (Hk : py.str_lt k key = true) by (apply T; lia).
      rewrite (lt_asym _ _ Hk) in E. discriminate.
    + assert (Hne : key <> k).
      { intros ->. apply Hfresh. eapply list_elem_of_lookup_2. exact L. }
      pose proof (lt_cases _ _ Hne E) as Hk. apply T in Hk. lia.
Qed.

Lemma rank_insert key pivot ks :
  rank key (py.insert (rank key ks) pivot ks)
  = if py.str_lt pivot key then S (rank key ks) else rank key ks.
Proof.
  induction ks as [|k ks IH]; cbn [rank].
  - cbn. destruct (py.str_lt pivot key); reflexivity.
  - destruct (py.str_lt k key) eqn:E.
    + unfold py.insert in *. cbn [take drop app rank]. rewrite E, IH.
      destruct (py.str_lt pivot key); reflexivity.
    + cbn. rewrite E. destruct (py.str_lt pivot key); reflexivity.
Qed.

Lemma lookup_insert_at {A} (x : A) i l :
  (i <= length l)%nat -> py.insert i x l !! i = Some x.
Proof.
  intros H. unfold py.insert.
  rewrite lookup_app_r by (rewrite length_take; lia).
  rewrite length_take, Nat.min_l, Nat.sub_diag by lia. reflexivity.
Qed.

Lemma Forall_concat_lookup {A B} (P : B -> Prop) (f : A -> list B) l j x :
  Forall P (List.concat (List.map f l)) -> l !! j = Some x -> Forall P (f x).
Proof.
  intros F L. rewrite <- (take_drop_middle l j x L) in F.
  rewrite map_app, concat_app in F. apply Forall_app in F as [_ F].
  cbn [List.map List.concat] in F. apply Forall_app in F as [F _]. exact F.
Qed.

Lemma elem_concat_lookup {A B} (f : A -> list B) l j x (b : B) :
  l !! j = Some x -> b ∈ f x -> b ∈ List.concat (List.map f l).
Proof.
  intros L Hb. rewrite <- (take_drop_middle l j x L).
  rewrite map_app, concat_app. cbn [List.map List.concat].
  rewrite !elem_of_app. auto.
Qed.

(** The child that holds the range of a key, and what makes the node
    well-shaped again when that child is replaced. *)
Lemma descend lo hi ks kds key :
  ok_kids lo hi ks kds -> above lo key -> under hi key -> key ∉ ks ->
  exists kid lo' hi',
    kds !! rank key ks = Some kid
    /\ ok lo' hi' kid /\ above lo' key /\ under hi' key
    /\ (forall kid',
          ok lo' hi' kid' ->
          (forall x, x ∈ ks -> x ∈ held kid -> x ∈ held kid') ->
          ok_kids lo hi ks (<[rank key ks := kid']> kds))
    /\ (forall j other,
          kds !! j = Some other -> j <> rank key ks -> key ∉ held other).
Proof.
  induction 1 as [lo hi kid H|lo k kid A H Hk|lo hi k ks kid kds A U H Hk T IH];
    intros Ha Hu Hfresh.
  - exists kid, lo, hi. cbn [rank]. repeat split; auto.
    + intros kid' H' _. constructor. exact H'.
    + intros [|j] other L Hj; [contradiction | discriminate].
  - cbn in Hu. cbn [rank]. rewrite (lt_asym _ _ Hu).
    exists kid, lo, (Some k). repeat split; auto.
    + intros kid' H' Hin. constructor; auto. apply Hin; [left | exact Hk].
    + intros [|j] other L Hj; [contradiction | discriminate].
  - assert (Hne : key <> k).
    { intros ->. apply Hfresh. left. }
    cbn [rank]. destruct (py.str_lt k key) eqn:E.
    + destruct IH as (kid0 & lo' & hi' & L & H0 & Ha' & Hu' & Hre & Hoth);
        [exact E | exact Hu | intros Hin; apply Hfresh; right; exact Hin|].
      exists kid0, lo', hi'. repeat split; auto.
      * intros kid' H' Hin. cbn. constructor; auto.
        apply Hre; [exact H'|]. intros x Hx. apply Hin. right. exact Hx.
      * intros [|j] other Lj Hj; cbn in Lj.
        -- injection Lj as <-. intros Hin.
           destruct (ok_held _ _ _ H) as [_ F]. rewrite Forall_forall in F.
           destruct (F key Hin) as [_ U']. cbn in U'. congruence.
        -- eapply Hoth; eauto.
    + pose proof (lt_cases k key (not_eq_sym Hne) E) as Hlt.
      exists kid, lo, (Some k). repeat split; auto.
      * intros kid' H' Hin. cbn. constructor; auto.
        apply Hin; [left | exact Hk].
      * intros [|j] other Lj Hj; [contradiction|]. cbn in Lj. intros Hin.
        destruct (ok_kids_held _ _ _ _ T) as [_ F].
        pose proof (Forall_concat_lookup _ held _ _ _ F Lj) as F'.
        rewrite Forall_forall in F'. destruct (F' key Hin) as [A' _].
        cbn in A'. rewrite (lt_asym _ _ A') in Hlt. discriminate.
Qed.

Lemma perm_update {A} (f : _Node -> list A) a x' l :
  forall i x, l !! i = Some x -> f x' ≡ₚ a ++ f x ->
  List.concat (List.map f (<[i := x']> l)) ≡ₚ a ++ List.concat (List.map f l).
Proof.
  intros i x L E.
  pose proof (take_drop_middle l i x L) as M.
  rewrite (insert_take_drop l i x') by (eapply lookup_lt_Some; eauto).
  remember (take i l) as a1. remember (drop (S i) l) as b1.
  rewrite <- M.
  rewrite !map_app, !concat_app. cbn [List.map List.concat].
  rewrite E. rewrite !app_assoc. apply Permutation_app_tail.
  apply Permutation_app_tail. apply Permutation_app_comm.
Qed.

(** *** [_insert_non_full] *)

Lemma absent_getitem key c :
  key ∉ map fst c -> forall i, rbtree.getitem key c <> Ok i.
Proof.
  intros Hf i G. apply Hf. apply rbtree_props.getitem_elem in G.
  apply list_elem_of_In, in_map_iff. exists (key, i).
  split; [reflexivity|]. apply list_elem_of_In. exact G.
Qed.

Lemma held_perm key val n n' :
  items n' ≡ₚ (key, val) :: items n ->
  forall x, x ∈ held n -> x ∈ held n'.
Proof.
  intros Hp x Hx. unfold held in *.
  apply list_elem_of_In. apply list_elem_of_In in Hx.
  eapply Permutation_in; [symmetry; apply Permutation_map; exact Hp|].
  right. exact Hx.
Qed.

(** Into a leaf. *)
Lemma insert_into_leaf fuel order key val lo hi c :
  sorted (map fst c) -> Forall (within lo hi) (map fst c) ->
  above lo key -> under hi key -> key ∉ map fst c ->
  exists c',
    _insert_non_full (S fuel) order
      (mkNode true (map fst c) (map snd c) []) key val
    = (mkNode true (map fst c') (map snd c') [], Ok tt)
    /\ sorted (map fst c') /\ Forall (within lo hi) (map fst c')
    /\ c' ≡ₚ (key, val) :: c.
Proof.
  intros Hs F Ha Hu Hf.
  exists (py.insert (rank key (map fst c)) (key, val) c).
  pose proof (index_refinement.setitem_fresh key val c Hs
                (absent_getitem key c Hf)) as E.
  split; [|split; [|split]].
  - cbn [_insert_non_full leaf keys vals].
    rewrite (bisect_left_rank _ _ Hs).
    unfold set_keys. cbn [leaf keys vals kids].
    rewrite index_refinement.index_insert_rank.
    unfold set_vals. cbn [leaf keys vals kids].
    rewrite !index_refinement.map_insert. reflexivity.
  - rewrite <- E. apply index_refinement.sorted_setitem. exact Hs.
  - rewrite <- E. apply Forall_forall. intros x Hx.
    apply index_refinement.keys_setitem in Hx as [->|Hx].
    + split; [exact Ha | apply under_upto; exact Hu].
    + rewrite Forall_forall in F. auto.
  - apply perm_insert.
Qed.

(** Into the child that holds the range of the key, when inserting into
    lower nodes is already known to go well. *)
Lemma into_kid order key val fuel :
  (forall node lo hi,
     (height node <= fuel)%nat -> ok lo hi node ->
     above lo key -> under hi key -> key ∉ held node ->
     exists node',
       _insert_non_full fuel order node key val = (node', Ok tt)
       /\ ok lo hi node' /\ leaf node' = leaf node
       /\ grows key val node node') ->
  forall lo hi ks kds,
    ok_kids lo hi ks kds -> (kids_height kds <= fuel)%nat ->
    above lo key -> under hi key ->
    key ∉ List.concat (List.map held kds) ->
    exists kid kid2,
      kds !! rank key ks = Some kid
      /\ _insert_non_full fuel order kid key val = (kid2, Ok tt)
      /\ ok_kids lo hi ks (<[rank key ks := kid2]> kds)
      /\ List.concat (List.map items (<[rank key ks := kid2]> kds))
         ≡ₚ (key, val) :: List.concat (List.map items kds)
      /\ exists new,
           List.concat (List.map pivots (<[rank key ks := kid2]> kds))
           ≡ₚ new ++ List.concat (List.map pivots kds).
Proof.
  intros IH lo hi ks kds H Hh Ha Hu Hf.
  assert (Hks : key ∉ ks).
  { intros Hin. apply Hf. eapply ok_kids_pivot_held; eauto. }
  destruct (descend lo hi ks kds key H Ha Hu Hks)
    as (kid & lo' & hi' & L & Hkid & Ha' & Hu' & Hre & _).
  destruct (IH kid lo' hi') as (kid2 & E & Hok2 & _ & Hit & new & Hpv);
    try assumption.
  { pose proof (btree_total.kids_height_lookup _ _ _ L). lia. }
  { intros Hin. apply Hf. eapply elem_concat_lookup; eauto. }
  exists kid, kid2. split; [exact L|]. split; [exact E|]. split; [|split].
  - apply Hre; [exact Hok2|]. intros x _. eapply held_perm; eauto.
  - apply (perm_update items [(key, val)] kid2 kds _ kid L). exact Hit.
  - exists new. apply (perm_update pivots new kid2 kds _ kid L). exact Hpv.
Qed.

Lemma insert_non_full_ok order key val :
  5 <= order ->
  forall fuel node lo hi,
    (height node <= fuel)%nat -> ok lo hi node ->
    above lo key -> under hi key -> key ∉ held node ->
    exists node',
      _insert_non_full fuel order node key val = (node', Ok tt)
      /\ ok lo hi node' /\ leaf node' = leaf node
      /\ grows key val node node'.
Proof.
  intros Ho. induction fuel as [|fuel IH]; intros node lo hi Hh Hok Ha Hu Hf.
  - rewrite btree_total.height_eq in Hh. lia.
  - destruct Hok as [lo hi c Hs F|lo hi ks vs kds H].
    + rewrite held_leaf in Hf.
      destruct (insert_into_leaf fuel order key val lo hi c Hs F Ha Hu Hf)
        as (c' & E & Hs' & F' & Hp).
      exists (mkNode true (map fst c') (map snd c') []).
      split; [exact E|]. split; [constructor; assumption|].
      split; [reflexivity|]. split.
      * rewrite !items_leaf. exact Hp.
      * exists []. reflexivity.
    + rewrite held_node in Hf.
      rewrite btree_total.height_eq in Hh. cbn [kids] in Hh.
      destruct (ok_kids_keys _ _ _ _ H) as [Hs _].
      assert (Hks : key ∉ ks).
      { intros Hin. apply Hf. eapply ok_kids_pivot_held; eauto. }
      destruct (descend lo hi ks kds key H Ha Hu Hks)
        as (kid & lo' & hi' & L & Hkid & _).
      cbn [_insert_non_full leaf keys kids].
      rewrite (scan_down_rank key ks Hs Hks)
        by (pose proof (rank_le_length key ks); lia).
      rewrite L.
      destruct (Z.eqb_spec (Z.of_nat (length (keys kid))) (order - 1))
        as [Hfull|Hroom].
      * destruct (split_node order lo' hi' kid Ho Hkid Hfull)
          as (pivot & G & _ & _ & _ & _ & _ & Hit & Hpv).
        pose proof (split_child_eq order false ks vs kds _ kid pivot L G) as Sp.
        rewrite Sp. cbn [keys kids].
        rewrite lookup_insert_at by apply rank_le_length.
        rewrite <- rank_insert.
        pose proof (split_kids_ok order lo hi ks kds Ho H _ kid pivot L Hfull G)
          as H1.
        apply btree_total.split_child_height in Sp.
        rewrite !btree_total.height_eq in Sp. cbn [kids] in Sp.
        set (ks1 := py.insert (rank key ks) pivot ks) in *.
        set (kds1 := py.insert (S (rank key ks)) (right_half order kid)
                       (<[rank key ks := left_half order kid]> kds)) in *.
        assert (Hheld : List.concat (List.map held kds1)
                        = List.concat (List.map held kds)).
        { apply (concat_split_kid held _ _ kds _ kid L).
          unfold held. rewrite Hit, map_app. reflexivity. }
        destruct (into_kid order key val fuel IH lo hi ks1 kds1 H1)
          as (kid1 & kid2 & L1 & E & Hok & Hit' & new & Hpv');
          try assumption; [lia | rewrite Hheld; exact Hf|].
        rewrite L1, E. unfold set_kids. cbn [leaf keys vals kids].
        eexists. split; [reflexivity|]. split; [constructor; exact Hok|].
        split; [reflexivity|]. split.
        -- rewrite !items_node, Hit'. constructor. unfold kds1.
           rewrite (concat_split_kid items _ _ kds _ kid L Hit). reflexivity.
        -- exists (pivot :: new). rewrite !pivots_node, Hpv'.
           unfold kds1. rewrite (perm_split_kid _ _ kds _ kid L Hpv).
           unfold ks1. rewrite perm_insert. cbn [app]. constructor.
           rewrite !app_assoc. apply Permutation_app_tail.
           apply Permutation_app_comm.
      * destruct (into_kid order key val fuel IH lo hi ks kds H)
          as (kid1 & kid2 & L1 & E & Hok & Hit' & new & Hpv');
          try assumption; [lia|].
        rewrite L in L1. injection L1 as <-.
        rewrite E. unfold set_kids. cbn [leaf keys vals kids].
        eexists. split; [reflexivity|]. split; [constructor; exact Hok|].
        split; [reflexivity|]. split.
        -- rewrite !items_node. exact Hit'.
        -- exists new. rewrite !pivots_node, Hpv'.
           rewrite !app_assoc. apply Permutation_app_tail.
           apply Permutation_app_comm.
Qed.

(** *** [_search] *)

Lemma search_kids_eq key (j : nat) : forall (l : list _Node) (n : nat),
  (fix descend (l : list _Node) (n : nat) {struct l} :=
     match l, n with
     | [], _ => Raise IndexError
     | kid :: _, O =>
         match _search kid key with
         | Ok (Some (p, found, idx)) => Ok (Some (j :: p, found, idx))
         | other => other
         end
     | _ :: l', S n' => descend l' n'
     end) l n
  = match l !! n with
    | None => Raise IndexError
    | Some kid =>
        match _search kid key with
        | Ok (Some (p, found, idx)) => Ok (Some (j :: p, found, idx))
        | other => other
        end
    end.
Proof.
  induction l as [|kid l IH]; intros [|n]; try reflexivity. apply IH.
Qed.

Lemma search_node_eq ks vs kds key :
  _search (mkNode false ks vs kds) key
  = let i := py.bisect_left ks key in
    let hit := match ks !! i with
               | Some k => py.str_eq k key
               | None => false
               end in
    let j := if hit then S i else i in
    match kds !! j with
    | None => Raise IndexError
    | Some kid =>
        match _search kid key with
        | Ok (Some (p, found, idx)) => Ok (Some (j :: p, found, idx))
        | other => other
        end
    end.
Proof. cbn [_search]. apply search_kids_eq. Qed.

Lemma rank_of_member ks j k :
  sorted ks -> ks !! j = Some k -> rank k ks = j.
Proof.
  intros Hs L.
  pose proof (rank_threshold k ks j k Hs L) as T. rewrite lt_irrefl in T.
  assert (H1 : (rank k ks <= j)%nat).
  { destruct (Nat.le_gt_cases (rank k ks) j) as [|C]; [assumption|].
    apply T in C. discriminate. }
  destruct (decide (rank k ks = j)) as [|Hne]; [assumption|]. exfalso.
  assert (Hlt : (rank k ks < j)%nat) by lia.
  destruct (lookup_lt_is_Some_2 ks (rank k ks)) as [y Hy].
  { apply lookup_lt_Some in L. lia. }
  pose proof (sorted_lookup_lt ks _ _ y k Hs Hy L Hlt) as Hyk.
  apply (rank_threshold k ks _ y Hs Hy) in Hyk. lia.
Qed.

Lemma first_kid lo hi ks kds :
  ok_kids lo hi ks kds ->
  exists kid hi', kds !! O = Some kid /\ ok lo hi' kid.
Proof. intros [? ? kid H|? k kid A H Hk|? ? k ks' kid kds' A U H Hk T]; eauto. Qed.

Lemma right_of_key lo hi ks kds :
  ok_kids lo hi ks kds ->
  forall i k, ks !! i = Some k -> under hi k ->
  exists kid hi', kds !! S i = Some kid /\ ok (Some k) hi' kid.
Proof.
  induction 1 as [lo hi kid H|lo k kid A H Hk|lo hi k ks kid kds A U H Hk T IH];
    intros i x L Hu.
  - discriminate.
  - destruct i as [|i]; [|discriminate]. cbn in L. injection L as <-.
    cbn in Hu. rewrite lt_irrefl in Hu. discriminate.
  - destruct i as [|i]; cbn in L.
    + injection L as <-. cbn. eapply first_kid; eauto.
    + cbn. eapply IH; eauto.
Qed.

Lemma ok_kids_lookup lo hi ks kds :
  ok_kids lo hi ks kds ->
  forall j kid, kds !! j = Some kid -> exists lo' hi', ok lo' hi' kid.
Proof.
  induction 1 as [lo hi kid H|lo k kid A H Hk|lo hi k ks kid kds A U H Hk T IH];
    intros [|j] x L; cbn in L; try discriminate;
    try (injection L as <-; eauto).
  eapply IH; eauto.
Qed.

Lemma elem_concat_inv {A B} (f : A -> list B) l (b : B) :
  b ∈ List.concat (List.map f l) -> exists j x, l !! j = Some x /\ b ∈ f x.
Proof.
  induction l as [|x l IH]; cbn [List.map List.concat]; intros H.
  - apply elem_of_nil in H. contradiction.
  - apply elem_of_app in H as [H|H].
    + exists O, x. auto.
    + destruct (IH H) as (j & y & L & Hy). exists (S j), y. auto.
Qed.

Lemma elem_getitem k v c :
  sorted (map fst c) -> (k, v) ∈ c -> rbtree.getitem k c = Ok v.
Proof.
  induction c as [|[k0 v0] c IH]; intros Hs Hin.
  - apply elem_of_nil in Hin. contradiction.
  - destruct Hs as [F Hs]. cbn [rbtree.getitem].
    apply elem_of_cons in Hin as [[= -> ->]|Hin].
    + rewrite rbtree_props.str_eq_refl. reflexivity.
    + destruct (py.str_eq k k0) eqn:E; [|auto].
      apply rbtree_props.str_eq_iff in E. subst k0. exfalso.
      rewrite Forall_forall in F.
      assert (Hk : k ∈ map fst c).
      { apply list_elem_of_In, in_map_iff. exists (k, v).
        split; [reflexivity|]. apply list_elem_of_In. exact Hin. }
      specialize (F k Hk). cbn in F. rewrite lt_irrefl in F. discriminate.
Qed.

(** Below a key that is the lower bound, the search finds nothing. *)
Lemma search_above k : forall n node hi,
  (height node <= n)%nat -> ok (Some k) hi node -> _search node k = Ok None.
Proof.
  induction n as [|n IH]; intros node hi Hh Hok.
  - rewrite btree_total.height_eq in Hh. lia.
  - destruct (ok_keys _ _ _ Hok) as [Hs F].
    assert (R : rank k (keys node) = O).
    { apply rank_all_above. eapply Forall_impl; [exact F|].
      intros z [Hz _]. exact Hz. }
    inversion Hok as [lo' hi' c _ _|lo' hi' ks vs kds H]; subst;
      cbn [keys] in *.
    + rewrite (index_refinement.search_leaf c k Hs), R.
      destruct (c !! O) as [[k' v']|] eqn:L; [|reflexivity].
      assert (Hk : k' ∈ map fst c).
      { eapply (list_elem_of_lookup_2 _ O).
        rewrite index_refinement.lookup_map, L. reflexivity. }
      rewrite Forall_forall in F. destruct (F k' Hk) as [A _]. cbn in A.
      rewrite eq_sym, (lt_not_eq _ _ A). reflexivity.
    + rewrite search_node_eq, (bisect_left_rank _ _ Hs), R. cbn zeta.
      assert (Hhit : match ks !! O with
                     | Some k0 => py.str_eq k0 k
                     | None => false
                     end = false).
      { destruct (ks !! O) as [k0|] eqn:L; [|reflexivity].
        rewrite Forall_forall in F.
        destruct (F k0 (list_elem_of_lookup_2 _ _ _ L)) as [A _]. cbn in A.
        rewrite eq_sym, (lt_not_eq _ _ A). reflexivity. }
      rewrite Hhit.
      destruct (first_kid _ _ _ _ H) as (kid & hi' & L & Hkid).
      rewrite L. rewrite (IH kid hi'); [reflexivity| |exact Hkid].
      rewrite btree_total.height_eq in Hh. cbn [kids] in Hh.
      pose proof (btree_total.kids_height_lookup _ _ _ L). lia.
Qed.

(** In the range of a subtree, the search finds the items whose key is
    not a pivot, and nothing else. *)
Lemma search_ok k : forall n node lo hi,
  (height node <= n)%nat -> ok lo hi node -> above lo k -> under hi k ->
  (forall v, (k, v) ∈ items node -> k ∉ pivots node ->
     exists p nd idx,
       _search node k = Ok (Some (p, nd, idx)) /\ vals nd !! idx = Some v)
  /\ (k ∈ pivots node \/ k ∉ held node -> _search node k = Ok None).
Proof.
  induction n as [|n IH]; intros node lo hi Hh Hok Ha Hu.
  - rewrite btree_total.height_eq in Hh. lia.
  - destruct Hok as [lo hi c Hs F|lo hi ks vs kds H].
    + rewrite items_leaf, held_leaf.
      rewrite (index_refinement.search_leaf c k Hs).
      pose proof (index_refinement.getitem_rank k c Hs) as G.
      split.
      * intros v Hin _. rewrite (elem_getitem k v c Hs Hin) in G.
        destruct (c !! rank k (map fst c)) as [[k' v']|] eqn:L;
          [|discriminate].
        destruct (py.str_eq k' k) eqn:E; [|discriminate].
        injection G as ->. eexists _, _, _. split; [reflexivity|].
        cbn [vals]. rewrite index_refinement.lookup_map, L. reflexivity.
      * intros [Hp|Hn]; [cbn in Hp; apply elem_of_nil in Hp; contradiction|].
        destruct (c !! rank k (map fst c)) as [[k' v']|] eqn:L;
          [|reflexivity].
        destruct (py.str_eq k' k) eqn:E; [|reflexivity].
        apply rbtree_props.str_eq_iff in E. subst k'. exfalso. apply Hn.
        eapply (list_elem_of_lookup_2 _ (rank k (map fst c))).
        rewrite index_refinement.lookup_map, L. reflexivity.
    + rewrite items_node, held_node, pivots_node.
      rewrite btree_total.height_eq in Hh. cbn [kids] in Hh.
      destruct (ok_kids_keys _ _ _ _ H) as [Hs F].
      rewrite search_node_eq, (bisect_left_rank _ _ Hs). cbn zeta.
      destruct (decide (k ∈ ks)) as [Hin|Hnot].
      * apply list_elem_of_lookup_1 in Hin as [i L].
        rewrite (rank_of_member ks i k Hs L), L, rbtree_props.str_eq_refl.
        destruct (right_of_key _ _ _ _ H i k L Hu) as (kid & hi' & Lk & Hkid).
        rewrite Lk, (search_above k n kid hi'); [| |exact Hkid].
        2:{ pose proof (btree_total.kids_height_lookup _ _ _ Lk). lia. }
        split; [|reflexivity].
        intros v _ Hp. exfalso. apply Hp. apply elem_of_app. left.
        eapply list_elem_of_lookup_2. exact L.
      * assert (Hhit : match ks !! rank k ks with
                       | Some k0 => py.str_eq k0 k
                       | None => false
                       end = false).
        { destruct (ks !! rank k ks) as [k0|] eqn:L; [|reflexivity].
          destruct (py.str_eq k0 k) eqn:E; [|reflexivity].
          apply rbtree_props.str_eq_iff in E. subst k0. exfalso.
          apply Hnot. eapply list_elem_of_lookup_2. exact L. }
        rewrite Hhit.
        destruct (descend lo hi ks kds k H Ha Hu Hnot)
          as (kid & lo' & hi' & L & Hkid & Ha' & Hu' & _ & Hoth).
        rewrite L.
        destruct (IH kid lo' hi') as [I1 I2]; try assumption.
        { pose proof (btree_total.kids_height_lookup _ _ _ L). lia. }
        assert (Hhere : forall j other,
                   kds !! j = Some other -> k ∈ held other -> other = kid).
        { intros j other Lj Hk.
          destruct (decide (j = rank k ks)) as [->|Hj]; [congruence|].
          exfalso. eapply Hoth; eauto. }
        split.
        -- intros v Hin Hp.
           apply elem_concat_inv in Hin as (j & other & Lj & Hin).
           assert (other = kid) as ->.
           { apply (Hhere j other Lj). unfold held.
             apply list_elem_of_In, in_map_iff. exists (k, v).
             split; [reflexivity|]. apply list_elem_of_In. exact Hin. }
           destruct (I1 v Hin) as (p & nd & idx & E & Hv).
           { intros Hk. apply Hp. apply elem_of_app. right.
             eapply elem_concat_lookup; eauto. }
           rewrite E. eauto.
        -- intros [Hp|Hn].
           ++ apply elem_of_app in Hp as [Hp|Hp]; [contradiction|].
              apply elem_concat_inv in Hp as (j & other & Lj & Hp).
              destruct (ok_kids_lookup _ _ _ _ H j other Lj)
                as (lo2 & hi2 & Hother).
              pose proof (pivots_held _ _ _ Hother k Hp) as Hk.
              assert (other = kid) as -> by (eapply Hhere; eauto).
              rewrite I2; [reflexivity | left; exact Hp].
           ++ rewrite I2; [reflexivity|]. right. intros Hk. apply Hn.
              eapply elem_concat_lookup; eauto.
Qed.

(** *** [_iter_node] *)

Lemma iter_kids_eq ks : forall (l : list _Node) (i : nat),
  (fix each (l : list _Node) (i : nat) {struct l} : list string :=
     match l with
     | [] => []
     | kid :: l' =>
         _iter_node kid
         ++ match ks !! i with Some k => [k] | None => [] end
         ++ each l' (S i)
     end) l i
  = weave (drop i ks) (List.map _iter_node l).
Proof.
  induction l as [|kid l IH]; intros i; [reflexivity|].
  rewrite IH. cbn [List.map weave]. f_equal.
  destruct (ks !! i) as [k|] eqn:L.
  - rewrite (drop_S _ _ _ L). reflexivity.
  - apply lookup_ge_None in L.
    rewrite !drop_ge by lia. reflexivity.
Qed.

Lemma iter_node_eq ks vs kds :
  _iter_node (mkNode false ks vs kds) = weave ks (List.map _iter_node kds).
Proof. cbn [_iter_node]. rewrite iter_kids_eq, drop_0. reflexivity. Qed.

Lemma ascending_app a b :
  ascending a -> ascending b ->
  (forall x y, x ∈ a -> y ∈ b -> py.str_lt y x = false) ->
  ascending (a ++ b).
Proof.
  induction a as [|x a IH]; intros Ha Hb H; [exact Hb|].
  destruct Ha as [F Ha]. cbn [app ascending]. split.
  - apply Forall_app. split; [exact F|].
    apply Forall_forall. intros y Hy. apply H; [left | exact Hy].
  - apply IH; auto. intros x' y Hx Hy. apply H; [right; exact Hx | exact Hy].
Qed.

Lemma sorted_ascending a : sorted a -> ascending a.
Proof.
  induction a as [|x a IH]; intros Hs; [exact I|].
  destruct Hs as [F Hs]. split; [|auto].
  eapply Forall_impl; [exact F|]. intros z Hz. apply lt_asym. exact Hz.
Qed.

(** What a subtree yields: its keys within its bounds, never decreasing,
    the held keys and the pivots. *)
Lemma iter_ok lo hi n :
  ok lo hi n ->
  Forall (within lo hi) (_iter_node n)
  /\ ascending (_iter_node n)
  /\ _iter_node n ≡ₚ held n ++ pivots n.
Proof.
  revert lo hi n.
  apply (ok_mut
    (fun lo hi n _ =>
       Forall (within lo hi) (_iter_node n)
       /\ ascending (_iter_node n)
       /\ _iter_node n ≡ₚ held n ++ pivots n)
    (fun lo hi ks kds _ =>
       Forall (within lo hi) (weave ks (List.map _iter_node kds))
       /\ ascending (weave ks (List.map _iter_node kds))
       /\ weave ks (List.map _iter_node kds)
          ≡ₚ List.concat (List.map held kds)
             ++ ks ++ List.concat (List.map pivots kds))).
  - intros lo hi c Hs F. rewrite held_leaf. cbn [_iter_node pivots].
    rewrite app_nil_r. split; [exact F|]. split; [|reflexivity].
    apply sorted_ascending. exact Hs.
  - intros lo hi ks vs kds _ IH.
    rewrite iter_node_eq, held_node, pivots_node. exact IH.
  - intros lo hi kid _ (F & A & P). cbn. rewrite !app_nil_r.
    split; [exact F|]. split; [exact A|]. exact P.
  - intros lo k kid Ha _ (F & A & P) Hk. cbn. rewrite !app_nil_r.
    split; [|split].
    + apply Forall_app. split; [exact F|]. constructor; [|constructor].
      split; [exact Ha | cbn; apply lt_irrefl].
    + apply ascending_app; [exact A | cbn; auto |].
      intros x y Hx Hy. apply list_elem_of_singleton in Hy. subst y.
      rewrite Forall_forall in F. apply (F x Hx).
    + rewrite P. rewrite <- !app_assoc. apply Permutation_app_head.
      cbn. symmetry. apply Permutation_cons_append.
  - intros lo hi k ks kid kds Ha U _ (F & A & P) Hk _ (F' & A' & P').
    cbn [List.map weave List.concat]. split; [|split].
    + apply Forall_app. split.
      * eapply Forall_impl; [exact F|]. intros z [H1 H2]. split; [exact H1|].
        eapply upto_le; eassumption.
      * constructor; [split; assumption|].
        eapply Forall_impl; [exact F'|]. intros z [H1 H2]. split; [|exact H2].
        cbn in H1. eapply above_lt; eassumption.
    + rewrite Forall_forall in F, F'.
      apply ascending_app; [exact A| |].
      * cbn. split; [|exact A'].
        apply Forall_forall. intros z Hz. destruct (F' z Hz) as [H1 _].
        cbn in H1. apply lt_asym. exact H1.
      * intros x y Hx Hy. destruct (F x Hx) as [_ H2]. cbn in H2.
        apply elem_of_cons in Hy as [->|Hy]; [exact H2|].
        destruct (F' y Hy) as [H1 _]. cbn in H1.
        apply lt_asym. eapply le_lt_trans; eassumption.
    + rewrite P, P'. rewrite <- ?app_assoc. apply Permutation_app_head.
      cbn [app]. rewrite <- !Permutation_middle. constructor.
      rewrite !app_assoc. apply Permutation_app_tail.
      rewrite <- (app_assoc (pivots kid)). apply Permutation_app_comm.
Qed.

(** *** [delete] *)

Lemma set_at_cons node j p new kid :
  kids node !! j = Some kid ->
  set_at node (j :: p) new
  = set_kids node (<[j := set_at kid p new]> (kids node)).
Proof. intros L. cbn [set_at]. rewrite L. reflexivity. Qed.

Lemma perm_downdate {A} (f : _Node -> list A) a x' l :
  forall i x, l !! i = Some x -> f x ≡ₚ a ++ f x' ->
  List.concat (List.map f l)
  ≡ₚ a ++ List.concat (List.map f (<[i := x']> l)).
Proof.
  intros i x L E.
  assert (L' : <[i := x']> l !! i = Some x').
  { apply list_lookup_insert_eq. eapply lookup_lt_Some. exact L. }
  pose proof (perm_update f a x (<[i := x']> l) i x' L' E) as P.
  rewrite list_insert_insert_eq, (list_insert_id l i x L) in P. exact P.
Qed.

Lemma map_update_same {A} (f : _Node -> A) x' l :
  forall i x, l !! i = Some x -> f x' = f x ->
  List.map f (<[i := x']> l) = List.map f l.
Proof.
  induction l as [|y l IH]; intros [|i] x L E; try discriminate; cbn in *.
  - injection L as ->. rewrite E. reflexivity.
  - f_equal. eapply IH; eauto.
Qed.

(** The node that the search found is a leaf, and taking the key out of
    it leaves a well-shaped subtree with one item less and the same
    pivots. *)
Lemma delete_at k : forall n node lo hi,
  (height node <= n)%nat -> ok lo hi node -> above lo k -> under hi k ->
  forall p nd idx,
    _search node k = Ok (Some (p, nd, idx)) ->
    exists v,
      vals nd !! idx = Some v
      /\ ok lo hi
           (set_at node p
              (set_vals (set_keys nd (base.delete idx (keys nd)))
                        (base.delete idx (vals nd))))
      /\ items node
         ≡ₚ (k, v)
            :: items (set_at node p
                        (set_vals (set_keys nd (base.delete idx (keys nd)))
                                  (base.delete idx (vals nd))))
      /\ pivots (set_at node p
                   (set_vals (set_keys nd (base.delete idx (keys nd)))
                             (base.delete idx (vals nd))))
         = pivots node
      /\ k ∉ pivots node.
Proof.
  induction n as [|n IH]; intros node lo hi Hh Hok Ha Hu p nd idx.
  - rewrite btree_total.height_eq in Hh. lia.
  - destruct Hok as [lo hi c Hs F|lo hi ks vs kds H].
    + rewrite (index_refinement.search_leaf c k Hs).
      destruct (c !! rank k (map fst c)) as [[k' v']|] eqn:L;
        [|discriminate].
      destruct (py.str_eq k' k) eqn:E; [|discriminate].
      intros [= <- <- <-].
      pose proof (index_refinement.remove_rank k c k' v' Hs L E) as R.
      apply rbtree_props.str_eq_iff in E. subst k'.
      exists v'. cbn [vals keys set_at].
      unfold set_vals, set_keys. cbn [leaf keys vals kids].
      rewrite <- !index_refinement.map_delete, <- R.
      split; [rewrite index_refinement.lookup_map, L; reflexivity|].
      split; [|split; [|split]].
      * constructor; [apply index_refinement.sorted_remove; exact Hs|].
        apply Forall_forall. intros x Hx.
        apply index_refinement.keys_remove in Hx.
        rewrite Forall_forall in F. auto.
      * rewrite !items_leaf, R. apply delete_Permutation. exact L.
      * reflexivity.
      * cbn. apply not_elem_of_nil.
    + rewrite btree_total.height_eq in Hh. cbn [kids] in Hh.
      destruct (ok_kids_keys _ _ _ _ H) as [Hs F].
      rewrite search_node_eq, (bisect_left_rank _ _ Hs). cbn zeta.
      destruct (decide (k ∈ ks)) as [Hin|Hnot].
      * apply list_elem_of_lookup_1 in Hin as [i L].
        rewrite (rank_of_member ks i k Hs L), L, rbtree_props.str_eq_refl.
        destruct (right_of_key _ _ _ _ H i k L Hu) as (kid & hi' & Lk & Hkid).
        rewrite Lk, (search_above k n kid hi'); [discriminate| |exact Hkid].
        pose proof (btree_total.kids_height_lookup _ _ _ Lk). lia.
      * assert (Hhit : match ks !! rank k ks with
                       | Some k0 => py.str_eq k0 k
                       | None => false
                       end = false).
        { destruct (ks !! rank k ks) as [k0|] eqn:L; [|reflexivity].
          destruct (py.str_eq k0 k) eqn:E; [|reflexivity].
          apply rbtree_props.str_eq_iff in E. subst k0. exfalso.
          apply Hnot. eapply list_elem_of_lookup_2. exact L. }
        rewrite Hhit.
        destruct (descend lo hi ks kds k H Ha Hu Hnot)
          as (kid & lo' & hi' & L & Hkid & Ha' & Hu' & Hre & Hoth).
        rewrite L.
        destruct (_search kid k) as [[[[p' nd'] idx']|]|e] eqn:Sr;
          try discriminate.
        intros [= <- <- <-].
        destruct (IH kid lo' hi') with (p := p') (nd := nd') (idx := idx')
          as (v & Hv & Hok' & Hit & Hpv & Hnp); try assumption.
        { pose proof (btree_total.kids_height_lookup _ _ _ L). lia. }
        exists v. split; [exact Hv|].
        rewrite (set_at_cons (mkNode false ks vs kds) _ _ _ kid L).
        unfold set_kids. cbn [leaf keys vals kids].
        set (kid' := set_at kid p'
                       (set_vals (set_keys nd' (base.delete idx' (keys nd')))
                                 (base.delete idx' (vals nd')))) in *.
        split; [|split; [|split]].
        -- constructor. apply Hre; [exact Hok'|].
           intros x Hx Hxk. unfold held in *.
           apply list_elem_of_In in Hxk.
           apply (Permutation_in _ (Permutation_map fst Hit)) in Hxk.
           cbn [map fst] in Hxk. destruct Hxk as [<-|Hxk];
             [contradiction | apply list_elem_of_In; exact Hxk].
        -- rewrite !items_node.
           apply (perm_downdate items [(k, v)] kid' kds _ kid L Hit).
        -- rewrite !pivots_node.
           rewrite (map_update_same pivots kid' kds _ kid L Hpv).
           reflexivity.
        -- rewrite pivots_node. intros Hp.
           apply elem_of_app in Hp as [Hp|Hp]; [contradiction|].
           apply elem_concat_inv in Hp as (j & other & Lj & Hp).
           destruct (ok_kids_lookup _ _ _ _ H j other Lj)
             as (lo2 & hi2 & Hother).
           pose proof (pivots_held _ _ _ Hother k Hp) as Hk.
           destruct (decide (j = rank k ks)) as [->|Hj].
           ++ rewrite L in Lj. injection Lj as <-. contradiction.
           ++ exact (Hoth j other Lj Hj Hk).
Qed.

End btree_shape.

(** ** The B-tree after any insertions of distinct keys *)

Module btree_general.
Import btree btree_facts index_ops order_props bisect_props btree_more
       btree_shape.

Lemma shaped_init order : 5 <= order -> shaped (init order).
Proof.
  intros Ho. split; [|split].
  - apply (ok_leaf None None []); [exact I | constructor].
  - intros _. cbn. lia.
  - discriminate.
Qed.

Lemma leaf_length lo hi n :
  ok lo hi n -> leaf n = true -> length (keys n) = length (items n).
Proof.
  intros [lo' hi' c _ _|lo' hi' ks vs kds H] Hl; [|discriminate].
  rewrite items_leaf. cbn [keys]. apply length_map.
Qed.

Lemma perm_not_nil {A} (l new old : list A) :
  l ≡ₚ new ++ old -> old <> [] -> l <> [].
Proof.
  intros P Hne ->. apply Permutation_nil in P.
  apply app_eq_nil in P as [_ P]. contradiction.
Qed.

(** One insertion of a key that the tree does not hold. *)
Lemma insert_shaped t key val :
  5 <= _order t -> shaped t -> key ∉ held (_root t) ->
  exists t',
    insert t key val = (t', Ok tt)
    /\ _order t' = _order t /\ shaped t'
    /\ grows key val (_root t) (_root t').
Proof.
  intros Ho (Hok & Hleaf & Hnode) Hf. unfold insert.
  destruct (Z.eqb_spec (Z.of_nat (length (keys (_root t)))) (_order t - 1))
    as [Hfull|Hroom].
  - destruct (split_node (_order t) None None (_root t) Ho Hok Hfull)
      as (pivot & G & _ & _ & _ & _ & _ & Hit & Hpv).
    rewrite (split_child_eq (_order t) false [] [] [_root t] O (_root t) pivot
               eq_refl G).
    pose proof (split_kids_ok (_order t) None None [] [_root t] Ho
                  (ok_last _ _ _ Hok) O (_root t) pivot eq_refl Hfull G) as H1.
    set (ks1 := py.insert 0 pivot []) in *.
    set (kds1 := py.insert 1 (right_half (_order t) (_root t))
                   (<[O := left_half (_order t) (_root t)]> [_root t])) in *.
    assert (Hitems : items (mkNode false ks1 [] kds1) = items (_root t)).
    { rewrite items_node. unfold kds1.
      rewrite (concat_split_kid items _ _ [_root t] O (_root t) eq_refl Hit).
      cbn. apply app_nil_r. }
    assert (Hpiv : pivots (mkNode false ks1 [] kds1)
                   ≡ₚ pivot :: pivots (_root t)).
    { rewrite pivots_node. unfold kds1.
      rewrite (perm_split_kid _ _ [_root t] O (_root t) eq_refl Hpv).
      cbn. rewrite app_nil_r. reflexivity. }
    destruct (insert_non_full_ok (_order t) key val Ho
                (S (height (mkNode false ks1 [] kds1)))
                (mkNode false ks1 [] kds1) None None)
      as (root' & E & Hok' & Hl' & Hit' & new & Hpv'); try exact I.
    { lia. }
    { constructor. exact H1. }
    { unfold held. rewrite Hitems. exact Hf. }
    rewrite E. exists (set_root t root'). split; [reflexivity|].
    split; [reflexivity|]. cbn [leaf] in Hl'. split; [split; [|split]|].
    + exact Hok'.
    + cbn [set_root _root]. congruence.
    + cbn [set_root _root _order]. intros _. split.
      * eapply perm_not_nil; [exact Hpv'|]. intros Hnil.
        rewrite Hnil in Hpiv. apply Permutation_nil in Hpiv. discriminate.
      * rewrite (Permutation_length Hit'), Hitems. cbn [length].
        pose proof Hfull as Hlen.
        destruct (leaf (_root t)) eqn:Hl.
        -- rewrite (leaf_length _ _ _ Hok Hl) in Hlen. lia.
        -- destruct (Hnode eq_refl) as [_ Hge]. lia.
    + split.
      * cbn [set_root _root]. rewrite Hit', Hitems. reflexivity.
      * exists (new ++ [pivot]). cbn [set_root _root].
        rewrite Hpv', Hpiv, <- app_assoc. reflexivity.
  - destruct (insert_non_full_ok (_order t) key val Ho
                (S (height (_root t))) (_root t) None None)
      as (root' & E & Hok' & Hl' & Hit' & new & Hpv');
      try exact I; try assumption; [lia|].
    rewrite E. exists (set_root t root'). split; [reflexivity|].
    split; [reflexivity|]. split; [split; [|split]|].
    + exact Hok'.
    + cbn [set_root _root _order]. intros Hl. rewrite Hl' in Hl.
      rewrite (Permutation_length Hit'). cbn [length].
      specialize (Hleaf Hl). rewrite (leaf_length _ _ _ Hok Hl) in Hroom.
      lia.
    + cbn [set_root _root _order]. intros Hl. rewrite Hl' in Hl.
      destruct (Hnode Hl) as [Hne Hge]. split.
      * eapply perm_not_nil; eauto.
      * rewrite (Permutation_length Hit'). cbn [length]. lia.
    + split; [exact Hit' | exists new; exact Hpv'].
Qed.

(** Any number of insertions of distinct keys that the tree does not
    hold. *)
Lemma insert_all_shaped kvs : forall t,
  5 <= _order t -> shaped t ->
  NoDup (map fst kvs) ->
  (forall k, k ∈ map fst kvs -> k ∉ held (_root t)) ->
  exists t',
    insert_all t kvs = (t', Ok tt)
    /\ _order t' = _order t /\ shaped t'
    /\ items (_root t') ≡ₚ kvs ++ items (_root t).
Proof.
  induction kvs as [|[k v] kvs IH]; intros t Ho Hsh Hnd Hf.
  - exists t. split; [reflexivity|]. split; [reflexivity|].
    split; [exact Hsh | reflexivity].
  - cbn [map fst] in Hnd. apply NoDup_cons in Hnd as [Hk Hnd].
    destruct (insert_shaped t k v Ho Hsh) as (t1 & E & Ho1 & Hsh1 & Hit & _).
    { apply Hf. left. }
    destruct (IH t1) as (t' & E' & Ho' & Hsh' & Hit'); try assumption.
    { rewrite Ho1. exact Ho. }
    { intros k' Hk' Hin. unfold held in Hin.
      apply list_elem_of_In in Hin.
      apply (Permutation_in _ (Permutation_map fst Hit)) in Hin.
      cbn [map fst] in Hin. destruct Hin as [<-|Hin].
      - contradiction.
      - apply (Hf k'); [right; exact Hk' | apply list_elem_of_In; exact Hin]. }
    exists t'. cbn [insert_all]. rewrite E. split; [exact E'|].
    split; [congruence|]. split; [exact Hsh'|].
    rewrite Hit', Hit. cbn [app]. symmetry. apply Permutation_middle.
Qed.

(** From the empty tree. *)
Lemma from_empty order kvs :
  5 <= order -> NoDup (map fst kvs) ->
  exists t,
    insert_all (init order) kvs = (t, Ok tt)
    /\ _order t = order /\ shaped t
    /\ items (_root t) ≡ₚ kvs.
Proof.
  intros Ho Hnd.
  destruct (insert_all_shaped kvs (init order) Ho (shaped_init order Ho) Hnd)
    as (t & E & Ho' & Hsh & Hit).
  { intros k _ Hin. cbn in Hin. apply elem_of_nil in Hin. exact Hin. }
  exists t. split; [exact E|]. split; [exact Ho'|]. split; [exact Hsh|].
  rewrite Hit. cbn. rewrite app_nil_r. reflexivity.
Qed.

Lemma held_perm_keys n kvs : items n ≡ₚ kvs -> held n ≡ₚ map fst kvs.
Proof. intros H. unfold held. apply Permutation_map. exact H. Qed.

(** [get] and [delete] on a well-shaped tree. *)
Lemma get_shaped t k :
  ok None None (_root t) ->
  (forall v, (k, v) ∈ items (_root t) -> k ∉ pivots (_root t) ->
             get t k = Ok v)
  /\ (k ∈ pivots (_root t) \/ k ∉ held (_root t) ->
      get t k = Raise (KeyError (KStr k))
      /\ delete t k = (t, Raise (KeyError (KStr k)))).
Proof.
  intros Hok.
  destruct (search_ok k (height (_root t)) (_root t) None None
              (Nat.le_refl _) Hok I I) as [S1 S2].
  split.
  - intros v Hin Hp. destruct (S1 v Hin Hp) as (p & nd & idx & E & Hv).
    unfold get. rewrite E. unfold py.getitem. rewrite Hv. reflexivity.
  - intros H. unfold get, delete. rewrite (S2 H). auto.
Qed.

Lemma pivots_leaf n : leaf n = true -> pivots n = [].
Proof. destruct n as [[] ks vs kds]; [reflexivity | discriminate]. Qed.

Lemma in_keys (k : string) (v : Z) kvs : (k, v) ∈ kvs -> k ∈ map fst kvs.
Proof.
  intros H. apply list_elem_of_In, in_map_iff. exists (k, v).
  split; [reflexivity|]. apply list_elem_of_In. exact H.
Qed.

Lemma keys_in (k : string) (kvs : list (string * Z)) :
  k ∈ map fst kvs -> exists v, (k, v) ∈ kvs.
Proof.
  intros H. apply list_elem_of_In, in_map_iff in H as ([k' v] & E & H).
  cbn in E. subst k'. exists v. apply list_elem_of_In. exact H.
Qed.

(** X15 (insertions and iteration).  For every order from 5 on and
    every sequence of pairs with distinct keys, inserting them one after
    the other into an empty tree never raises; afterwards [iter] yields
    keys that never decrease, namely every inserted key once and, once
    more, each key held by an internal node, one of the inserted keys
    that a split promoted. *)
Theorem insertions_return_and_iter_ascends :
  forall (order : Z) (kvs : list (string * Z)),
    5 <= order ->
    NoDup (map fst kvs) ->
    snd (insert_all (init order) kvs) = Ok tt
    /\ ascending (iter (fst (insert_all (init order) kvs)))
    /\ iter (fst (insert_all (init order) kvs))
       ≡ₚ map fst kvs ++ pivots (_root (fst (insert_all (init order) kvs)))
    /\ (forall k, k ∈ pivots (_root (fst (insert_all (init order) kvs))) ->
                  k ∈ map fst kvs).
Proof.
  intros order kvs Ho Hnd.
  destruct (from_empty order kvs Ho Hnd) as (t & E & _ & (Hok & _) & Hit).
  rewrite E. cbn [fst snd].
  destruct (iter_ok _ _ _ Hok) as (_ & A & P).
  pose proof (held_perm_keys _ _ Hit) as Hh.
  split; [reflexivity|]. split; [exact A|]. split.
  - unfold iter. rewrite P, Hh. reflexivity.
  - intros k Hk. rewrite <- Hh. eapply pivots_held; eauto.
Qed.

Lemma insertions_return_and_iter_ascends_witness :
  snd (insert_all (init default_order) (numbered 64)) = Ok tt.
Proof.
  refine (proj1 (insertions_return_and_iter_ascends default_order
                   (numbered 64) _ btree_props.numbered_distinct)).
  unfold default_order. lia.
Defined.

(** X16 (lookups after insertions).  For every order from 5 on and
    every sequence of pairs with distinct keys inserted into an empty
    tree: [get] returns the value inserted with a key exactly when no
    internal node holds that key; for a key that an internal node holds,
    as for a key that was never inserted, [get] raises [KeyError] and
    [delete] raises [KeyError] and leaves the tree as it was. *)
Theorem get_finds_all_but_pivots :
  forall (order : Z) (kvs : list (string * Z)) (k : string),
    5 <= order ->
    NoDup (map fst kvs) ->
    let t := fst (insert_all (init order) kvs) in
    (forall v, (k, v) ∈ kvs -> k ∉ pivots (_root t) -> get t k = Ok v)
    /\ (k ∈ pivots (_root t) \/ k ∉ map fst kvs ->
        get t k = Raise (KeyError (KStr k))
        /\ delete t k = (t, Raise (KeyError (KStr k)))).
Proof.
  intros order kvs k Ho Hnd t. subst t.
  destruct (from_empty order kvs Ho Hnd) as (t & E & _ & (Hok & _) & Hit).
  rewrite E. cbn [fst].
  destruct (get_shaped t k Hok) as [G1 G2].
  pose proof (held_perm_keys _ _ Hit) as Hh.
  split.
  - intros v Hin Hp. apply G1; [|exact Hp]. rewrite Hit. exact Hin.
  - intros [Hp|Hn]; apply G2; [left; exact Hp|].
    right. rewrite Hh. exact Hn.
Qed.

Lemma get_finds_all_but_pivots_witness :
  get (fst (insert_all (init default_order) (numbered 64))) "zz"
  = Raise (KeyError (KStr "zz")).
Proof.
  refine (proj1 (proj2 (get_finds_all_but_pivots default_order (numbered 64)
                          "zz" _ btree_props.numbered_distinct) _)).
  - unfold default_order. lia.
  - right. vm_compute. intros H.
    repeat (apply elem_of_cons in H as [H|H]; [discriminate|]).
    apply elem_of_nil in H. exact H.
Defined.

(** X17 (a split hides a key).  For every order from 5 on and every
    sequence of pairs with distinct keys inserted into an empty tree:
    with fewer pairs than [order] the tree is one leaf, [iter] yields the
    keys in strictly increasing order and [get] finds every one of them;
    with [order] pairs or more, at least one inserted key is out of the
    reach of [get], which raises [KeyError] for it, and [iter] yields
    some key twice. *)
Theorem a_split_hides_a_key :
  forall (order : Z) (kvs : list (string * Z)),
    5 <= order ->
    NoDup (map fst kvs) ->
    let t := fst (insert_all (init order) kvs) in
    (Z.of_nat (length kvs) < order ->
     leaf (_root t) = true
     /\ sorted (iter t)
     /\ forall k v, (k, v) ∈ kvs -> get t k = Ok v)
    /\ (order <= Z.of_nat (length kvs) ->
        leaf (_root t) = false
        /\ ~ NoDup (iter t)
        /\ exists k v, (k, v) ∈ kvs /\ get t k = Raise (KeyError (KStr k))).
Proof.
  intros order kvs Ho Hnd t. subst t.
  destruct (from_empty order kvs Ho Hnd)
    as (t & E & Hord & (Hok & Hleaf & Hnode) & Hit).
  rewrite E. cbn [fst].
  pose proof (held_perm_keys _ _ Hit) as Hh.
  pose proof (Permutation_length Hit) as Hlen.
  split.
  - intros Hlt.
    assert (Hl : leaf (_root t) = true).
    { destruct (leaf (_root t)) eqn:Hl; [reflexivity|].
      destruct (Hnode eq_refl) as [_ Hge]. lia. }
    split; [exact Hl|]. split.
    + unfold iter. destruct (_root t) as [[] ks vs kds]; [|discriminate].
      cbn [_iter_node]. apply (ok_keys _ _ _ Hok).
    + intros k v Hin. apply (get_shaped t k Hok).
      * rewrite Hit. exact Hin.
      * rewrite (pivots_leaf _ Hl). apply not_elem_of_nil.
  - intros Hge.
    assert (Hl : leaf (_root t) = false).
    { destruct (leaf (_root t)) eqn:Hl; [|reflexivity].
      specialize (Hleaf eq_refl). lia. }
    destruct (Hnode Hl) as [Hne _].
    destruct (pivots (_root t)) as [|k ps] eqn:Hp; [contradiction|].
    assert (Hk : k ∈ pivots (_root t)) by (rewrite Hp; left).
    pose proof (pivots_held _ _ _ Hok k Hk) as Hheld.
    split; [exact Hl|]. split.
    + intros Hnd'. unfold iter in Hnd'.
      destruct (iter_ok _ _ _ Hok) as (_ & _ & P). rewrite P in Hnd'.
      apply NoDup_app in Hnd' as (_ & Hdis & _). exact (Hdis k Hheld Hk).
    + rewrite Hh in Hheld. destruct (keys_in k kvs Hheld) as [v Hv].
      exists k, v. split; [exact Hv|].
      apply (get_shaped t k Hok). left. exact Hk.
Qed.

Lemma a_split_hides_a_key_witness :
  leaf (_root (fst (insert_all (init default_order) (numbered 64)))) = false
  /\ ~ NoDup (iter (fst (insert_all (init default_order) (numbered 64))))
  /\ exists k v,
       (k, v) ∈ numbered 64
       /\ get (fst (insert_all (init default_order) (numbered 64))) k
          = Raise (KeyError (KStr k)).
Proof.
  refine (proj2 (a_split_hides_a_key default_order (numbered 64) _
                   btree_props.numbered_distinct) _).
  - unfold default_order. lia.
  - vm_compute. discriminate.
Defined.

(** *** Orders 1 and 2 *)

Lemma insert_order_one k v :
  insert (init 1) k v = (init 1, Raise IndexError).
Proof. reflexivity. Qed.

Lemma insert_order_two k v :
  insert (init 2) k v
  = (set_root (init 2) (mkNode true [k] [v] []), Ok tt).
Proof.
  rewrite (index_refinement.insert_leaf (init 2) [] k v eq_refl I);
    [reflexivity|]. cbn. lia.
Qed.

Lemma insert_order_two_full k v k' v' :
  insert (set_root (init 2) (mkNode true [k] [v] [])) k' v'
  = (set_root (init 2) (mkNode true [k] [v] []), Raise IndexError).
Proof. reflexivity. Qed.

(** X19 (orders 1 and 2).  A tree of order 1 holds nothing and a tree of
    order 2 holds one item: the first insertion that finds the root with
    [order - 1] keys raises [IndexError], from [y.keys[mid]] in
    [_split_child], and leaves the tree as it was, with the item it held
    still found by [get] and yielded by [iter]. *)
Theorem orders_one_and_two_overflow :
  forall (k : string) (v : Z) (k' : string) (v' : Z)
         (rest : list (string * Z)),
    insert_all (init 1) ((k, v) :: rest) = (init 1, Raise IndexError)
    /\ insert_all (init 2) ((k, v) :: (k', v') :: rest)
       = (fst (insert (init 2) k v), Raise IndexError)
    /\ get (fst (insert (init 2) k v)) k = Ok v
    /\ iter (fst (insert (init 2) k v)) = [k].
Proof.
  intros k v k' v' rest. split; [|split; [|split]].
  - cbn [insert_all]. rewrite insert_order_one. reflexivity.
  - cbn [insert_all]. rewrite insert_order_two. cbn [fst].
    rewrite insert_order_two_full. reflexivity.
  - rewrite insert_order_two. cbn [fst]. unfold get.
    cbn [set_root _root _search].
    change (py.bisect_left [k] k)
      with (if py.str_lt k k then 1%nat else 0%nat).
    rewrite lt_irrefl. cbn. rewrite rbtree_props.str_eq_refl. reflexivity.
  - rewrite insert_order_two. reflexivity.
Qed.

(** *** Deleting *)

(** [delete] of a key that [get] finds, in a well-shaped tree. *)
Lemma delete_shaped t k v :
  ok None None (_root t) ->
  (k, v) ∈ items (_root t) -> k ∉ pivots (_root t) ->
  exists root',
    delete t k = (set_root t root', Ok tt)
    /\ ok None None root'
    /\ items (_root t) ≡ₚ (k, v) :: items root'
    /\ pivots root' = pivots (_root t).
Proof.
  intros Hok Hin Hp.
  destruct (search_ok k (height (_root t)) (_root t) None None
              (Nat.le_refl _) Hok I I) as [S1 _].
  destruct (S1 v Hin Hp) as (p & nd & idx & E & Hv).
  destruct (delete_at k (height (_root t)) (_root t) None None
              (Nat.le_refl _) Hok I I p nd idx E)
    as (v' & Hv' & Hok' & Hit & Hpv & _).
  rewrite Hv in Hv'. injection Hv' as <-.
  eexists. split; [|split; [exact Hok' | split; [exact Hit | exact Hpv]]].
  unfold delete. rewrite E.
  assert (Hlt : (idx <? length (vals nd))%nat = true).
  { apply Nat.ltb_lt. eapply lookup_lt_Some. exact Hv. }
  rewrite Hlt. reflexivity.
Qed.

(** X20 (deleting).  For every order from 5 on and every sequence of
    pairs with distinct keys inserted into an empty tree, [delete] of an
    inserted key that no internal node holds returns; afterwards [get]
    and a second [delete] of that key raise [KeyError], [get] of every
    other such key still returns its value, and [iter] yields what it
    yielded before but for that key, still without ever decreasing. *)
Theorem delete_takes_one_item_out :
  forall (order : Z) (kvs : list (string * Z)) (k : string) (v : Z),
    5 <= order ->
    NoDup (map fst kvs) ->
    let t := fst (insert_all (init order) kvs) in
    (k, v) ∈ kvs ->
    k ∉ pivots (_root t) ->
    snd (delete t k) = Ok tt
    /\ get (fst (delete t k)) k = Raise (KeyError (KStr k))
    /\ delete (fst (delete t k)) k
       = (fst (delete t k), Raise (KeyError (KStr k)))
    /\ (forall k' v',
          (k', v') ∈ kvs -> k' <> k -> k' ∉ pivots (_root t) ->
          get (fst (delete t k)) k' = Ok v')
    /\ iter t ≡ₚ k :: iter (fst (delete t k))
    /\ ascending (iter (fst (delete t k))).
Proof.
  intros order kvs k v Ho Hnd t. subst t.
  destruct (from_empty order kvs Ho Hnd) as (t & E & _ & (Hok & _) & Hit).
  rewrite E. cbn [fst]. intros Hin Hp.
  assert (Hin' : (k, v) ∈ items (_root t)) by (rewrite Hit; exact Hin).
  destruct (delete_shaped t k v Hok Hin' Hp)
    as (root' & D & Hok' & Hit' & Hpv).
  rewrite D. cbn [fst snd].
  destruct (ok_held _ _ _ Hok) as [Hs _].
  pose proof (sorted_no_dup _ Hs) as Hnd'.
  pose proof (Permutation_map fst Hit') as Hheld. cbn [map fst] in Hheld.
  fold (held (_root t)) in Hheld. fold (held root') in Hheld.
  rewrite Hheld in Hnd'. apply NoDup_cons in Hnd' as [Hk _].
  destruct (get_shaped (set_root t root') k Hok') as [_ G2].
  cbn [set_root _root] in G2.
  split; [reflexivity|]. split; [apply G2; right; exact Hk|].
  split; [apply G2; right; exact Hk|]. split; [|split].
  - intros k' v' Hin2 Hne Hp2.
    apply (get_shaped (set_root t root') k' Hok').
    + cbn [set_root _root].
      assert (H2 : (k', v') ∈ items (_root t)) by (rewrite Hit; exact Hin2).
      rewrite Hit' in H2. apply elem_of_cons in H2 as [[= -> ->]|H2];
        [contradiction | exact H2].
    + cbn [set_root _root]. rewrite Hpv. exact Hp2.
  - unfold iter. cbn [set_root _root].
    destruct (iter_ok _ _ _ Hok) as (_ & _ & P).
    destruct (iter_ok _ _ _ Hok') as (_ & _ & P').
    rewrite P, P', Hheld, Hpv. reflexivity.
  - unfold iter. cbn [set_root _root]. apply (iter_ok _ _ _ Hok').
Qed.

Lemma delete_takes_one_item_out_witness :
  snd (delete (fst (insert_all (init default_order) (numbered 64))) "f00")
  = Ok tt.
Proof.
  refine (proj1 (delete_takes_one_item_out default_order (numbered 64)
                   "f00" 0 _ btree_props.numbered_distinct _ _)).
  - unfold default_order. lia.
  - vm_compute. left.
  - vm_compute. intros H.
    repeat (apply elem_of_cons in H as [H|H]; [discriminate|]).
    apply elem_of_nil in H. exact H.
Defined.

End btree_general.

(** ** Many files in one directory *)

Module vfs_many.
Import node inode_table vfs vfs_spec vfs_props vfs_invariants walk_props
       vfs_ops vfs_more vfs_more_invariants vfs_paths vfs_compose path_props.
Import index_ops.

(** *** The components of the two paths *)

Lemma parts_file_in d n :
  component d -> component n -> parts_after_root (file_in d n) = [d; n].
Proof.
  intros [Kd Sd] [Kn Sn]. unfold parts_after_root, file_in.
  change ("/" ++ d ++ "/" ++ n)%string with (String "/" (d ++ String "/" n)).
  change (split_slash (String "/" (d ++ String "/" n)))
    with (EmptyString :: split_slash (d ++ String "/" n)).
  rewrite (split_app d n Sd), (split_noslash n Sn).
  cbn [List.filter]. rewrite Kd, Kn. reflexivity.
Qed.

Lemma parts_dir_path d :
  component d -> parts_after_root (dir_path d) = [d].
Proof.
  intros [Kd Sd]. unfold parts_after_root, dir_path.
  change ("/" ++ d)%string with (String "/" d).
  change (split_slash (String "/" d)) with (EmptyString :: split_slash d).
  rewrite (split_noslash d Sd). cbn [List.filter]. rewrite Kd. reflexivity.
Qed.

Lemma dir_path_not_root d : component d -> dir_path d <> "/"%string.
Proof.
  intros [Kd _] E. unfold dir_path in E.
  change ("/" ++ d)%string with (String "/" d) in E.
  injection E as ->. discriminate.
Qed.

(** *** Where the two paths lead *)

Lemma parent_of_file s d done n :
  holds_files s d done -> component d -> component n ->
  exists m1 c,
    parent_at s (file_in d n) 1 (Directory 1 m1 c)
    /\ basename (file_in d n) = n
    /\ tbl s !! 1 = Some (Directory 1 m1 c)
    /\ sorted (map fst c) /\ map fst c ≡ₚ done
    /\ (forall n x, (n, x) ∈ c ->
          2 <= x /\ exists fm, tbl s !! x = Some (File x fm [])).
Proof.
  intros (W & R & (m0 & T0) & m1 & c & T1 & Hs & Hp & Hf & Hn) Cd Cn.
  exists m1, c. unfold parent_at, basename.
  rewrite (parts_file_in d n Cd Cn). cbn [but_last final removelast last].
  split; [|split; [|split; [|split; [|split]]]]; try assumption;
    [|reflexivity].
  split; [reflexivity|]. split; [|split; [exact T1 | reflexivity]].
  cbn [lookup_walk]. rewrite R, T0. cbn [rbtree.getitem].
  rewrite rbtree_props.str_eq_refl. reflexivity.
Qed.

Lemma parent_of_dir s d done :
  holds_files s d done -> component d ->
  exists m0,
    parent_at s (dir_path d) 0 (Directory 0 m0 [(d, 1)])
    /\ basename (dir_path d) = d.
Proof.
  intros (W & R & (m0 & T0) & _) Cd.
  exists m0. unfold parent_at, basename.
  rewrite (parts_dir_path d Cd). cbn [but_last final removelast last].
  split; [|reflexivity].
  split; [reflexivity|]. split; [|split; [exact T0 | reflexivity]].
  cbn [lookup_walk]. rewrite R. reflexivity.
Qed.

Lemma key_getitem n c :
  n ∈ map fst c -> exists x, rbtree.getitem n c = Ok x /\ (n, x) ∈ c.
Proof.
  induction c as [|[k0 v0] c IH]; cbn [map fst rbtree.getitem]; intros H.
  - apply elem_of_nil in H. contradiction.
  - destruct (py.str_eq n k0) eqn:E.
    + apply rbtree_props.str_eq_iff in E. subst k0. exists v0.
      split; [reflexivity | left].
    + apply elem_of_cons in H as [->|H].
      * rewrite rbtree_props.str_eq_refl in E. discriminate.
      * destruct (IH H) as (x & G & Hin). exists x. split; [exact G|].
        right. exact Hin.
Qed.

Lemma keys_setitem_fresh n x c :
  sorted (map fst c) -> n ∉ map fst c ->
  map fst (rbtree.setitem n x c) ≡ₚ n :: map fst c.
Proof.
  intros Hs Hf.
  rewrite (index_refinement.setitem_fresh n x c Hs).
  - rewrite index_refinement.map_insert. unfold py.insert.
    rewrite <- Permutation_middle, take_drop. reflexivity.
  - intros i G. apply Hf. apply rbtree_props.getitem_elem in G.
    apply list_elem_of_In, in_map_iff. exists (n, i).
    split; [reflexivity|]. apply list_elem_of_In. exact G.
Qed.

(** *** One more file *)

Lemma touch_one_more s d done now n :
  holds_files s d done -> component d -> component n -> n ∉ done ->
  snd (touch now (file_in d n) s) = Ok tt
  /\ holds_files (fst (touch now (file_in d n) s)) d (n :: done).
Proof.
  intros H Cd Cn Hfresh.
  destruct (parent_of_file s d done n H Cd Cn)
    as (m1 & c & P & B & T1 & Hs & Hp & Hf).
  destruct H as (W & R & (m0 & T0) & _ & _ & _ & _ & _ & _ & Hn).
  assert (Hc : n ∉ map fst c) by (rewrite Hp; exact Hfresh).
  assert (G : rbtree.getitem n c = Raise (KeyError (KStr n))).
  { apply absent_raise. intros x Gx. apply Hc.
    apply rbtree_props.getitem_elem in Gx.
    apply list_elem_of_In, in_map_iff. exists (n, x).
    split; [reflexivity|]. apply list_elem_of_In. exact Gx. }
  assert (E : touch now (file_in d n) s
              = create s 1 (Directory 1 m1 c) n (new_File now (-1) [])).
  { unfold touch. rewrite (parent_at_resolve now _ _ _ _ P), B.
    cbn [get_child]. rewrite G. reflexivity. }
  rewrite E. split; [apply create_returns|].
  assert (Hpos : 0 <= Z.of_nat (length done)) by lia.
  split; [|split; [|split]].
  - pose proof (wf_run now (Touch (file_in d n)) s W) as W'.
    cbn [run] in W'. rewrite lift_fst, E in W'. exact W'.
  - rewrite root_create. exact R.
  - exists m0. rewrite tbl_create. repeat case_decide; try lia. exact T0.
  - exists m1, (rbtree.setitem n (nxt s) c).
    split; [|split; [|split; [|split]]].
    + rewrite tbl_create. case_decide; [reflexivity | congruence].
    + apply index_refinement.sorted_setitem. exact Hs.
    + rewrite (keys_setitem_fresh n (nxt s) c Hs Hc), Hp. reflexivity.
    + intros n' x Hin.
      apply rbtree_props.elem_setitem in Hin as [[= -> ->]|Hin].
      * split; [lia|]. exists (new_Meta now). rewrite tbl_create.
        repeat case_decide; try lia. reflexivity.
      * destruct (Hf n' x Hin) as (Hx & fm & Tx). split; [exact Hx|].
        exists fm. rewrite tbl_create.
        pose proof (wf_dom s W _ _ Tx).
        repeat case_decide; try lia. exact Tx.
    + rewrite nxt_create, Hn. cbn [length]. lia.
Qed.

Lemma touch_all_more d : forall l s done,
  holds_files s d done -> component d ->
  Forall component (map snd l) -> NoDup (map snd l) ->
  (forall n, n ∈ map snd l -> n ∉ done) ->
  snd (touch_all d l s) = Ok tt
  /\ holds_files (fst (touch_all d l s)) d (rev (map snd l) ++ done).
Proof.
  induction l as [|[now n] l IH]; intros s done H Cd F Hnd Hfresh.
  - split; [reflexivity | exact H].
  - cbn [map snd] in F, Hnd. apply Forall_cons in F as [Cn F].
    apply NoDup_cons in Hnd as [Hn Hnd].
    destruct (touch_one_more s d done now n H Cd Cn) as [E H1].
    { apply Hfresh. left. }
    cbn [touch_all].
    destruct (touch now (file_in d n) s) as [s1 r]. cbn [fst snd] in *.
    subst r.
    destruct (IH s1 (n :: done) H1 Cd F Hnd) as [E' H'].
    { intros n' Hin Hd. apply elem_of_cons in Hd as [->|Hd];
        [contradiction|]. apply (Hfresh n'); [right; exact Hin | exact Hd]. }
    split; [exact E'|].
    cbn [map snd rev]. rewrite <- app_assoc. exact H'.
Qed.

(** *** The first file makes the directory *)

Lemma first_touch now0 now d n :
  component d -> component n ->
  exists s1,
    holds_files s1 d []
    /\ touch now (file_in d n) (init now0) = touch now (file_in d n) s1.
Proof.
  intros Cd Cn.
  set (s0 := init now0).
  set (s1 := fst (create s0 0 (Directory 0 (new_Meta now0) []) d
                    (new_Directory now (-1)))).
  assert (T0 : tbl s0 !! 0 = Some (Directory 0 (new_Meta now0) []))
    by reflexivity.
  assert (W0 : wf s0) by apply wf_init.
  assert (Hs : _split_path now (file_in d n) s0 = (s1, Ok (1, n))).
  { unfold _split_path.
    change (is_absolute (file_in d n)) with true. cbn [negb].
    rewrite (parts_file_in d n Cd Cn).
    cbn [but_last final removelast last].
    rewrite walk_cons.
    change (root_id s0) with 0. rewrite T0. cbn [rbtree.getitem].
    change (nxt s0) with 1. reflexivity. }
  assert (H1 : holds_files s1 d []).
  { split; [|split; [|split]].
    - apply wf_create; assumption.
    - reflexivity.
    - exists (new_Meta now0). unfold s1. rewrite tbl_create.
      case_decide; [reflexivity | congruence].
    - exists (new_Meta now), []. split; [|split; [|split; [|split]]].
      + unfold s1. rewrite tbl_create.
        change (nxt s0) with 1. repeat case_decide; try lia. reflexivity.
      + exact I.
      + reflexivity.
      + intros n' x Hin. apply elem_of_nil in Hin. contradiction.
      + unfold s1. rewrite nxt_create. reflexivity. }
  exists s1. split; [exact H1|].
  destruct (parent_of_file s1 d [] n H1 Cd Cn) as (m1 & c & P & B & T1 & _).
  unfold touch at 1. rewrite (resolve_parent_of_split _ _ _ _ _ _ Hs), T1.
  unfold touch. rewrite (parent_at_resolve now _ _ _ _ P), B. reflexivity.
Qed.

Lemma touch_all_from_init now0 d l :
  component d -> Forall component (map snd l) -> NoDup (map snd l) ->
  l <> [] ->
  snd (touch_all d l (init now0)) = Ok tt
  /\ holds_files (fst (touch_all d l (init now0))) d (rev (map snd l)).
Proof.
  intros Cd F Hnd Hne. destruct l as [|[now n] l]; [contradiction|].
  pose proof F as F'. cbn [map snd] in F'. apply Forall_cons in F' as [Cn _].
  destruct (first_touch now0 now d n Cd Cn) as (s1 & H1 & E).
  assert (Eall : touch_all d ((now, n) :: l) (init now0)
                 = touch_all d ((now, n) :: l) s1).
  { cbn [touch_all]. rewrite E. reflexivity. }
  rewrite Eall.
  destruct (touch_all_more d ((now, n) :: l) s1 [] H1 Cd F Hnd) as [R H].
  { intros n' _ Hin. apply elem_of_nil in Hin. exact Hin. }
  rewrite app_nil_r in H. auto.
Qed.

(** X18 (many files in one directory).  From [VFS()], touching files of
    distinct names in one directory that does not exist yet, each name a
    single path component, never raises; afterwards [ls] of the
    directory returns exactly those names, each once, in strictly
    increasing order, [read] of each file returns the empty bytes, and
    the inodes allocated are the root, the directory and one per file. *)
Theorem touches_fill_a_directory :
  forall (now0 now' : Z) (d : string) (l : list (Z * string)),
    component d ->
    Forall component (map snd l) ->
    NoDup (map snd l) ->
    l <> [] ->
    let s := fst (touch_all d l (init now0)) in
    snd (touch_all d l (init now0)) = Ok tt
    /\ (exists names,
          ls now' (dir_path d) s = (s, Ok names)
          /\ names ≡ₚ map snd l /\ sorted names
          /\ length names = length l)
    /\ (forall n, n ∈ map snd l -> read now' (file_in d n) s = (s, Ok []))
    /\ nxt s = 2 + Z.of_nat (length l).
Proof.
  intros now0 now' d l Cd F Hnd Hne s. subst s.
  destruct (touch_all_from_init now0 d l Cd F Hnd Hne) as [R H].
  set (s := fst (touch_all d l (init now0))) in *.
  split; [exact R|].
  destruct (parent_of_dir s d _ H Cd) as (m0 & P0 & B0).
  pose proof H as (W & _ & _ & m1 & c & T1 & Hs & Hp & Hf & Hn).
  split; [|split].
  - exists (rbtree.keys c). split; [|split; [|split]].
    + apply (ls_at_dir now' (dir_path d) s 0 0 m0 [(d, 1)] 1 1 m1 c).
      * apply dir_path_not_root. exact Cd.
      * exact P0.
      * rewrite B0. cbn [rbtree.getitem].
        rewrite rbtree_props.str_eq_refl. reflexivity.
      * exact T1.
    + unfold rbtree.keys. rewrite Hp. symmetry. apply Permutation_rev.
    + exact Hs.
    + unfold rbtree.keys. rewrite (Permutation_length Hp), length_rev.
      apply length_map.
  - intros n Hin.
    assert (Cn : component n).
    { rewrite Forall_forall in F. apply F. exact Hin. }
    destruct (parent_of_file s d _ n H Cd Cn)
      as (m1' & c' & P & B & T1' & _ & Hp' & Hf').
    assert (Hk : n ∈ map fst c').
    { rewrite Hp', <- Permutation_rev. exact Hin. }
    destruct (key_getitem n c' Hk) as (x & G & Hx).
    destruct (Hf' n x Hx) as (_ & fm & Tx).
    apply (read_at_file now' (file_in d n) s 1 1 m1' c' x x fm []);
      [exact P | rewrite B; exact G | exact Tx].
  - rewrite Hn, length_rev, length_map. reflexivity.
Qed.

Lemma touches_fill_a_directory_witness :
  snd (touch_all "big" [(1, "f00000"%string); (2, "f00001"%string)] (init 0))
  = Ok tt.
Proof.
  refine (proj1 (touches_fill_a_directory 0 3 "big"
                   [(1, "f00000"%string); (2, "f00001"%string)] _ _ _ _)).
  - split; reflexivity.
  - repeat constructor.
  - repeat constructor; cbn; intros H;
      repeat (apply elem_of_cons in H as [H|H]; [discriminate|]);
      apply elem_of_nil in H; exact H.
  - discriminate.
Defined.

End vfs_many.
